(** * DiscIO/DiscExtractor.cpp: extraction of files and boot artifacts
      from a disc volume onto the host file system.

    The functions of [namespace DiscIO] are embedded as state-passing
    functions over a [World] (host file system plus the trace of every
    interaction with the outside: volume reads, host file operations,
    progress callbacks and log lines).  Integers are [Z] with the
    wrap-around of [u32]/[u64] written out. *)

From Stdlib Require Import ZArith List Lia Bool Ascii.
From stdpp Require Import gmap strings list.
From Equations Require Import Equations.

Local Open Scope Z_scope.

(** ** Machine integers (Common/CommonTypes.h: u8, u32, u64) *)

Definition wrap32 (z : Z) : Z := z mod 2^32.
Definition wrap64 (z : Z) : Z := z mod 2^64.

Definition is_u32 (z : Z) : Prop := 0 <= z < 2^32.
Definition is_u64 (z : Z) : Prop := 0 <= z < 2^64.

Definition u8 : Type := Byte.byte.
Definition u8_to_Z (b : u8) : Z := Z.of_N (Byte.to_N b).

(** ** DiscIO/Enums.h *)

(** Modelled from the spec: DiscIO/Enums.h is not among the sources.  The
    medium flavours are the two disc flavours (of which [WII_DISC] is the
    one with offset-shifted addressing, as [GetBootDOLOffset] tests) and
    the two non-disc flavours; [IsDisc] is the test "is this a disc
    image". *)
Inductive Platform : Set :=
| GAMECUBE_DISC
| WII_DISC
| WII_WAD
| ELF_DOL.

Definition Platform_eqb (a b : Platform) : bool :=
  match a, b with
  | GAMECUBE_DISC, GAMECUBE_DISC | WII_DISC, WII_DISC
  | WII_WAD, WII_WAD | ELF_DOL, ELF_DOL => true
  | _, _ => false
  end.

Definition IsDisc (volume_type : Platform) : bool :=
  Platform_eqb volume_type GAMECUBE_DISC || Platform_eqb volume_type WII_DISC.

(** ** DiscIO/Volume.h *)

(** Modelled from the spec: a partition is an opaque identifier selecting
    what reads are relative to. *)
Definition Partition : Type := Z.

(** Modelled from the spec: DiscIO/Volume.h is not among the sources.  A
    volume is a read-only byte-addressable image: [vol_byte p a] is the
    byte at partition-relative address [a] (a [u64]), and
    [vol_readable p offset length] tells whether
    [Read(offset, length, buffer, p)] succeeds. *)
Record Volume : Type := {
  GetVolumeType : Platform;
  vol_readable : Partition -> Z -> Z -> bool;
  vol_byte : Partition -> Z -> u8
}.

(** The bytes of the volume at addresses [a, a + n); addresses are [u64]. *)
Fixpoint vol_bytes (volume : Volume) (partition : Partition) (a : Z) (n : nat)
  : list u8 :=
  match n with
  | O => []
  | S n' => vol_byte volume partition (wrap64 a)
            :: vol_bytes volume partition (a + 1) n'
  end.

(** ** DiscIO/Filesystem.h *)

(** Modelled from the spec: one entry of the directory tree, with the
    accessors the extractor consumes; [children] is what iterating the
    entry ([for (const FileInfo& file_info : directory)]) yields, in the
    tree's order.  Offset and size are meaningful for files only. *)
#[local] Unset Elimination Schemes.
Inductive FileInfo : Type :=
  MkFileInfo {
    GetName : string;
    GetOffset : Z;
    GetSize : Z;
    IsDirectory : bool;
    children : list FileInfo
  }.
#[local] Set Elimination Schemes.

(** ** The outside world *)

Inductive Event : Type :=
| EvRead (partition : Partition) (offset length : Z) (ok : bool)
| EvOpen (path : string) (ok : bool)
| EvWrite (path : string) (data : list u8) (ok : bool)
| EvCreateFullPath (path : string)
| EvExists (path : string) (found : bool)
| EvProgress (path : string) (cancel : bool)
| EvNotice (path : string)
| EvError (path : string).

Record World : Type := mkWorld {
  host_files : gmap string (list u8);
  host_dirs : gset string;
  trace : list Event
}.

(** Modelled from the spec: Common/File.h is not among the sources.  Whether
    the host lets a file be opened for writing, or a write go through, is
    up to the host; it may depend on everything that happened before. *)
Record HostIO : Type := {
  open_ok : list Event -> string -> bool;
  write_ok : list Event -> string -> list u8 -> bool
}.

(** [std::function<bool(const std::string& path)>]: a callback with
    captured state answers as a function of what happened before. *)
Definition Callback : Type := list Event -> string -> bool.

Definition emit (e : Event) (w : World) : World :=
  mkWorld (host_files w) (host_dirs w) (trace w ++ [e]).

(** *** Volume accessor *)

(** Modelled from the spec: [read(offset, length, buffer, partition) ->
    bool].  On success the first [length] bytes of the buffer are the
    volume's; a failed read is taken to leave the buffer as it was. *)
Definition Volume_Read (volume : Volume) (offset length : Z) (buffer : list u8)
    (partition : Partition) (w : World) : (bool * list u8) * World :=
  let ok := vol_readable volume partition offset length in
  let buffer' :=
    if ok then vol_bytes volume partition offset (Z.to_nat length)
               ++ drop (Z.to_nat length) buffer
    else buffer in
  ((ok, buffer'), emit (EvRead partition offset length ok) w).

(** [Common::FromBigEndian] on four bytes. *)
Definition be32 (b0 b1 b2 b3 : u8) : Z :=
  Z.lor (Z.shiftl (u8_to_Z b0) 24)
    (Z.lor (Z.shiftl (u8_to_Z b1) 16)
       (Z.lor (Z.shiftl (u8_to_Z b2) 8) (u8_to_Z b3))).

Definition zero_buffer (n : Z) : list u8 := replicate (Z.to_nat n) Byte.x00.

(** Modelled from the spec: [read_typed<T>(offset, partition)], fixed-width
    and byte-order-normalized; here [T = u32]: a four-byte [Read] whose
    bytes are taken big-endian. *)
Definition ReadSwapped_u32 (volume : Volume) (offset : Z) (partition : Partition)
    (w : World) : option Z * World :=
  match Volume_Read volume offset 4 (zero_buffer 4) partition w with
  | ((true, b0 :: b1 :: b2 :: b3 :: _), w') => (Some (be32 b0 b1 b2 b3), w')
  | (_, w') => (None, w')
  end.

(** *** Host file system *)

(** The prefixes of [path] that end in a directory separator, shortest
    first: the directories [File::CreateFullPath] makes sure exist. *)
Fixpoint dir_prefixes_from (done rest : string) : list string :=
  match rest with
  | EmptyString => []
  | String c rest' =>
      let done' := done +:+ String c EmptyString in
      if Ascii.eqb c "/"%char then done' :: dir_prefixes_from done' rest'
      else dir_prefixes_from done' rest'
  end.

Definition dir_prefixes (path : string) : list string :=
  dir_prefixes_from EmptyString path.

(** Modelled from the spec: [File::CreateFullPath] ensures the folder
    exists, creating intermediate directories.  Host paths are compared
    as strings. *)
Definition File_CreateFullPath (path : string) (w : World) : World :=
  mkWorld (host_files w)
          (host_dirs w ∪ list_to_set (dir_prefixes path))
          (trace w ++ [EvCreateFullPath path]).

(** Modelled from the spec: [File::Exists] tells whether something, file
    or directory, is at the path. *)
Definition path_exists (w : World) (path : string) : bool :=
  bool_decide (is_Some (host_files w !! path)) || bool_decide (path ∈ host_dirs w).

Definition File_Exists (path : string) (w : World) : bool * World :=
  let found := path_exists w path in
  (found, emit (EvExists path found) w).

Section WithHost.

Context (io : HostIO).

(** Modelled from the spec: [File::IOFile f(export_filename, "wb")]
    followed by [if (!f)] opens the destination for binary writing; a
    successful open leaves an empty file at the path (an existing file is
    overwritten). *)
Definition IOFile_open (path : string) (w : World) : bool * World :=
  let ok := open_ok io (trace w) path in
  (ok, mkWorld (if ok then <[path := []]> (host_files w) else host_files w)
               (host_dirs w)
               (trace w ++ [EvOpen path ok])).

(** Modelled from the spec: [f.WriteBytes(data, length)] writes the
    chunk to the host file; a successful write appends the first [length]
    bytes of [data], a failed write is taken to append nothing. *)
Definition IOFile_WriteBytes (path : string) (data : list u8) (length : Z)
    (w : World) : bool * World :=
  let chunk := take (Z.to_nat length) data in
  let ok := write_ok io (trace w) path chunk in
  (ok, mkWorld (if ok
                then <[path := default [] (host_files w !! path) ++ chunk]>
                       (host_files w)
                else host_files w)
               (host_dirs w)
               (trace w ++ [EvWrite path chunk ok])).

(** ** DiscExtractor.cpp *)

Definition ReadFile (volume : Volume) (partition : Partition)
    (file_info : option FileInfo) (buffer : list u8)
    (max_buffer_size offset_in_file : Z) (w : World) : (Z * list u8) * World :=
  match file_info with
  | None => ((0, buffer), w)
  | Some fi =>
      if IsDirectory fi || (GetSize fi <=? offset_in_file) then ((0, buffer), w)
      else
        let read_length :=
          Z.min max_buffer_size (wrap64 (GetSize fi - offset_in_file)) in
        match Volume_Read volume (wrap64 (GetOffset fi + offset_in_file))
                read_length buffer partition w with
        | ((false, buffer'), w') => ((0, buffer'), w')
        | ((true, buffer'), w') => ((read_length, buffer'), w')
        end
  end.

(** The loop [while (size)] of [ExportData]; [limit] is the cap on one
    read, 0x08000000 in the source.  [size] is a [u64], for which
    [size != 0] is [0 < size]. *)
Equations? ExportData_loop (limit : positive) (volume : Volume)
    (partition : Partition) (f : string) (offset size : Z) (w : World)
  : bool * World by wf (Z.to_nat size) lt :=
ExportData_loop limit volume partition f offset size w with decide (0 < size) := {
  | right _ := (true, w)
  | left _ with Volume_Read volume offset (Z.min size (Z.pos limit))
                  (zero_buffer (Z.min size (Z.pos limit))) partition w := {
    | ((false, _), w1) := (false, w1)
    | ((true, buffer), w1)
        with IOFile_WriteBytes f buffer (Z.min size (Z.pos limit)) w1 := {
      | (false, w2) := (false, w2)
      | (true, w2) :=
          ExportData_loop limit volume partition f
            (wrap64 (offset + Z.min size (Z.pos limit)))
            (wrap64 (size - Z.min size (Z.pos limit))) w2 } } }.
Proof.
  unfold wrap64.
  assert (0 <= size - Z.min size (Z.pos limit) < size) by lia.
  pose proof (Z.mod_le (size - Z.min size (Z.pos limit)) (2^64)).
  pose proof (Z.mod_pos_bound (size - Z.min size (Z.pos limit)) (2^64)).
  lia.
Qed.

Definition ExportData_limited (limit : positive) (volume : Volume)
    (partition : Partition) (offset size : Z) (export_filename : string)
    (w : World) : bool * World :=
  match IOFile_open export_filename w with
  | (false, w') => (false, w')
  | (true, w') => ExportData_loop limit volume partition export_filename offset size w'
  end.

Definition read_limit : positive := 0x08000000.

Definition ExportData : Volume -> Partition -> Z -> Z -> string -> World -> bool * World :=
  ExportData_limited read_limit.

Definition ExportFile (volume : Volume) (partition : Partition)
    (file_info : option FileInfo) (export_filename : string) (w : World)
  : bool * World :=
  match file_info with
  | None => (false, w)
  | Some fi =>
      if IsDirectory fi then (false, w)
      else ExportData volume partition (GetOffset fi) (GetSize fi) export_filename w
  end.

(** [update_progress(path)] *)
Definition call_progress (update_progress : Callback) (path : string)
    (w : World) : bool * World :=
  let cancel := update_progress (trace w) path in
  (cancel, emit (EvProgress path cancel) w).

(** What [ExportDirectory] does with one child once the callback let it
    through: the file branch and the recursive branch; [recurse] is the
    recursive call. *)
Definition export_entry (volume : Volume) (partition : Partition)
    (file_info : FileInfo) (recursive : bool) (export_path : string)
    (recurse : World -> World) (w : World) : World :=
  if negb (IsDirectory file_info) then
    let (found, w1) := File_Exists export_path w in
    if found then emit (EvNotice export_path) w1
    else
      let (ok, w2) := ExportFile volume partition (Some file_info) export_path w1 in
      if ok then w2 else emit (EvError export_path) w2
  else if recursive then recurse w
  else w.

Definition entry_name (file_info : FileInfo) : string :=
  GetName file_info +:+ (if IsDirectory file_info then "/" else "").

Fixpoint ExportDirectory (volume : Volume) (partition : Partition)
    (directory : FileInfo) (recursive : bool)
    (filesystem_path export_folder : string) (update_progress : Callback)
    (w : World) {struct directory} : World :=
  (fix each (entries : list FileInfo) (w : World) {struct entries} : World :=
     match entries with
     | [] => w
     | file_info :: rest =>
         let name := entry_name file_info in
         let path := filesystem_path +:+ name in
         let export_path := export_folder +:+ "/" +:+ name in
         let (cancel, w1) := call_progress update_progress path w in
         if cancel then w1
         else
           each rest
             (export_entry volume partition file_info recursive export_path
                (ExportDirectory volume partition file_info recursive path
                   export_path update_progress) w1)
     end)
    (children directory) (File_CreateFullPath (export_folder +:+ "/") w).

(** The [for] loop of [ExportDirectory] over the entries still to visit. *)
Fixpoint ExportDirectory_entries (volume : Volume) (partition : Partition)
    (entries : list FileInfo) (recursive : bool)
    (filesystem_path export_folder : string) (update_progress : Callback)
    (w : World) {struct entries} : World :=
  match entries with
  | [] => w
  | file_info :: rest =>
      let name := entry_name file_info in
      let path := filesystem_path +:+ name in
      let export_path := export_folder +:+ "/" +:+ name in
      let (cancel, w1) := call_progress update_progress path w in
      if cancel then w1
      else
        ExportDirectory_entries volume partition rest recursive filesystem_path
          export_folder update_progress
          (export_entry volume partition file_info recursive export_path
             (ExportDirectory volume partition file_info recursive path
                export_path update_progress) w1)
  end.

Definition ExportApploader (volume : Volume) (partition : Partition)
    (export_filename : string) (w : World) : bool * World :=
  if negb (IsDisc (GetVolumeType volume)) then (false, w)
  else
    let (apploader_size, w1) := ReadSwapped_u32 volume (0x2440 + 0x14) partition w in
    let (trailer_size, w2) := ReadSwapped_u32 volume (0x2440 + 0x18) partition w1 in
    let header_size := 0x20 in
    match apploader_size, trailer_size with
    | Some a, Some t =>
        ExportData volume partition 0x2440 (wrap32 (a + wrap32 (t + header_size)))
          export_filename w2
    | _, _ => (false, w2)
    end.

Definition GetBootDOLOffset (volume : Volume) (partition : Partition) (w : World)
  : option Z * World :=
  let volume_type := GetVolumeType volume in
  if negb (IsDisc volume_type) then (None, w)
  else
    let (offset, w1) := ReadSwapped_u32 volume 0x420 partition w in
    let offset_shift := if Platform_eqb volume_type WII_DISC then 2 else 0 in
    (match offset with
     | Some o => Some (wrap64 (Z.shiftl o offset_shift))
     | None => None
     end, w1).

(** One of the two [for (u8 i = 0; i < n; i++)] loops of [GetBootDOLSize]:
    [count] iterations are left, [i] is the loop variable. *)
Fixpoint dol_segments (volume : Volume) (partition : Partition) (dol_offset : Z)
    (offset_table size_table : Z) (count : nat) (i : Z) (dol_size : Z)
    (w : World) : option Z * World :=
  match count with
  | O => (Some dol_size, w)
  | S count' =>
      let (offset, w1) :=
        ReadSwapped_u32 volume (wrap64 (dol_offset + offset_table + i * 4))
          partition w in
      let (size, w2) :=
        ReadSwapped_u32 volume (wrap64 (dol_offset + size_table + i * 4))
          partition w1 in
      match offset, size with
      | Some o, Some s =>
          dol_segments volume partition dol_offset offset_table size_table
            count' (i + 1) (Z.max (wrap32 (o + s)) dol_size) w2
      | _, _ => (None, w2)
      end
  end.

Definition GetBootDOLSize (volume : Volume) (partition : Partition)
    (dol_offset : Z) (w : World) : option Z * World :=
  if negb (IsDisc (GetVolumeType volume)) then (None, w)
  else
    match dol_segments volume partition dol_offset 0x00 0x90 7 0 0 w with
    | (None, w1) => (None, w1)
    | (Some dol_size, w1) =>
        dol_segments volume partition dol_offset 0x1c 0xac 11 0 dol_size w1
    end.

Definition ExportDOL (volume : Volume) (partition : Partition)
    (export_filename : string) (w : World) : bool * World :=
  if negb (IsDisc (GetVolumeType volume)) then (false, w)
  else
    match GetBootDOLOffset volume partition w with
    | (None, w1) => (false, w1)
    | (Some dol_offset, w1) =>
        match GetBootDOLSize volume partition dol_offset w1 with
        | (None, w2) => (false, w2)
        | (Some dol_size, w2) =>
            ExportData volume partition dol_offset dol_size export_filename w2
        end
    end.

Definition ExportSystemData (volume : Volume) (partition : Partition)
    (export_folder : string) (w : World) : bool * World :=
  let success := true in
  let (r1, w1) :=
    ExportApploader volume partition (export_folder +:+ "/apploader.img") w in
  let success := success && r1 in
  let (r2, w2) := ExportDOL volume partition (export_folder +:+ "/boot.dol") w1 in
  let success := success && r2 in
  (success, w2).

End WithHost.

(** ** Specification vocabulary *)

(** The events a run added: the part of the trace of [w'] after that of
    [w]. *)
Definition new_events (w w' : World) : list Event :=
  drop (length (trace w)) (trace w').

(** The value of the big-endian [u32] field at address [a], if the volume
    lets it be read. *)
Definition read_u32 (volume : Volume) (partition : Partition) (a : Z) : option Z :=
  if vol_readable volume partition a 4 then
    Some (be32 (vol_byte volume partition (wrap64 a))
               (vol_byte volume partition (wrap64 (a + 1)))
               (vol_byte volume partition (wrap64 (a + 2)))
               (vol_byte volume partition (wrap64 (a + 3))))
  else None.

(** The 18 segment descriptors of the DOL header at [dol_offset], each as
    the addresses of its offset field and of its size field: 7 code
    segments (offsets from +0x00, sizes from +0x90) and 11 data segments
    (offsets from +0x1c, sizes from +0xac), four bytes apart. *)
Definition dol_descriptor_fields (dol_offset : Z) : list (Z * Z) :=
  map (fun i => (dol_offset + 0x00 + 4 * i, dol_offset + 0x90 + 4 * i)) (seqZ 0 7)
  ++ map (fun i => (dol_offset + 0x1c + 4 * i, dol_offset + 0xac + 4 * i)) (seqZ 0 11).

(** The (offset, size) values of the descriptors at the given field
    addresses; nothing if any field cannot be read. *)
Fixpoint read_descriptors (volume : Volume) (partition : Partition)
    (fields : list (Z * Z)) : option (list (Z * Z)) :=
  match fields with
  | [] => Some []
  | (offset_field, size_field) :: rest =>
      match read_u32 volume partition (wrap64 offset_field),
            read_u32 volume partition (wrap64 size_field),
            read_descriptors volume partition rest with
      | Some o, Some s, Some segs => Some ((o, s) :: segs)
      | _, _, _ => None
      end
  end.

(** The reads that fetch the descriptors at the given field addresses:
    for each descriptor its offset field, then its size field. *)
Definition descriptor_reads (partition : Partition) (fields : list (Z * Z))
  : list Event :=
  concat (map (fun field =>
                 [EvRead partition (wrap64 (fst field)) 4 true;
                  EvRead partition (wrap64 (snd field)) 4 true])
              fields).

(** The maximum, over the descriptors, of offset [plus] size; 0 when
    there is none. *)
Definition max_extent (plus : Z -> Z -> Z) (segs : list (Z * Z)) : Z :=
  foldr (fun seg acc => Z.max (plus (fst seg) (snd seg)) acc) 0 segs.

Definition add_u32 (a b : Z) : Z := wrap32 (a + b).

(** The sizes of the chunks a transfer of [size] bytes is cut into when
    one read takes at most [limit] bytes: full chunks, then the rest. *)
Definition chunk_sizes (limit size : Z) : list Z :=
  replicate (Z.to_nat (size / limit)) limit
  ++ (if size mod limit =? 0 then [] else [size mod limit]).

(** The events of transferring chunks of the given sizes, one after the
    other, from address [offset] on, to the host file [f]: each chunk is
    read, then written. *)
Fixpoint chunk_events (volume : Volume) (partition : Partition) (f : string)
    (offset : Z) (sizes : list Z) : list Event :=
  match sizes with
  | [] => []
  | n :: rest =>
      EvRead partition (wrap64 offset) n true
      :: EvWrite f (vol_bytes volume partition offset (Z.to_nat n)) true
      :: chunk_events volume partition f (offset + n) rest
  end.

(** The events of a chunk of [n] bytes at address [a] that fails, after
    the events [before]: either its read fails, or its read succeeds and
    its write fails; nothing follows. *)
Definition failed_chunk (io : HostIO) (volume : Volume) (partition : Partition)
    (f : string) (before : list Event) (a n : Z) (failure : list Event) : Prop :=
  (vol_readable volume partition a n = false
   /\ failure = [EvRead partition a n false])
  \/ (vol_readable volume partition a n = true
      /\ write_ok io (before ++ [EvRead partition a n true]) f
           (vol_bytes volume partition a (Z.to_nat n)) = false
      /\ failure = [EvRead partition a n true;
                    EvWrite f (vol_bytes volume partition a (Z.to_nat n)) false]).

(** Kinds of events. *)
Definition is_cancel (e : Event) : bool :=
  match e with EvProgress _ true => true | _ => false end.

Definition is_failed_open (e : Event) : bool :=
  match e with EvOpen _ false => true | _ => false end.

Definition is_transfer (e : Event) : bool :=
  match e with EvRead _ _ _ _ | EvWrite _ _ _ => true | _ => false end.

Definition is_open_or_write (e : Event) : bool :=
  match e with EvOpen _ _ | EvWrite _ _ _ => true | _ => false end.

Definition is_create (e : Event) : bool :=
  match e with EvCreateFullPath _ => true | _ => false end.

(** Events that open no file and write to none. *)
Definition is_quiet (e : Event) : bool := negb (is_open_or_write e).

(** Events of a run that was not cancelled and in which no open
    failed. *)
Definition is_complete (e : Event) : bool :=
  negb (is_cancel e) && negb (is_failed_open e).

(** Events of a run in which the callback never answered true. *)
Definition is_uncancelled (e : Event) : bool := negb (is_cancel e).

(** The paths the progress callback was called with, in order. *)
Definition progress_paths (evs : list Event) : list string :=
  omap (fun e => match e with EvProgress path _ => Some path | _ => None end) evs.

(** The size of the apploader image, as [ExportApploader] computes it from
    the two header fields. *)
Definition apploader_image_size (apploader_size trailer_size : Z) : Z :=
  wrap32 (apploader_size + wrap32 (trailer_size + 0x20)).

(** What follows the open in the export of a file entry: reads, writes
    and possibly the error line. *)
Definition is_after_open (e : Event) : bool :=
  match e with
  | EvRead _ _ _ _ | EvWrite _ _ _ | EvError _ => true
  | _ => false
  end.

(** Events that change nothing on the host. *)
Definition is_passive (e : Event) : bool :=
  match e with
  | EvRead _ _ _ _ | EvExists _ _ | EvProgress _ _ | EvNotice _ | EvError _ => true
  | _ => false
  end.

(** The files and directories of the host, and what an event does to
    them: a successful open empties the file, a successful write appends
    to it, [CreateFullPath] adds directories; nothing else changes
    anything. *)
Definition Host : Type := gmap string (list u8) * gset string.

Definition host_of (w : World) : Host := (host_files w, host_dirs w).

Definition apply_event (h : Host) (e : Event) : Host :=
  match e with
  | EvOpen path true => (<[path := []]> (fst h), snd h)
  | EvWrite path data true =>
      (<[path := default [] (fst h !! path) ++ data]> (fst h), snd h)
  | EvCreateFullPath path => (fst h, snd h ∪ list_to_set (dir_prefixes path))
  | _ => h
  end.

Definition replay (evs : list Event) (h : Host) : Host := foldl apply_event h evs.

(** The host of [w'] is that of [w] after the events that came in
    between. *)
Definition replayed (w w' : World) : Prop :=
  exists evs, trace w' = trace w ++ evs /\ host_of w' = replay evs (host_of w).

(** A callback that, once it has answered true, answers true ever
    after (a cancellation flag that stays set). *)
Definition latched (update_progress : Callback) : Prop :=
  forall t path, update_progress t path = true ->
  forall t' q, update_progress (t ++ EvProgress path true :: t') q = true.

(** The callback answers true in [w] and ever after. *)
Definition cancelled (update_progress : Callback) (w : World) : Prop :=
  forall t' q, update_progress (trace w ++ t') q = true.

(** The number of directory levels of an entry, itself included. *)
Fixpoint height (fi : FileInfo) : nat :=
  S (foldr (fun c acc => Nat.max (height c) acc) 0%nat (children fi)).

(** The logical paths of the entries [ExportDirectory] walks, in the
    order it walks them: each child of the directory, followed, for a
    child directory in a recursive export, by that directory's. *)
Fixpoint entry_paths (recursive : bool) (filesystem_path : string)
    (directory : FileInfo) : list string :=
  concat
    (map (fun c =>
            let path := filesystem_path +:+ entry_name c in
            path :: (if IsDirectory c && recursive
                     then entry_paths recursive path c else []))
         (children directory)).

(** Every file entry of the walk already has something at its export
    path. *)
Fixpoint covered (w : World) (recursive : bool) (export_folder : string)
    (directory : FileInfo) : bool :=
  forallb (fun c =>
             let export_path := export_folder +:+ "/" +:+ entry_name c in
             if negb (IsDirectory c) then path_exists w export_path
             else if recursive then covered w recursive export_path c
             else true)
          (children directory).

(** The same, for the entries the loop still has to visit. *)
Definition covered_entries (w : World) (recursive : bool) (export_folder : string)
    (entries : list FileInfo) : bool :=
  forallb (fun c =>
             let export_path := export_folder +:+ "/" +:+ entry_name c in
             if negb (IsDirectory c) then path_exists w export_path
             else if recursive then covered w recursive export_path c
             else true)
          entries.

(** The logical paths of the walk over the given entries. *)
Definition entries_paths (recursive : bool) (filesystem_path : string)
    (entries : list FileInfo) : list string :=
  concat
    (map (fun c =>
            let path := filesystem_path +:+ entry_name c in
            path :: (if IsDirectory c && recursive
                     then entry_paths recursive path c else []))
         entries).

(** A callback, or a host, whose answer for a path is the same whatever
    happened before. *)
Definition path_determined_callback (update_progress : Callback) : Prop :=
  forall t t' path, update_progress t path = update_progress t' path.

Definition path_determined_open (io : HostIO) : Prop :=
  forall t t' path, open_ok io t path = open_ok io t' path.

(** Events that leave file contents alone: anything but a successful
    open and a write. *)
Definition is_idle (e : Event) : bool :=
  match e with
  | EvOpen _ true | EvWrite _ _ _ => false
  | _ => true
  end.

(** For a path-determined callback and host: every file entry the walk
    reaches has something at its export path, or cannot be opened. *)
Fixpoint settled (io : HostIO) (update_progress : Callback) (w : World)
    (recursive : bool) (filesystem_path export_folder : string)
    (directory : FileInfo) : bool :=
  (fix each (entries : list FileInfo) : bool :=
     match entries with
     | [] => true
     | c :: rest =>
         let path := filesystem_path +:+ entry_name c in
         let export_path := export_folder +:+ "/" +:+ entry_name c in
         if update_progress [] path then true
         else
           (if negb (IsDirectory c)
            then path_exists w export_path || negb (open_ok io [] export_path)
            else if recursive
                 then settled io update_progress w recursive path export_path c
                 else true)
           && each rest
     end) (children directory).

Fixpoint settled_entries (io : HostIO) (update_progress : Callback) (w : World)
    (recursive : bool) (filesystem_path export_folder : string)
    (entries : list FileInfo) : bool :=
  match entries with
  | [] => true
  | c :: rest =>
      let path := filesystem_path +:+ entry_name c in
      let export_path := export_folder +:+ "/" +:+ entry_name c in
      if update_progress [] path then true
      else
        (if negb (IsDirectory c)
         then path_exists w export_path || negb (open_ok io [] export_path)
         else if recursive
              then settled io update_progress w recursive path export_path c
              else true)
        && settled_entries io update_progress w recursive filesystem_path
             export_folder rest
  end.

(** A run left existing things alone: the trace grew, no directory went
    away and every file that was there is there with its content. *)
Definition preserves (w w' : World) : Prop :=
  (exists evs, trace w' = trace w ++ evs) /\
  host_dirs w ⊆ host_dirs w' /\
  (forall q c, host_files w !! q = Some c -> host_files w' !! q = Some c).

(** The events of a walk that was cancelled: up to the first true
    answer of the callback no true answer; after it nothing but true
    answers, at most [h] of them. *)
Definition stopped_walk (h : nat) (evs pre : list Event) : Prop :=
  exists path post,
    evs = pre ++ EvProgress path true :: post /\
    forallb is_uncancelled pre = true /\
    forallb is_cancel post = true /\
    (length post <= h)%nat.

(** Cancellation read as a stop of the whole call: nothing follows a
    true answer of the callback. *)
Definition stops_at_first_cancel (evs : list Event) : Prop :=
  forall pre path post, evs = pre ++ EvProgress path true :: post -> post = [].

(** How a walk unwinds from a true answer of a latched callback.
    [unwinding entries filesystem_path depth tail]: [tail] are the events
    of the loop over [entries] from the first true answer on, and that
    answer was given [depth] directory levels below these entries.  The
    loop that asked returns at once; each enclosing loop asks once more,
    for the entry after the directory it had descended into, if there is
    one, and returns. *)
Inductive unwinding : list FileInfo -> string -> nat -> list Event -> Prop :=
| unwinding_here entries filesystem_path before c rest :
    entries = before ++ c :: rest ->
    unwinding entries filesystem_path 0
      [EvProgress (filesystem_path +:+ entry_name c) true]
| unwinding_below entries filesystem_path before c rest depth tail :
    entries = before ++ c :: rest ->
    IsDirectory c = true ->
    unwinding (children c) (filesystem_path +:+ entry_name c) depth tail ->
    unwinding entries filesystem_path (S depth)
      (tail ++ match rest with
               | [] => []
               | next :: _ =>
                   [EvProgress (filesystem_path +:+ entry_name next) true]
               end).

(** Whatever was on the host when the callback was asked is there at the
    end: the host at that moment is the host of [w] after the events
    before the call. *)
Definition keeps_reported (w w' : World) : Prop :=
  forall pre path answer post,
    new_events w w' = pre ++ EvProgress path answer :: post ->
    snd (replay pre (host_of w)) ⊆ host_dirs w' /\
    forall q content,
      fst (replay pre (host_of w)) !! q = Some content ->
      host_files w' !! q = Some content.

(** A run that left existing things alone, whose host is what its events
    made it, and that kept what was there at each call of the
    callback. *)
Definition steady (w w' : World) : Prop :=
  preserves w w' /\ replayed w w' /\ keeps_reported w w'.

(** The file entries [ExportDirectory] walks, each with its export path,
    in walk order. *)
Fixpoint walk_files (recursive : bool) (export_folder : string)
    (directory : FileInfo) : list (string * FileInfo) :=
  concat
    (map (fun c =>
            let export_path := export_folder +:+ "/" +:+ entry_name c in
            if negb (IsDirectory c) then [(export_path, c)]
            else if recursive then walk_files recursive export_path c
            else [])
         (children directory)).

Definition walk_files_entries (recursive : bool) (export_folder : string)
    (entries : list FileInfo) : list (string * FileInfo) :=
  concat
    (map (fun c =>
            let export_path := export_folder +:+ "/" +:+ entry_name c in
            if negb (IsDirectory c) then [(export_path, c)]
            else if recursive then walk_files recursive export_path c
            else [])
         entries).

(** The paths [ExportDirectory] hands to [File::CreateFullPath], in walk
    order: that of the folder itself, then those of the child directories
    it descends into. *)
Fixpoint walk_folders (recursive : bool) (export_folder : string)
    (directory : FileInfo) : list string :=
  (export_folder +:+ "/")
  :: concat
       (map (fun c =>
               if IsDirectory c && recursive
               then walk_folders recursive
                      (export_folder +:+ "/" +:+ entry_name c) c
               else [])
            (children directory)).

Definition walk_folders_entries (recursive : bool) (export_folder : string)
    (entries : list FileInfo) : list string :=
  concat
    (map (fun c =>
            if IsDirectory c && recursive
            then walk_folders recursive (export_folder +:+ "/" +:+ entry_name c) c
            else [])
         entries).

(** The paths [File::CreateFullPath] was called with, in order. *)
Definition created_paths (evs : list Event) : list string :=
  omap (fun e => match e with EvCreateFullPath path => Some path | _ => None end)
       evs.

(** Events of a run without cancellation, notice or error line. *)
Definition is_clean (e : Event) : bool :=
  match e with
  | EvProgress _ true | EvNotice _ | EvError _ => false
  | _ => true
  end.

(** The bytes of a file entry on the volume. *)
Definition file_bytes (volume : Volume) (partition : Partition) (fi : FileInfo)
  : list u8 :=
  vol_bytes volume partition (GetOffset fi) (Z.to_nat (GetSize fi)).

(** Offset and size of the entry are [u64]s. *)
Definition file_in_range (fi : FileInfo) : Prop :=
  is_u64 (GetOffset fi) /\ is_u64 (GetSize fi).

(** A four-byte volume read. *)
Definition is_read4 (e : Event) : bool :=
  match e with EvRead _ _ 4 _ => true | _ => false end.

(** A volume read, or an open of or a write to the file [f]. *)
Definition is_transfer_to (f : string) (e : Event) : bool :=
  match e with
  | EvRead _ _ _ _ => true
  | EvOpen path _ | EvWrite path _ _ => bool_decide (path = f)
  | _ => false
  end.

(** A volume read lies in the range of [size] bytes at [offset] of
    [partition]. *)
Definition read_within (partition : Partition) (offset size : Z) (e : Event)
  : Prop :=
  match e with
  | EvRead p a n _ =>
      p = partition /\
      exists k, 0 <= k /\ 0 <= n /\ k + n <= size /\ a = wrap64 (offset + k)
  | _ => True
  end.

(** The directories that the calls of [File::CreateFullPath] among the
    events made sure exist. *)
Definition created_dirs (evs : list Event) : gset string :=
  list_to_set (concat (map dir_prefixes (created_paths evs))).

(** An open or a write goes to one of the given paths. *)
Definition writes_within (paths : list string) (e : Event) : Prop :=
  match e with
  | EvOpen path _ | EvWrite path _ _ => path ∈ paths
  | _ => True
  end.

(** How a walked file entry ended up: exported with its bytes, skipped
    with a notice, or reported with an error line. *)
Definition file_outcome (volume : Volume) (partition : Partition)
    (evs : list Event) (w' : World) (entry : string * FileInfo) : Prop :=
  host_files w' !! fst entry = Some (file_bytes volume partition (snd entry))
  \/ In (EvNotice (fst entry)) evs
  \/ In (EvError (fst entry)) evs.

(** The event of reading the [u32] field at address [a]. *)
Definition field_read (volume : Volume) (partition : Partition) (a : Z) : Event :=
  EvRead partition a 4 (vol_readable volume partition a 4).

(** Both fields of the descriptor can be read. *)
Definition descriptor_readable (volume : Volume) (partition : Partition)
    (field : Z * Z) : bool :=
  vol_readable volume partition (wrap64 (fst field)) 4
  && vol_readable volume partition (wrap64 (snd field)) 4.

(** The descriptors up to and including the first one that cannot be
    read. *)
Fixpoint visited_descriptors (volume : Volume) (partition : Partition)
    (fields : list (Z * Z)) : list (Z * Z) :=
  match fields with
  | [] => []
  | field :: rest =>
      field :: (if descriptor_readable volume partition field
                then visited_descriptors volume partition rest else [])
  end.

(** The reads of both fields of each of the descriptors, in order,
    whether they succeed or not. *)
Definition field_reads (volume : Volume) (partition : Partition)
    (fields : list (Z * Z)) : list Event :=
  concat (map (fun field =>
                 [field_read volume partition (wrap64 (fst field));
                  field_read volume partition (wrap64 (snd field))])
              fields).

(** *** Sample inputs *)

Module Sample.

(** A byte for each address: its low eight bits. *)
Definition byte_of_Z (z : Z) : u8 :=
  match Byte.of_N (Z.to_N (z mod 256)) with
  | Some b => b
  | None => Byte.x00
  end.

(** A disc whose byte at address [a] is [a mod 256]. *)
Definition ramp (volume_type : Platform) : Volume :=
  {| GetVolumeType := volume_type;
     vol_readable := fun _ _ _ => true;
     vol_byte := fun _ a => byte_of_Z a |}.

(** A disc holding the given big-endian [u32] fields, zero elsewhere. *)
Fixpoint field_byte (fields : list (Z * Z)) (a : Z) : u8 :=
  match fields with
  | [] => Byte.x00
  | (base, v) :: rest =>
      if (base <=? a) && (a <? base + 4)
      then byte_of_Z (Z.shiftr v (8 * (3 - (a - base))))
      else field_byte rest a
  end.

Definition disc_with (volume_type : Platform) (fields : list (Z * Z)) : Volume :=
  {| GetVolumeType := volume_type;
     vol_readable := fun _ _ _ => true;
     vol_byte := fun _ a => field_byte fields a |}.

Definition friendly_host : HostIO :=
  {| open_ok := fun _ _ => true; write_ok := fun _ _ _ => true |}.

Definition empty_world : World := mkWorld ∅ ∅ [].

Definition file_a : FileInfo := MkFileInfo "a.bin" 16 5 false [].
Definition file_b : FileInfo := MkFileInfo "b.bin" 32 3 false [].
Definition dir_sub : FileInfo := MkFileInfo "sub" 0 0 true [file_b].
Definition root : FileInfo := MkFileInfo "" 0 0 true [dir_sub; file_a].

Definition never_cancel : Callback := fun _ _ => false.

(** Answers true for one path only. *)
Definition cancel_at (p : string) : Callback := fun _ q => bool_decide (p = q).

(** A host on which files open and every write fails. *)
Definition full_disk_host : HostIO :=
  {| open_ok := fun _ _ => true; write_ok := fun _ _ _ => false |}.

(** A host on which files open and only the first write goes through. *)
Definition one_write_host : HostIO :=
  {| open_ok := fun _ _ => true;
     write_ok := fun t _ _ =>
       forallb (fun e => match e with EvWrite _ _ _ => false | _ => true end) t |}.

(** A disc that cannot be read. *)
Definition unreadable (volume_type : Platform) : Volume :=
  {| GetVolumeType := volume_type;
     vol_readable := fun _ _ _ => false;
     vol_byte := fun _ a => byte_of_Z a |}.

(** A GameCube disc with a 24-byte boot executable at 0x100 whose
    apploader size field cannot be read. *)
Definition disc_without_apploader : Volume :=
  {| GetVolumeType := GAMECUBE_DISC;
     vol_readable := fun _ offset _ => negb (offset =? 0x2440 + 0x14);
     vol_byte := fun _ a =>
       field_byte [(0x420, 0x100); (0x100, 0x10); (0x190, 0x8)] a |}.

(** Answers true for one path, and from then on. *)
Definition cancel_from (p : string) : Callback :=
  fun t q => existsb is_cancel t || bool_decide (p = q).

(** Answers true for one path, once. *)
Definition cancel_once (p : string) : Callback :=
  fun t q => negb (existsb is_cancel t) && bool_decide (p = q).

(** A host on which the first open fails and everything after it goes
    through. *)
Definition slow_start_host : HostIO :=
  {| open_ok := fun t _ =>
       existsb (fun e => match e with EvOpen _ _ => true | _ => false end) t;
     write_ok := fun _ _ _ => true |}.

End Sample.

(** ** Properties *)

(** *** Integers and volume bytes *)

Lemma wrap64_small z : is_u64 z -> wrap64 z = z.
Proof. intros H. apply Z.mod_small. exact H. Qed.

Lemma wrap32_small z : is_u32 z -> wrap32 z = z.
Proof. intros H. apply Z.mod_small. exact H. Qed.

Lemma wrap32_range z : is_u32 (wrap32 z).
Proof. apply Z.mod_pos_bound. lia. Qed.

Lemma wrap64_range z : is_u64 (wrap64 z).
Proof. apply Z.mod_pos_bound. lia. Qed.

Lemma wrap64_idemp z : wrap64 (wrap64 z) = wrap64 z.
Proof. unfold wrap64. apply Z.mod_mod. lia. Qed.

Lemma wrap64_add_l a b : wrap64 (wrap64 a + b) = wrap64 (a + b).
Proof. unfold wrap64. apply Zplus_mod_idemp_l. Qed.

Lemma vol_bytes_length volume partition a n :
  length (vol_bytes volume partition a n) = n.
Proof. revert a. induction n as [|n IH]; intros a; simpl; [reflexivity|]. now rewrite IH. Qed.

Lemma vol_bytes_wrap volume partition n : forall a,
  vol_bytes volume partition (wrap64 a) n = vol_bytes volume partition a n.
Proof.
  induction n as [|n IH]; intros a; simpl; [reflexivity|].
  rewrite wrap64_idemp. f_equal.
  rewrite <- (IH (wrap64 a + 1)), <- (IH (a + 1)).
  now rewrite wrap64_add_l.
Qed.

Lemma vol_bytes_app volume partition n m : forall a,
  vol_bytes volume partition a (n + m)
  = vol_bytes volume partition a n ++ vol_bytes volume partition (a + Z.of_nat n) m.
Proof.
  induction n as [|n IH]; intros a.
  - simpl. now rewrite Z.add_0_r.
  - cbn [Nat.add vol_bytes app]. f_equal. rewrite IH. do 2 f_equal. lia.
Qed.

Lemma vol_bytes_lookup volume partition n : forall a (k : nat),
  (k < n)%nat ->
  vol_bytes volume partition a n !! k
  = Some (vol_byte volume partition (wrap64 (a + Z.of_nat k))).
Proof.
  induction n as [|n IH]; intros a k Hk; [lia|].
  destruct k as [|k]; simpl.
  - now rewrite Z.add_0_r.
  - rewrite IH by lia. do 3 f_equal. lia.
Qed.

Lemma u8_to_Z_range b : 0 <= u8_to_Z b < 2^8.
Proof.
  unfold u8_to_Z. pose proof (Byte.to_N_bounded b) as H.
  change (2^8) with 256. lia.
Qed.

Lemma lor_below n a b :
  0 <= n -> 0 <= a < 2^n -> 0 <= b < 2^n -> 0 <= Z.lor a b < 2^n.
Proof.
  intros Hn Ha Hb.
  destruct (Z.eq_dec a 0) as [->|Na]; [now rewrite Z.lor_0_l|].
  destruct (Z.eq_dec b 0) as [->|Nb]; [now rewrite Z.lor_0_r|].
  assert (0 <= Z.lor a b) by (apply Z.lor_nonneg; lia).
  split; [assumption|].
  assert (Z.log2 a < n) by (apply Z.log2_lt_pow2; lia).
  assert (Z.log2 b < n) by (apply Z.log2_lt_pow2; lia).
  destruct (Z.eq_dec (Z.lor a b) 0) as [E|E]; [rewrite E; lia|].
  apply Z.log2_lt_pow2; [lia|].
  rewrite Z.log2_lor by lia. lia.
Qed.

Lemma shiftl_below a k n :
  0 <= k -> 0 <= n -> 0 <= a < 2^n -> 0 <= Z.shiftl a k < 2^(n + k).
Proof.
  intros Hk Hn Ha. rewrite Z.shiftl_mul_pow2 by lia. rewrite Z.pow_add_r by lia.
  assert (0 < 2^k) by (apply Z.pow_pos_nonneg; lia). nia.
Qed.

Lemma be32_range b0 b1 b2 b3 : is_u32 (be32 b0 b1 b2 b3).
Proof.
  unfold is_u32, be32.
  pose proof (u8_to_Z_range b0). pose proof (u8_to_Z_range b1).
  pose proof (u8_to_Z_range b2). pose proof (u8_to_Z_range b3).
  pose proof (shiftl_below (u8_to_Z b0) 24 8). pose proof (shiftl_below (u8_to_Z b1) 16 8).
  pose proof (shiftl_below (u8_to_Z b2) 8 8).
  change (2^(8+24)) with (2^32) in *. change (2^(8+16)) with (2^24) in *.
  change (2^(8+8)) with (2^16) in *.
  assert (2^8 < 2^32 /\ 2^16 < 2^32 /\ 2^24 < 2^32) by (cbv; intuition congruence).
  repeat apply lor_below; lia.
Qed.

(** *** Traces *)

Lemma new_events_spec w w' evs : trace w' = trace w ++ evs -> new_events w w' = evs.
Proof. intros H. unfold new_events. rewrite H. apply drop_app_length. Qed.

(** *** Typed reads *)

Lemma ReadSwapped_u32_eq volume offset partition w :
  ReadSwapped_u32 volume offset partition w
  = (read_u32 volume partition offset,
     emit (EvRead partition offset 4 (vol_readable volume partition offset 4)) w).
Proof.
  unfold ReadSwapped_u32, Volume_Read, read_u32.
  destruct (vol_readable volume partition offset 4); [|reflexivity].
  change (Z.to_nat 4) with 4%nat. cbn [vol_bytes app].
  replace (offset + 1 + 1) with (offset + 2) by lia.
  replace (offset + 2 + 1) with (offset + 3) by lia.
  reflexivity.
Qed.

Lemma read_u32_range volume partition a v :
  read_u32 volume partition a = Some v -> is_u32 v.
Proof.
  unfold read_u32. destruct (vol_readable volume partition a 4); [|discriminate].
  intros [= <-]. apply be32_range.
Qed.

(** *** Boot executable offset *)

(** C8. [GetBootDOLOffset] yields nothing on a medium that is not a disc
    (and reads nothing), and nothing when the four-byte read at 0x420
    fails; on a Wii disc a raw field value [v] resolves to [v << 2]
    (that is, [4 * v]), on any other disc to [v] itself. *)
Theorem GetBootDOLOffset_spec volume partition w :
  (IsDisc (GetVolumeType volume) = false ->
     GetBootDOLOffset volume partition w = (None, w)) /\
  (IsDisc (GetVolumeType volume) = true ->
     new_events w (snd (GetBootDOLOffset volume partition w))
       = [EvRead partition 0x420 4 (vol_readable volume partition 0x420 4)] /\
     (vol_readable volume partition 0x420 4 = false ->
        fst (GetBootDOLOffset volume partition w) = None) /\
     (forall v, read_u32 volume partition 0x420 = Some v ->
        (GetVolumeType volume = WII_DISC ->
           fst (GetBootDOLOffset volume partition w) = Some (Z.shiftl v 2)
           /\ Z.shiftl v 2 = 4 * v) /\
        (GetVolumeType volume <> WII_DISC ->
           fst (GetBootDOLOffset volume partition w) = Some v))).
Proof.
  unfold GetBootDOLOffset. split.
  - intros ->. reflexivity.
  - intros ->. cbn [negb]. rewrite ReadSwapped_u32_eq. cbn [fst snd].
    split; [|split].
    + unfold new_events, emit. cbn [trace]. now rewrite drop_app_length.
    + intros Hr. unfold read_u32. now rewrite Hr.
    + intros v Hv. rewrite Hv. pose proof (read_u32_range _ _ _ _ Hv) as Hrange.
      unfold is_u32 in Hrange. split.
      * intros ->. cbn [Platform_eqb]. rewrite Z.shiftl_mul_pow2 by lia.
        change (2^2) with 4. rewrite wrap64_small by (unfold is_u64; lia).
        split; [reflexivity|lia].
      * intros Hne. destruct (GetVolumeType volume); try congruence;
          cbn [Platform_eqb]; rewrite Z.shiftl_0_r, wrap64_small;
          unfold is_u64; try reflexivity; lia.
Qed.

Lemma GetBootDOLOffset_spec_witness :
  fst (GetBootDOLOffset (Sample.disc_with WII_DISC [(0x420, 0x1234)]) 0
         Sample.empty_world) = Some (Z.shiftl 0x1234 2)
  /\ fst (GetBootDOLOffset (Sample.disc_with GAMECUBE_DISC [(0x420, 0x1234)]) 0
            Sample.empty_world) = Some 0x1234.
Proof.
  split.
  - exact (proj1 (proj1 (proj2 (proj2 (proj2 (GetBootDOLOffset_spec
             (Sample.disc_with WII_DISC [(0x420, 0x1234)]) 0 Sample.empty_world)
             eq_refl)) 0x1234 eq_refl) eq_refl)).
  - refine (proj2 (proj2 (proj2 (proj2 (GetBootDOLOffset_spec
             (Sample.disc_with GAMECUBE_DISC [(0x420, 0x1234)]) 0 Sample.empty_world)
             eq_refl)) 0x1234 eq_refl) _).
    discriminate.
Defined.

(** *** File reader *)

(** C3. [ReadFile] returns 0 for an absent entry, for a directory, and
    for a starting offset at or past the size, whatever the capacity; for
    a file and an offset inside it the length asked of the volume is
    [min(capacity, size - offset)] at address [disc offset + offset]:
    if that read fails the result is 0, otherwise it is that length and
    the buffer starts with the volume's bytes at those addresses. *)
Theorem ReadFile_characterized volume partition file_info buffer
    max_buffer_size offset_in_file w :
  is_u64 offset_in_file ->
  (forall fi, file_info = Some fi -> is_u64 (GetSize fi)) ->
  let result :=
    ReadFile volume partition file_info buffer max_buffer_size offset_in_file w in
  let returned := fst (fst result) in
  let buffer' := snd (fst result) in
  (file_info = None -> returned = 0) /\
  (forall fi, file_info = Some fi -> IsDirectory fi = true -> returned = 0) /\
  (forall fi, file_info = Some fi -> GetSize fi <= offset_in_file -> returned = 0) /\
  (forall fi, file_info = Some fi -> IsDirectory fi = false ->
     offset_in_file < GetSize fi ->
     let read_length := Z.min max_buffer_size (GetSize fi - offset_in_file) in
     let address := wrap64 (GetOffset fi + offset_in_file) in
     (is_u64 (GetOffset fi) -> GetOffset fi + GetSize fi <= 2^64 ->
        address = GetOffset fi + offset_in_file) /\
     (vol_readable volume partition address read_length = false -> returned = 0) /\
     (vol_readable volume partition address read_length = true ->
        returned = read_length /\
        take (Z.to_nat returned) buffer'
          = vol_bytes volume partition (GetOffset fi + offset_in_file)
              (Z.to_nat returned) /\
        forall k : nat, Z.of_nat k < returned ->
          buffer' !! k
          = Some (vol_byte volume partition
                    (wrap64 (GetOffset fi + offset_in_file + Z.of_nat k))))).
Proof.
  intros Ho Hsize. cbv zeta. unfold ReadFile. split; [|split; [|split]].
  - intros ->. reflexivity.
  - intros fi -> Hd. now rewrite Hd.
  - intros fi -> Hle. destruct (IsDirectory fi); cbn [orb]; [reflexivity|].
    destruct (Z.leb_spec (GetSize fi) offset_in_file); [reflexivity|lia].
  - intros fi -> Hd Hlt. rewrite Hd. cbn [orb].
    destruct (Z.leb_spec (GetSize fi) offset_in_file); [lia|].
    specialize (Hsize fi eq_refl).
    rewrite (wrap64_small (GetSize fi - offset_in_file)) by (unfold is_u64 in *; lia).
    unfold Volume_Read. split; [|split].
    + intros Hoff Hfit. apply wrap64_small. unfold is_u64 in *. lia.
    + intros ->. reflexivity.
    + intros ->. cbn [fst snd]. rewrite vol_bytes_wrap. split; [reflexivity|]. split.
      * apply take_app_length'. now rewrite vol_bytes_length.
      * intros k Hk. rewrite lookup_app_l by (rewrite vol_bytes_length; lia).
        apply vol_bytes_lookup. lia.
Qed.

Lemma ReadFile_characterized_witness :
  fst (fst (ReadFile (Sample.ramp GAMECUBE_DISC) 0 (Some Sample.file_a)
              [Byte.xff; Byte.xff; Byte.xff; Byte.xff] 3 1 Sample.empty_world))
  = Z.min 3 (5 - 1).
Proof.
  destruct (ReadFile_characterized (Sample.ramp GAMECUBE_DISC) 0
              (Some Sample.file_a) [Byte.xff; Byte.xff; Byte.xff; Byte.xff] 3 1
              Sample.empty_world) as (_ & _ & _ & H).
  - unfold is_u64. lia.
  - intros fi [= <-]. unfold is_u64. simpl. lia.
  - destruct (H Sample.file_a eq_refl eq_refl) as (_ & _ & H3); [simpl; lia|].
    exact (proj1 (H3 eq_refl)).
Defined.

(** *** Boot executable size *)

Lemma max_extent_nonneg plus segs : 0 <= max_extent plus segs.
Proof. induction segs as [|seg segs IH]; simpl; lia. Qed.

Lemma max_extent_app plus segs1 segs2 :
  max_extent plus (segs1 ++ segs2)
  = Z.max (max_extent plus segs1) (max_extent plus segs2).
Proof.
  induction segs1 as [|seg segs1 IH]; simpl.
  - pose proof (max_extent_nonneg plus segs2). lia.
  - rewrite IH. lia.
Qed.

Lemma read_descriptors_app volume partition fields1 fields2 :
  read_descriptors volume partition (fields1 ++ fields2)
  = match read_descriptors volume partition fields1,
          read_descriptors volume partition fields2 with
    | Some segs1, Some segs2 => Some (segs1 ++ segs2)
    | _, _ => None
    end.
Proof.
  induction fields1 as [|[offset_field size_field] fields1 IH]; simpl.
  - now destruct (read_descriptors volume partition fields2).
  - rewrite IH.
    destruct (read_u32 volume partition (wrap64 offset_field)); [|reflexivity].
    destruct (read_u32 volume partition (wrap64 size_field)); [|reflexivity].
    destruct (read_descriptors volume partition fields1); [|reflexivity].
    now destruct (read_descriptors volume partition fields2).
Qed.

Lemma read_descriptors_range volume partition fields : forall segs,
  read_descriptors volume partition fields = Some segs ->
  Forall (fun seg => is_u32 (fst seg) /\ is_u32 (snd seg)) segs.
Proof.
  induction fields as [|[offset_field size_field] fields IH]; simpl; intros segs.
  - intros [= <-]. constructor.
  - destruct (read_u32 volume partition (wrap64 offset_field)) as [o|] eqn:Eo;
      [|discriminate].
    destruct (read_u32 volume partition (wrap64 size_field)) as [s|] eqn:Es;
      [|discriminate].
    destruct (read_descriptors volume partition fields) as [segs'|]; [|discriminate].
    intros [= <-]. constructor; [|now apply IH].
    split; eapply read_u32_range; eassumption.
Qed.

Lemma max_extent_no_wrap segs :
  Forall (fun seg => is_u32 (fst seg) /\ is_u32 (snd seg)) segs ->
  Forall (fun seg => fst seg + snd seg < 2^32) segs ->
  max_extent add_u32 segs = max_extent Z.add segs.
Proof.
  induction 1 as [|seg segs [Ho Hs] _ IH]; intros Hfit; [reflexivity|].
  inversion Hfit as [|? ? Hseg Hrest]; subst. simpl. rewrite IH by assumption.
  unfold add_u32. rewrite wrap32_small; [reflexivity|].
  unfold is_u32 in *. lia.
Qed.

(** One loop of [GetBootDOLSize] computes what the descriptors it visits
    say. *)
Lemma dol_segments_fst volume partition dol_offset offset_table size_table :
  forall count i dol_size w,
  0 <= dol_size ->
  fst (dol_segments volume partition dol_offset offset_table size_table
         count i dol_size w)
  = match read_descriptors volume partition
            (map (fun j => (dol_offset + offset_table + 4 * j,
                            dol_offset + size_table + 4 * j))
                 (seqZ i (Z.of_nat count))) with
    | Some segs => Some (Z.max dol_size (max_extent add_u32 segs))
    | None => None
    end.
Proof.
  induction count as [|count IH]; intros i dol_size w Hpos.
  - cbn [dol_segments Z.of_nat seqZ map read_descriptors fst].
    f_equal. change (max_extent add_u32 []) with 0. lia.
  - rewrite seqZ_cons by lia. cbn [dol_segments map read_descriptors].
    rewrite !ReadSwapped_u32_eq.
    replace (Z.pred (Z.of_nat (S count))) with (Z.of_nat count) by lia.
    replace (4 * i) with (i * 4) by lia.
    destruct (read_u32 volume partition (wrap64 (dol_offset + offset_table + i * 4)))
      as [o|]; [|reflexivity].
    destruct (read_u32 volume partition (wrap64 (dol_offset + size_table + i * 4)))
      as [s|]; [|reflexivity].
    rewrite IH by lia. replace (i + 1) with (Z.succ i) by lia.
    destruct (read_descriptors volume partition _) as [segs|]; [|reflexivity].
    f_equal. cbn [max_extent foldr fst snd]. fold (max_extent add_u32 segs).
    unfold add_u32. lia.
Qed.

Lemma read_u32_readable volume partition a v :
  read_u32 volume partition a = Some v -> vol_readable volume partition a 4 = true.
Proof.
  unfold read_u32. now destruct (vol_readable volume partition a 4).
Qed.

(** When every field can be read, one loop of [GetBootDOLSize] reads the
    fields of its descriptors in order and nothing else. *)
Lemma dol_segments_trace volume partition dol_offset offset_table size_table :
  forall count i dol_size w,
  is_Some (read_descriptors volume partition
             (map (fun j => (dol_offset + offset_table + 4 * j,
                             dol_offset + size_table + 4 * j))
                  (seqZ i (Z.of_nat count)))) ->
  trace (snd (dol_segments volume partition dol_offset offset_table size_table
                count i dol_size w))
  = trace w
    ++ descriptor_reads partition
         (map (fun j => (dol_offset + offset_table + 4 * j,
                         dol_offset + size_table + 4 * j))
              (seqZ i (Z.of_nat count))).
Proof.
  induction count as [|count IH]; intros i dol_size w.
  - intros _. cbn. now rewrite app_nil_r.
  - rewrite seqZ_cons by lia. cbn [dol_segments map read_descriptors].
    rewrite !ReadSwapped_u32_eq.
    replace (Z.pred (Z.of_nat (S count))) with (Z.of_nat count) by lia.
    replace (4 * i) with (i * 4) by lia.
    destruct (read_u32 volume partition (wrap64 (dol_offset + offset_table + i * 4)))
      as [o|] eqn:Eo; [|intros [? [=]]].
    destruct (read_u32 volume partition (wrap64 (dol_offset + size_table + i * 4)))
      as [s|] eqn:Es; [|intros [? [=]]].
    intros Hrest. rewrite IH.
    + unfold descriptor_reads. cbn [map concat fst snd emit trace].
      rewrite (read_u32_readable _ _ _ _ Eo), (read_u32_readable _ _ _ _ Es).
      replace (i + 1) with (Z.succ i) by lia.
      now rewrite <- !app_assoc.
    + replace (i + 1) with (Z.succ i) by lia.
      destruct (read_descriptors volume partition _); [eauto|].
      now destruct Hrest.
Qed.

Lemma GetBootDOLSize_trace volume partition dol_offset w :
  IsDisc (GetVolumeType volume) = true ->
  is_Some (read_descriptors volume partition (dol_descriptor_fields dol_offset)) ->
  new_events w (snd (GetBootDOLSize volume partition dol_offset w))
  = descriptor_reads partition (dol_descriptor_fields dol_offset).
Proof.
  intros Hdisc Hall. apply new_events_spec.
  unfold GetBootDOLSize. rewrite Hdisc. cbn [negb].
  unfold dol_descriptor_fields in *. rewrite read_descriptors_app in Hall.
  pose proof (dol_segments_fst volume partition dol_offset 0 144 7 0 0 w) as Hfst.
  pose proof (dol_segments_trace volume partition dol_offset 0 144 7 0 0 w) as Ht1.
  change (Z.of_nat 7) with 7 in *.
  destruct (read_descriptors volume partition
              (map (fun j => (dol_offset + 0 + 4 * j, dol_offset + 144 + 4 * j))
                   (seqZ 0 7))) as [segs1|]; [|now destruct Hall].
  specialize (Hfst ltac:(lia)). specialize (Ht1 ltac:(eauto)).
  destruct (dol_segments volume partition dol_offset 0 144 7 0 0 w) as [[ds|] w1];
    cbn [fst snd] in *; [|discriminate].
  pose proof (dol_segments_trace volume partition dol_offset 28 172 11 0 ds w1) as Ht2.
  change (Z.of_nat 11) with 11 in *.
  destruct (read_descriptors volume partition
              (map (fun j => (dol_offset + 28 + 4 * j, dol_offset + 172 + 4 * j))
                   (seqZ 0 11))) as [segs2|]; [|now destruct Hall].
  rewrite Ht2 by eauto. rewrite Ht1. unfold descriptor_reads.
  now rewrite map_app, concat_app, app_assoc.
Qed.

Lemma GetBootDOLSize_fst volume partition dol_offset w :
  IsDisc (GetVolumeType volume) = true ->
  fst (GetBootDOLSize volume partition dol_offset w)
  = match read_descriptors volume partition (dol_descriptor_fields dol_offset) with
    | Some segs => Some (max_extent add_u32 segs)
    | None => None
    end.
Proof.
  intros Hdisc. unfold GetBootDOLSize. rewrite Hdisc. cbn [negb].
  unfold dol_descriptor_fields. rewrite read_descriptors_app.
  destruct (dol_segments volume partition dol_offset 0 144 7 0 0 w) as [r w1] eqn:E.
  apply (f_equal fst) in E. rewrite dol_segments_fst in E by lia. cbn [fst] in E.
  change (Z.of_nat 7) with 7 in E.
  destruct (read_descriptors volume partition
              (map (fun j => (dol_offset + 0 + 4 * j, dol_offset + 144 + 4 * j))
                   (seqZ 0 7))) as [segs1|]; subst r; [|reflexivity].
  pose proof (max_extent_nonneg add_u32 segs1).
  rewrite dol_segments_fst by lia. change (Z.of_nat 11) with 11.
  destruct (read_descriptors volume partition
              (map (fun j => (dol_offset + 28 + 4 * j, dol_offset + 172 + 4 * j))
                   (seqZ 0 11))) as [segs2|]; [|reflexivity].
  rewrite max_extent_app. f_equal. lia.
Qed.

(** C1 (as amended). [GetBootDOLSize] yields nothing, reading nothing, on
    a medium that is not a disc, and nothing if a field of one of the 18
    descriptors cannot be read; otherwise its reads are those of the 36
    fields, descriptor by descriptor, and it yields the maximum over the
    18 descriptors of offset + size computed in 32 bits (modulo 2^32),
    a descriptor of zeros contributing 0; whenever no sum exceeds
    0xFFFFFFFF, that is the maximum of offset + size. *)
Theorem GetBootDOLSize_spec volume partition dol_offset w :
  length (dol_descriptor_fields dol_offset) = 18%nat /\
  (IsDisc (GetVolumeType volume) = false ->
     GetBootDOLSize volume partition dol_offset w = (None, w)) /\
  (IsDisc (GetVolumeType volume) = true ->
     (read_descriptors volume partition (dol_descriptor_fields dol_offset) = None ->
        fst (GetBootDOLSize volume partition dol_offset w) = None) /\
     (forall segs,
        read_descriptors volume partition (dol_descriptor_fields dol_offset)
          = Some segs ->
        new_events w (snd (GetBootDOLSize volume partition dol_offset w))
          = descriptor_reads partition (dol_descriptor_fields dol_offset) /\
        fst (GetBootDOLSize volume partition dol_offset w)
          = Some (max_extent add_u32 segs) /\
        (Forall (fun seg => fst seg + snd seg < 2^32) segs ->
           fst (GetBootDOLSize volume partition dol_offset w)
             = Some (max_extent Z.add segs)))).
Proof.
  split; [reflexivity|].
  split; [intros Hdisc; unfold GetBootDOLSize; now rewrite Hdisc|].
  intros Hdisc. rewrite GetBootDOLSize_fst by assumption. split.
  - intros ->. reflexivity.
  - intros segs Hsegs.
    split; [apply GetBootDOLSize_trace; [assumption|rewrite Hsegs; eauto]|].
    rewrite Hsegs. split; [reflexivity|].
    intros Hfit. f_equal. apply max_extent_no_wrap; [|assumption].
    eapply read_descriptors_range; eassumption.
Qed.

Lemma GetBootDOLSize_spec_witness :
  fst (GetBootDOLSize (Sample.disc_with WII_DISC [(0x1008, 0x100); (0x1098, 0x50)])
         0 0x1000 Sample.empty_world) = Some 0x150.
Proof.
  destruct (GetBootDOLSize_spec
              (Sample.disc_with WII_DISC [(0x1008, 0x100); (0x1098, 0x50)])
              0 0x1000 Sample.empty_world) as (_ & _ & H).
  destruct (H eq_refl) as [_ H'].
  destruct (H' _ eq_refl) as (_ & _ & H'').
  apply H''. repeat constructor.
Defined.

(** C1, as stated, fails where a descriptor's offset + size does not fit
    in 32 bits: with offset 0xFFFFFFFF and size 2 in the first code
    descriptor and zeros elsewhere the maximum of offset + size is
    0x100000001, and [GetBootDOLSize] yields 1. *)
Lemma GetBootDOLSize_sum_wraps :
  let volume := Sample.disc_with GAMECUBE_DISC [(0, 0xFFFFFFFF); (0x90, 2)] in
  exists segs,
    read_descriptors volume 0 (dol_descriptor_fields 0) = Some segs /\
    max_extent Z.add segs = 0x100000001 /\
    fst (GetBootDOLSize volume 0 0 Sample.empty_world) = Some 1 /\
    fst (GetBootDOLSize volume 0 0 Sample.empty_world)
      <> Some (max_extent Z.add segs).
Proof.
  eexists. split; [vm_compute; reflexivity|].
  split; [vm_compute; reflexivity|].
  split; [vm_compute; reflexivity|].
  vm_compute. discriminate.
Qed.

(** *** Bulk data exporter *)

Lemma vol_bytes_congr volume partition n a b :
  wrap64 a = wrap64 b ->
  vol_bytes volume partition a n = vol_bytes volume partition b n.
Proof. intros H. now rewrite <- (vol_bytes_wrap _ _ _ a), H, vol_bytes_wrap. Qed.

Lemma chunk_events_congr volume partition f sizes : forall a b,
  wrap64 a = wrap64 b ->
  chunk_events volume partition f a sizes = chunk_events volume partition f b sizes.
Proof.
  induction sizes as [|n sizes IH]; intros a b H; [reflexivity|].
  cbn [chunk_events]. rewrite H, (vol_bytes_congr _ _ _ a b H). do 2 f_equal.
  apply IH. now rewrite <- wrap64_add_l, H, wrap64_add_l.
Qed.

Lemma chunk_events_app volume partition f sizes1 sizes2 : forall a,
  chunk_events volume partition f a (sizes1 ++ sizes2)
  = chunk_events volume partition f a sizes1
    ++ chunk_events volume partition f (a + foldr Z.add 0 sizes1) sizes2.
Proof.
  induction sizes1 as [|n sizes1 IH]; intros a; cbn [app chunk_events foldr].
  - now rewrite Z.add_0_r.
  - rewrite IH. do 3 f_equal. f_equal. lia.
Qed.

Lemma chunk_sizes_zero limit : 0 < limit -> chunk_sizes limit 0 = [].
Proof. intros H. unfold chunk_sizes. rewrite Z.div_0_l, Z.mod_0_l by lia. reflexivity. Qed.

Lemma chunk_sizes_step limit size :
  0 < limit -> 0 < size ->
  chunk_sizes limit size
  = Z.min size limit :: chunk_sizes limit (size - Z.min size limit).
Proof.
  intros Hl Hs. unfold chunk_sizes.
  destruct (Z.lt_ge_cases size limit) as [Hlt|Hge].
  - rewrite Z.min_l by lia. rewrite Z.sub_diag, Z.div_0_l, Z.mod_0_l by lia.
    rewrite Z.div_small, Z.mod_small by lia.
    destruct (Z.eqb_spec size 0); [lia|reflexivity].
  - rewrite Z.min_r by lia.
    assert (size / limit = (size - limit) / limit + 1) as ->.
    { replace size with ((size - limit) + 1 * limit) at 1 by lia.
      apply Z.div_add. lia. }
    assert (size mod limit = (size - limit) mod limit) as ->.
    { replace size with ((size - limit) + 1 * limit) at 1 by lia.
      apply Z.mod_add. lia. }
    assert (0 <= (size - limit) / limit) by (apply Z.div_pos; lia).
    replace (Z.to_nat ((size - limit) / limit + 1))
      with (S (Z.to_nat ((size - limit) / limit))) by lia.
    reflexivity.
Qed.

Lemma ExportData_loop_done io limit volume partition f offset size w :
  size <= 0 ->
  ExportData_loop io limit volume partition f offset size w = (true, w).
Proof.
  intros H. rewrite ExportData_loop_equation_1.
  destruct (decide (0 < size)); [lia|reflexivity].
Qed.

(** One turn of the loop, with the read and the write spelled out. *)
Lemma ExportData_loop_step io limit volume partition f offset size w :
  0 < size ->
  let n := Z.min size (Z.pos limit) in
  let data := vol_bytes volume partition offset (Z.to_nat n) in
  let t1 ok := trace w ++ [EvRead partition offset n ok] in
  ExportData_loop io limit volume partition f offset size w
  = if vol_readable volume partition offset n then
      if write_ok io (t1 true) f data then
        ExportData_loop io limit volume partition f
          (wrap64 (offset + n)) (wrap64 (size - n))
          (mkWorld (<[f := default [] (host_files w !! f) ++ data]> (host_files w))
                   (host_dirs w) (t1 true ++ [EvWrite f data true]))
      else (false, mkWorld (host_files w) (host_dirs w)
                     (t1 true ++ [EvWrite f data false]))
    else (false, mkWorld (host_files w) (host_dirs w) (t1 false)).
Proof.
  intros H n data t1. subst n data t1. cbn beta.
  rewrite ExportData_loop_equation_1.
  destruct (decide (0 < size)); [|lia].
  cbn [ExportData_loop_unfold_clause_1].
  unfold Volume_Read.
  destruct (vol_readable volume partition offset _); cbn; [|reflexivity].
  rewrite !take_app_length' by (now rewrite vol_bytes_length).
  destruct (write_ok io _ f _); reflexivity.
Qed.

Lemma vol_bytes_split volume partition a n k :
  0 <= n -> 0 <= k ->
  vol_bytes volume partition a (Z.to_nat (n + k))
  = vol_bytes volume partition a (Z.to_nat n)
    ++ vol_bytes volume partition (a + n) (Z.to_nat k).
Proof.
  intros Hn Hk. rewrite Z2Nat.inj_add by lia. rewrite vol_bytes_app.
  now rewrite Z2Nat.id by lia.
Qed.

(** Every run of the loop, told in full: it either transfers all the
    chunks, or stops at the first chunk that fails, with exactly the
    chunks before it written. *)
Lemma ExportData_loop_run io limit volume partition f (m : nat) :
  forall offset size w c r w',
  (Z.to_nat size <= m)%nat ->
  is_u64 offset -> is_u64 size ->
  host_files w !! f = Some c ->
  ExportData_loop io limit volume partition f offset size w = (r, w') ->
  host_dirs w' = host_dirs w /\
  ((r = true /\
    host_files w'
      = <[f := c ++ vol_bytes volume partition offset (Z.to_nat size)]> (host_files w) /\
    trace w'
      = trace w ++ chunk_events volume partition f offset
                     (chunk_sizes (Z.pos limit) size))
   \/
   (r = false /\ exists (done : nat) (failure : list Event),
      let written := Z.of_nat done * Z.pos limit in
      let before :=
        trace w ++ chunk_events volume partition f offset
                     (replicate done (Z.pos limit)) in
      written < size /\
      host_files w'
        = <[f := c ++ vol_bytes volume partition offset (Z.to_nat written)]>
            (host_files w) /\
      trace w' = before ++ failure /\
      failed_chunk io volume partition f before (wrap64 (offset + written))
        (Z.min (size - written) (Z.pos limit)) failure)).
Proof.
  induction m as [|m IH]; intros offset size w c r w' Hm Hoff Hsize Hc Hrun.
  - assert (size = 0) as -> by (unfold is_u64 in Hsize; lia).
    rewrite ExportData_loop_done in Hrun by lia. injection Hrun as <- <-.
    split; [reflexivity|]. left. split; [reflexivity|].
    rewrite chunk_sizes_zero by lia. cbn [Z.to_nat vol_bytes chunk_events].
    rewrite !app_nil_r. split; [|reflexivity]. symmetry. now apply insert_id.
  - destruct (Z.eq_dec size 0) as [->|Hnz].
    { rewrite ExportData_loop_done in Hrun by lia. injection Hrun as <- <-.
      split; [reflexivity|]. left. split; [reflexivity|].
      rewrite chunk_sizes_zero by lia. cbn [Z.to_nat vol_bytes chunk_events].
      rewrite !app_nil_r. split; [|reflexivity]. symmetry. now apply insert_id. }
    assert (0 < size) as Hpos by (unfold is_u64 in Hsize; lia).
    rewrite ExportData_loop_step in Hrun by assumption. cbv zeta in Hrun.
    set (n := Z.min size (Z.pos limit)) in *.
    set (data := vol_bytes volume partition offset (Z.to_nat n)) in *.
    assert (0 < n <= size) as Hn by (subst n; lia).
    assert (wrap64 offset = offset) as Hwo by now apply wrap64_small.
    destruct (vol_readable volume partition offset n) eqn:Hread.
    + destruct (write_ok io _ f data) eqn:Hwrite.
      * (* the chunk went through: the rest is a shorter run *)
        assert (wrap64 (size - n) = size - n) as Hrest
          by (apply wrap64_small; unfold is_u64 in *; lia).
        rewrite Hrest, Hc in Hrun. change (default [] (Some c)) with c in Hrun.
        eapply (IH _ _ _ (c ++ data)) in Hrun;
          [ | lia | unfold is_u64, wrap64; apply Z.mod_pos_bound; lia
            | unfold is_u64 in *; lia
            | cbn [host_files]; apply lookup_insert_eq ].
        cbn [host_files host_dirs trace] in Hrun.
        destruct Hrun as [Hdirs Hrun]. split; [exact Hdirs|].
        assert (forall sizes,
                  chunk_events volume partition f (wrap64 (offset + n)) sizes
                  = chunk_events volume partition f (offset + n) sizes) as Hce
          by (intros; apply chunk_events_congr, wrap64_idemp).
        assert (forall k,
                  vol_bytes volume partition (wrap64 (offset + n)) k
                  = vol_bytes volume partition (offset + n) k) as Hvb
          by (intros; apply vol_bytes_wrap).
        destruct Hrun as [(-> & Hfiles & Htrace)
                         | (-> & done & failure & Hlt & Hfiles & Htrace & Hfail)];
          rewrite insert_insert_eq in Hfiles.
        -- left. split; [reflexivity|]. split.
           ++ rewrite Hfiles, Hvb, <- app_assoc. do 2 f_equal.
              replace size with (n + (size - n)) at 2 by lia.
              symmetry. apply vol_bytes_split; lia.
           ++ rewrite Htrace, Hce, (chunk_sizes_step (Z.pos limit) size) by lia.
              fold n. cbn [chunk_events]. rewrite Hwo. fold data.
              rewrite <- !app_assoc. reflexivity.
        -- right. split; [reflexivity|].
           assert (n = Z.pos limit) as Hfull by (subst n; lia).
           exists (S done), failure. cbv zeta.
           rewrite Hce, Hvb in *.
           replace (Z.of_nat (S done) * Z.pos limit)
             with (n + Z.of_nat done * Z.pos limit) by lia.
           split; [lia|]. split; [|split].
           ++ rewrite Hfiles, <- app_assoc. do 2 f_equal.
              symmetry. apply vol_bytes_split; lia.
           ++ rewrite Htrace. cbn [replicate chunk_events]. rewrite Hwo, <- Hfull.
              fold data. rewrite <- !app_assoc. reflexivity.
           ++ cbn [replicate chunk_events]. rewrite Hwo. fold data.
              rewrite wrap64_add_l, <- !app_assoc in Hfail. cbn [app] in Hfail.
              rewrite <- Hfull in Hfail |- *.
              replace (offset + (n + Z.of_nat done * n))
                with (offset + n + Z.of_nat done * n) by lia.
              replace (size - (n + Z.of_nat done * n))
                with (size - n - Z.of_nat done * n) by lia.
              exact Hfail.
      * (* the write failed *)
        injection Hrun as <- <-. split; [reflexivity|]. right. split; [reflexivity|].
        exists 0%nat, [EvRead partition offset n true; EvWrite f data false].
        cbn [Z.of_nat replicate chunk_events Z.mul Z.to_nat vol_bytes host_files trace].
        rewrite !app_nil_r, Z.add_0_r, Z.sub_0_r, Hwo. fold n.
        split; [lia|]. split; [symmetry; now apply insert_id|].
        split; [now rewrite <- app_assoc|].
        right. split; [assumption|]. split; [assumption|reflexivity].
    + (* the read failed *)
      injection Hrun as <- <-. split; [reflexivity|]. right. split; [reflexivity|].
      exists 0%nat, [EvRead partition offset n false].
      cbn [Z.of_nat replicate chunk_events Z.mul Z.to_nat vol_bytes host_files trace].
      rewrite !app_nil_r, Z.add_0_r, Z.sub_0_r, Hwo. fold n.
      split; [lia|]. split; [symmetry; now apply insert_id|].
      split; [reflexivity|]. left. split; [assumption|reflexivity].
Qed.

Lemma ExportData_limited_open_failed io limit volume partition offset size f w :
  open_ok io (trace w) f = false ->
  ExportData_limited io limit volume partition offset size f w
  = (false, mkWorld (host_files w) (host_dirs w) (trace w ++ [EvOpen f false])).
Proof. intros H. unfold ExportData_limited, IOFile_open. now rewrite H. Qed.

Lemma ExportData_limited_opened io limit volume partition offset size f w :
  open_ok io (trace w) f = true ->
  ExportData_limited io limit volume partition offset size f w
  = ExportData_loop io limit volume partition f offset size
      (mkWorld (<[f := []]> (host_files w)) (host_dirs w)
               (trace w ++ [EvOpen f true])).
Proof. intros H. unfold ExportData_limited, IOFile_open. now rewrite H. Qed.

(** Every run of [ExportData] that got its file open. *)
Lemma ExportData_limited_run io limit volume partition offset size f w r w' :
  is_u64 offset -> is_u64 size ->
  open_ok io (trace w) f = true ->
  ExportData_limited io limit volume partition offset size f w = (r, w') ->
  host_dirs w' = host_dirs w /\
  ((r = true /\
    host_files w'
      = <[f := vol_bytes volume partition offset (Z.to_nat size)]> (host_files w) /\
    trace w'
      = trace w ++ EvOpen f true
                   :: chunk_events volume partition f offset
                        (chunk_sizes (Z.pos limit) size))
   \/
   (r = false /\ exists (done : nat) (failure : list Event),
      let written := Z.of_nat done * Z.pos limit in
      let before :=
        trace w ++ EvOpen f true
                   :: chunk_events volume partition f offset
                        (replicate done (Z.pos limit)) in
      written < size /\
      host_files w'
        = <[f := vol_bytes volume partition offset (Z.to_nat written)]>
            (host_files w) /\
      trace w' = before ++ failure /\
      failed_chunk io volume partition f before (wrap64 (offset + written))
        (Z.min (size - written) (Z.pos limit)) failure)).
Proof.
  intros Hoff Hsize Hopen Hrun. rewrite ExportData_limited_opened in Hrun by assumption.
  eapply (ExportData_loop_run _ _ _ _ _ _ _ _ _ []) in Hrun;
    [ | reflexivity | assumption | assumption | apply lookup_insert_eq ].
  cbn [host_files host_dirs trace app] in Hrun.
  destruct Hrun as [Hdirs Hrun]. split; [exact Hdirs|].
  destruct Hrun as [(-> & Hfiles & Htrace)
                   | (-> & done & failure & Hlt & Hfiles & Htrace & Hfail)];
    rewrite insert_insert_eq in Hfiles; rewrite <- !app_assoc in Htrace;
    cbn [app] in Htrace.
  - left. auto.
  - right. split; [reflexivity|]. exists done, failure. cbv zeta.
    rewrite <- !app_assoc in Hfail. cbn [app] in Hfail.
    split; [assumption|]. split; [assumption|]. split; [|assumption].
    rewrite <- app_assoc. exact Htrace.
Qed.

Lemma chunk_sizes_bounded limit size :
  0 < limit -> 0 <= size ->
  Forall (fun n => 0 < n <= limit) (chunk_sizes limit size).
Proof.
  intros Hl Hs. unfold chunk_sizes. apply Forall_app. split.
  - apply Forall_replicate. lia.
  - pose proof (Z.mod_pos_bound size limit Hl).
    destruct (Z.eqb_spec (size mod limit) 0); constructor; [lia|constructor].
Qed.

Lemma chunk_sizes_full_but_last limit size (i : nat) n :
  chunk_sizes limit size !! i = Some n ->
  (S i < length (chunk_sizes limit size))%nat ->
  n = limit.
Proof.
  unfold chunk_sizes. intros Hi Hlen.
  rewrite length_app, length_replicate in Hlen.
  assert (i < Z.to_nat (size / limit))%nat as Hlt.
  { destruct (size mod limit =? 0); simpl in Hlen; lia. }
  rewrite lookup_app_l in Hi by (rewrite length_replicate; lia).
  apply lookup_replicate in Hi. tauto.
Qed.

Lemma chunk_sizes_sum limit size :
  0 < limit -> 0 <= size -> foldr Z.add 0 (chunk_sizes limit size) = size.
Proof.
  intros Hl Hs. unfold chunk_sizes. rewrite foldr_app.
  assert (forall (k : nat) base,
            foldr Z.add base (replicate k limit) = Z.of_nat k * limit + base) as Hrep.
  { induction k as [|k IH]; intros base; cbn [replicate foldr]; [lia|].
    rewrite IH. lia. }
  rewrite Hrep. assert (0 <= size / limit) by (apply Z.div_pos; lia).
  rewrite Z2Nat.id by lia. pose proof (Z.div_mod size limit ltac:(lia)).
  destruct (Z.eqb_spec (size mod limit) 0); cbn [foldr]; lia.
Qed.

(** C10. For [size = 0], [ExportData] only opens the destination: it
    returns whether the open succeeded, the open is the only event (no
    volume read, no host write), and after a successful open the file at
    [export_filename] is empty. *)
Theorem ExportData_size_zero io volume partition offset export_filename w :
  let ok := open_ok io (trace w) export_filename in
  let result := ExportData io volume partition offset 0 export_filename w in
  fst result = ok /\
  new_events w (snd result) = [EvOpen export_filename ok] /\
  host_dirs (snd result) = host_dirs w /\
  host_files (snd result)
    = (if ok then <[export_filename := []]> (host_files w) else host_files w) /\
  (ok = true -> host_files (snd result) !! export_filename = Some []).
Proof.
  cbv zeta. unfold ExportData, ExportData_limited, IOFile_open.
  destruct (open_ok io (trace w) export_filename) eqn:Hopen.
  - rewrite ExportData_loop_done by lia. cbn [fst snd host_files host_dirs trace].
    repeat split. + now apply new_events_spec. + intros _. apply lookup_insert_eq.
  - cbn [fst snd host_files host_dirs trace]. repeat split.
    + now apply new_events_spec. + discriminate.
Qed.

Lemma ExportData_size_zero_witness :
  host_files (snd (ExportData Sample.friendly_host (Sample.ramp WII_DISC) 0 7 0
                     "out/empty.bin" Sample.empty_world)) !! "out/empty.bin"
  = Some [].
Proof.
  apply (ExportData_size_zero Sample.friendly_host (Sample.ramp WII_DISC) 0 7
           "out/empty.bin" Sample.empty_world).
  reflexivity.
Defined.

(** C4 (as amended). When the host file opens, every volume read
    succeeds and every host write succeeds, [ExportData] returns success,
    the host file holds exactly the volume's bytes at [offset, offset +
    size) in order (byte [k] of the file is the volume's byte at
    [offset + k]), and nothing else on the host changes; the transfer
    is one read and one write per chunk, the chunks being at most
    0x08000000 bytes, all but the last exactly that, and adding up to
    [size]; whatever the cap on a chunk, a successful transfer leaves the
    same file. *)
Theorem ExportData_transfers_range io volume partition offset size
    export_filename w :
  is_u64 offset -> is_u64 size ->
  open_ok io (trace w) export_filename = true ->
  (forall done : nat,
     Z.of_nat done * 0x08000000 < size ->
     vol_readable volume partition (wrap64 (offset + Z.of_nat done * 0x08000000))
       (Z.min (size - Z.of_nat done * 0x08000000) 0x08000000) = true) ->
  (forall t data, write_ok io t export_filename data = true) ->
  let result := ExportData io volume partition offset size export_filename w in
  let sizes := chunk_sizes 0x08000000 size in
  fst result = true /\
  host_files (snd result)
    = <[export_filename := vol_bytes volume partition offset (Z.to_nat size)]>
        (host_files w) /\
  (offset + size <= 2^64 ->
   forall k : nat, Z.of_nat k < size ->
     vol_bytes volume partition offset (Z.to_nat size) !! k
     = Some (vol_byte volume partition (offset + Z.of_nat k))) /\
  host_dirs (snd result) = host_dirs w /\
  new_events w (snd result)
    = EvOpen export_filename true
      :: chunk_events volume partition export_filename offset sizes /\
  Forall (fun n => 0 < n <= 0x08000000) sizes /\
  (forall (i : nat) n,
     sizes !! i = Some n -> (S i < length sizes)%nat -> n = 0x08000000) /\
  foldr Z.add 0 sizes = size /\
  (forall limit w'',
     ExportData_limited io limit volume partition offset size export_filename w
       = (true, w'') ->
     host_files w'' = host_files (snd result)).
Proof.
  intros Hoff Hsize Hopen Hreads Hwrites. cbv zeta.
  destruct (ExportData io volume partition offset size export_filename w)
    as [r w'] eqn:Hrun.
  cbn [fst snd]. unfold ExportData in Hrun.
  apply ExportData_limited_run in Hrun; try assumption.
  destruct Hrun as [Hdirs [(-> & Hfiles & Htrace)
                          | (-> & done & failure & Hlt & _ & _ & Hfail)]].
  - split; [reflexivity|]. split; [assumption|].
    split.
    { intros Hfit k Hk. rewrite vol_bytes_lookup by lia.
      rewrite wrap64_small; [reflexivity|]. unfold is_u64 in *. lia. }
    split; [assumption|].
    split; [now apply new_events_spec|].
    split; [apply chunk_sizes_bounded; unfold is_u64 in Hsize; lia|].
    split; [apply chunk_sizes_full_but_last|].
    split; [apply chunk_sizes_sum; unfold is_u64 in Hsize; lia|].
    intros limit w'' Hrun'.
    apply ExportData_limited_run in Hrun'; try assumption.
    destruct Hrun' as [_ [(_ & Hfiles' & _) | (Hfalse & _)]]; [|discriminate].
    now rewrite Hfiles, Hfiles'.
  - exfalso. cbv zeta in Hlt, Hfail.
    change (Z.pos read_limit) with 0x08000000 in *.
    destruct Hfail as [[Hbad _] | (_ & Hbad & _)].
    + rewrite Hreads in Hbad by assumption. discriminate.
    + rewrite Hwrites in Hbad. discriminate.
Qed.

Lemma ExportData_transfers_range_witness :
  host_files (snd (ExportData Sample.friendly_host (Sample.ramp WII_DISC) 0 16 5
                     "out/a.bin" Sample.empty_world))
  = <["out/a.bin" := vol_bytes (Sample.ramp WII_DISC) 0 16 (Z.to_nat 5)]> ∅.
Proof.
  apply (ExportData_transfers_range Sample.friendly_host (Sample.ramp WII_DISC) 0
           16 5 "out/a.bin" Sample.empty_world).
  - unfold is_u64. lia.
  - unfold is_u64. lia.
  - reflexivity.
  - intros done _. reflexivity.
  - intros t data. reflexivity.
Defined.

(** C4, as stated, fails when a host write fails: the file opens, the
    one read succeeds, and [ExportData] returns failure, the host file
    being left empty. *)
Lemma ExportData_write_failure_fails :
  open_ok Sample.full_disk_host [] "out/a.bin" = true /\
  vol_readable (Sample.ramp WII_DISC) 0 16 5 = true /\
  new_events Sample.empty_world
    (snd (ExportData Sample.full_disk_host (Sample.ramp WII_DISC) 0 16 5
            "out/a.bin" Sample.empty_world))
    = [EvOpen "out/a.bin" true; EvRead 0 16 5 true;
       EvWrite "out/a.bin" (vol_bytes (Sample.ramp WII_DISC) 0 16 5) false] /\
  fst (ExportData Sample.full_disk_host (Sample.ramp WII_DISC) 0 16 5
         "out/a.bin" Sample.empty_world) = false /\
  host_files (snd (ExportData Sample.full_disk_host (Sample.ramp WII_DISC) 0 16 5
                     "out/a.bin" Sample.empty_world)) !! "out/a.bin"
    = Some [].
Proof. vm_compute. repeat split. Qed.

(** C5. [ExportData] returns failure at once when the destination cannot
    be opened, the failed open being all that happened.  When the file
    opened and the call returns failure, some number of chunks went
    through, and then one chunk failed, by its read or by its write: the
    failing operation is the last event of the call (no retry, nothing
    deleted or truncated), and the file holds exactly the chunks before
    it.  When the call returns success, no operation failed. *)
Theorem ExportData_failure_keeps_chunks io volume partition offset size
    export_filename w :
  is_u64 offset -> is_u64 size ->
  let result := ExportData io volume partition offset size export_filename w in
  host_dirs (snd result) = host_dirs w /\
  (open_ok io (trace w) export_filename = false ->
     fst result = false /\
     host_files (snd result) = host_files w /\
     new_events w (snd result) = [EvOpen export_filename false]) /\
  (open_ok io (trace w) export_filename = true ->
     (fst result = true ->
        new_events w (snd result)
          = EvOpen export_filename true
            :: chunk_events volume partition export_filename offset
                 (chunk_sizes 0x08000000 size)) /\
     (fst result = false ->
        exists (done : nat) (failure : list Event),
          let written := Z.of_nat done * 0x08000000 in
          let before :=
            trace w ++ EvOpen export_filename true
                       :: chunk_events volume partition export_filename offset
                            (replicate done 0x08000000) in
          written < size /\
          host_files (snd result)
            = <[export_filename :=
                  vol_bytes volume partition offset (Z.to_nat written)]>
                (host_files w) /\
          trace (snd result) = before ++ failure /\
          failed_chunk io volume partition export_filename before
            (wrap64 (offset + written)) (Z.min (size - written) 0x08000000)
            failure)).
Proof.
  intros Hoff Hsize. cbv zeta.
  destruct (open_ok io (trace w) export_filename) eqn:Hopen.
  - destruct (ExportData io volume partition offset size export_filename w)
      as [r w'] eqn:Hrun.
    cbn [fst snd]. unfold ExportData in Hrun.
    apply ExportData_limited_run in Hrun; try assumption.
    destruct Hrun as [Hdirs Hrun]. split; [assumption|].
    split; [discriminate|]. intros _.
    change (Z.pos read_limit) with 0x08000000 in Hrun.
    destruct Hrun as [(-> & Hfiles & Htrace) | (-> & Hfailed)].
    + split; [|discriminate]. intros _. now apply new_events_spec.
    + split; [discriminate|]. intros _. exact Hfailed.
  - unfold ExportData. rewrite ExportData_limited_open_failed by assumption.
    cbn [fst snd host_files host_dirs trace].
    split; [reflexivity|]. split; [|discriminate]. intros _.
    split; [reflexivity|]. split; [reflexivity|]. now apply new_events_spec.
Qed.

Lemma ExportData_failure_keeps_chunks_witness :
  exists (done : nat) (failure : list Event),
    Z.of_nat done * 0x08000000 < 5 /\
    host_files (snd (ExportData Sample.friendly_host (Sample.unreadable WII_DISC)
                       0 16 5 "out/a.bin" Sample.empty_world))
    = <["out/a.bin" :=
          vol_bytes (Sample.unreadable WII_DISC) 0 16
            (Z.to_nat (Z.of_nat done * 0x08000000))]> ∅ /\
    trace (snd (ExportData Sample.friendly_host (Sample.unreadable WII_DISC)
                  0 16 5 "out/a.bin" Sample.empty_world))
    = ([] ++ EvOpen "out/a.bin" true
             :: chunk_events (Sample.unreadable WII_DISC) 0 "out/a.bin" 16
                  (replicate done 0x08000000)) ++ failure.
Proof.
  destruct (ExportData_failure_keeps_chunks Sample.friendly_host
              (Sample.unreadable WII_DISC) 0 16 5 "out/a.bin" Sample.empty_world)
    as (_ & _ & H).
  - unfold is_u64. lia.
  - unfold is_u64. lia.
  - destruct (proj2 (H eq_refl) eq_refl) as (done & failure & H1 & H2 & H3 & _).
    exists done, failure. auto.
Defined.

(** With a cap of two bytes on a read, five bytes go in chunks of 2, 2
    and 1. *)
Example ExportData_limited_chunks :
  new_events Sample.empty_world
    (snd (ExportData_limited Sample.friendly_host 2 (Sample.ramp WII_DISC) 0 16 5
            "f" Sample.empty_world))
  = [EvOpen "f" true;
     EvRead 0 16 2 true; EvWrite "f" [Byte.x10; Byte.x11] true;
     EvRead 0 18 2 true; EvWrite "f" [Byte.x12; Byte.x13] true;
     EvRead 0 20 1 true; EvWrite "f" [Byte.x14] true].
Proof. reflexivity. Qed.

(** When the second write fails, the first chunk stays in the file. *)
Example ExportData_limited_second_write_fails :
  ExportData_limited Sample.one_write_host 2 (Sample.ramp WII_DISC) 0 16 5
    "f" Sample.empty_world
  = (false,
     mkWorld {["f" := [Byte.x10; Byte.x11]]} ∅
       [EvOpen "f" true;
        EvRead 0 16 2 true; EvWrite "f" [Byte.x10; Byte.x11] true;
        EvRead 0 18 2 true; EvWrite "f" [Byte.x12; Byte.x13] false]).
Proof. vm_compute. reflexivity. Qed.

(** *** What a transfer may touch *)

Lemma forallb_app_true {A} (f : A -> bool) l1 l2 :
  forallb f l1 = true -> forallb f l2 = true -> forallb f (l1 ++ l2) = true.
Proof. intros H1 H2. rewrite forallb_app, H1, H2. reflexivity. Qed.

(** The loop of [ExportData] reads the volume and writes to its file; it
    touches no other file and no directory, and does not remove its
    file. *)
Lemma ExportData_loop_frame io limit volume partition f (m : nat) :
  forall offset size w r w',
  (Z.to_nat size <= m)%nat ->
  ExportData_loop io limit volume partition f offset size w = (r, w') ->
  host_dirs w' = host_dirs w /\
  (forall q, q <> f -> host_files w' !! q = host_files w !! q) /\
  (is_Some (host_files w !! f) -> is_Some (host_files w' !! f)) /\
  exists evs, trace w' = trace w ++ evs /\ forallb is_transfer evs = true.
Proof.
  induction m as [|m IH]; intros offset size w r w' Hm Hrun.
  - rewrite ExportData_loop_done in Hrun by lia. injection Hrun as <- <-.
    repeat split; auto. exists []. now rewrite app_nil_r.
  - destruct (Z_lt_le_dec 0 size) as [Hpos|Hle].
    2:{ rewrite ExportData_loop_done in Hrun by lia. injection Hrun as <- <-.
        repeat split; auto. exists []. now rewrite app_nil_r. }
    rewrite ExportData_loop_step in Hrun by assumption. cbv zeta in Hrun.
    set (n := Z.min size (Z.pos limit)) in *.
    destruct (vol_readable volume partition offset n).
    + destruct (write_ok io _ f _).
      * apply IH in Hrun.
        2:{ unfold wrap64.
            pose proof (Z.mod_le (size - n) (2^64)).
            pose proof (Z.mod_pos_bound (size - n) (2^64)). lia. }
        cbn [host_files host_dirs trace] in Hrun.
        destruct Hrun as (Hdirs & Hother & Hkept & evs & Htrace & Hevs).
        split; [assumption|]. split; [|split].
        -- intros q Hq. rewrite Hother by assumption. now apply lookup_insert_ne.
        -- intros _. apply Hkept. rewrite lookup_insert_eq. eauto.
        -- eexists. split; [rewrite Htrace, <- !app_assoc; reflexivity|].
           cbn [app forallb is_transfer andb]. exact Hevs.
      * injection Hrun as <- <-. cbn [host_files host_dirs trace].
        repeat split; auto. eexists. split; [rewrite <- app_assoc|]; reflexivity.
    + injection Hrun as <- <-. cbn [host_files host_dirs trace].
      repeat split; auto. eexists. split; reflexivity.
Qed.

(** [ExportData] opens its file, then transfers: nothing but that file
    changes, and a successful open leaves a file there. *)
Lemma ExportData_limited_frame io limit volume partition offset size f w r w' :
  ExportData_limited io limit volume partition offset size f w = (r, w') ->
  let ok := open_ok io (trace w) f in
  host_dirs w' = host_dirs w /\
  (forall q, q <> f -> host_files w' !! q = host_files w !! q) /\
  (ok = true -> is_Some (host_files w' !! f)) /\
  (ok = false -> r = false /\ host_files w' = host_files w) /\
  exists evs, trace w' = trace w ++ EvOpen f ok :: evs
              /\ forallb is_transfer evs = true.
Proof.
  intros Hrun. cbv zeta. destruct (open_ok io (trace w) f) eqn:Hopen.
  - rewrite ExportData_limited_opened in Hrun by assumption.
    eapply ExportData_loop_frame in Hrun; [|reflexivity].
    cbn [host_files host_dirs trace] in Hrun.
    destruct Hrun as (Hdirs & Hother & Hkept & evs & Htrace & Hevs).
    split; [assumption|]. split; [|split; [|split]].
    + intros q Hq. rewrite Hother by assumption. now apply lookup_insert_ne.
    + intros _. apply Hkept. rewrite lookup_insert_eq. eauto.
    + discriminate.
    + exists evs. split; [|assumption]. now rewrite Htrace, <- app_assoc.
  - rewrite ExportData_limited_open_failed in Hrun by assumption.
    injection Hrun as <- <-. cbn [host_files host_dirs trace].
    repeat split; auto; try discriminate. exists []. split; reflexivity.
Qed.

(** *** System data exporter *)

Lemma dol_segments_world volume partition dol_offset offset_table size_table :
  forall count i dol_size w,
  let w' := snd (dol_segments volume partition dol_offset offset_table size_table
                   count i dol_size w) in
  host_files w' = host_files w /\ host_dirs w' = host_dirs w /\
  exists evs, trace w' = trace w ++ evs /\ forallb is_transfer evs = true.
Proof.
  induction count as [|count IH]; intros i dol_size w; cbv zeta.
  - cbn. repeat split. exists []. now rewrite app_nil_r.
  - cbn [dol_segments]. rewrite !ReadSwapped_u32_eq.
    set (w2 := emit _ (emit _ w)).
    assert (host_files w2 = host_files w /\ host_dirs w2 = host_dirs w /\
            exists evs, trace w2 = trace w ++ evs /\ forallb is_transfer evs = true)
      as (Hf & Hd & evs & Ht & He).
    { subst w2. cbn. repeat split. eexists.
      split; [rewrite <- app_assoc; reflexivity|reflexivity]. }
    destruct (read_u32 volume partition _) as [o|];
      [destruct (read_u32 volume partition _) as [s|]|].
    + specialize (IH (i + 1) (Z.max (wrap32 (o + s)) dol_size) w2).
      cbv zeta in IH. destruct IH as (Hf' & Hd' & evs' & Ht' & He').
      rewrite Hf', Hd', Ht', Hf, Hd, Ht. repeat split.
      exists (evs ++ evs'). split; [now rewrite app_assoc|].
      now apply forallb_app_true.
    + cbn [snd]. repeat split; try assumption. eauto.
    + cbn [snd]. repeat split; try assumption. eauto.
Qed.

Lemma GetBootDOLSize_world volume partition dol_offset w :
  let w' := snd (GetBootDOLSize volume partition dol_offset w) in
  host_files w' = host_files w /\ host_dirs w' = host_dirs w /\
  exists evs, trace w' = trace w ++ evs /\ forallb is_transfer evs = true.
Proof.
  cbv zeta. unfold GetBootDOLSize.
  destruct (IsDisc (GetVolumeType volume)); cbn [negb].
  2:{ cbn. repeat split. exists []. now rewrite app_nil_r. }
  pose proof (dol_segments_world volume partition dol_offset 0 144 7 0 0 w) as H1.
  cbv zeta in H1.
  destruct (dol_segments volume partition dol_offset 0 144 7 0 0 w) as [[ds|] w1];
    cbn [snd] in *; [|exact H1].
  pose proof (dol_segments_world volume partition dol_offset 28 172 11 0 ds w1) as H2.
  cbv zeta in H2.
  destruct H1 as (Hf & Hd & evs & Ht & He), H2 as (Hf' & Hd' & evs' & Ht' & He').
  rewrite Hf', Hd', Ht', Hf, Hd, Ht. repeat split.
  exists (evs ++ evs'). split; [now rewrite app_assoc|now apply forallb_app_true].
Qed.

Lemma max_extent_add_u32_range segs : is_u32 (max_extent add_u32 segs).
Proof.
  unfold is_u32. induction segs as [|seg segs IH]; [cbn; lia|].
  change (max_extent add_u32 (seg :: segs))
    with (Z.max (add_u32 (fst seg) (snd seg)) (max_extent add_u32 segs)).
  assert (0 <= add_u32 (fst seg) (snd seg) < 2^32)
    by (apply Z.mod_pos_bound; lia).
  lia.
Qed.

(** A successful [ExportApploader] leaves the apploader image, sized from
    the two header fields, in its file, and touches no other file. *)
Lemma ExportApploader_run io volume partition f w r w' :
  ExportApploader io volume partition f w = (r, w') ->
  (forall q, q <> f -> host_files w' !! q = host_files w !! q) /\
  (r = true ->
   exists a t,
     read_u32 volume partition (0x2440 + 0x14) = Some a /\
     read_u32 volume partition (0x2440 + 0x18) = Some t /\
     host_files w'
       = <[f := vol_bytes volume partition 0x2440
                  (Z.to_nat (apploader_image_size a t))]> (host_files w)).
Proof.
  unfold ExportApploader. destruct (IsDisc (GetVolumeType volume)); cbn [negb].
  2:{ intros [= <- <-]. split; [reflexivity|discriminate]. }
  rewrite !ReadSwapped_u32_eq.
  destruct (read_u32 volume partition (0x2440 + 0x14)) as [a|];
    [destruct (read_u32 volume partition (0x2440 + 0x18)) as [t|]|];
    try (intros [= <- <-]; split; [reflexivity|discriminate]).
  intros Hrun. unfold ExportData in Hrun.
  pose proof (ExportData_limited_frame _ _ _ _ _ _ _ _ _ _ Hrun) as Hframe.
  cbv zeta in Hframe. cbn [host_files host_dirs trace emit] in Hframe.
  destruct Hframe as (_ & Hother & _ & Hclosed & _).
  split; [exact Hother|]. intros ->. exists a, t. repeat split.
  destruct (open_ok io (trace (emit (EvRead partition (0x2440 + 0x18) 4
                                       (vol_readable volume partition (0x2440 + 0x18) 4))
                                 (emit (EvRead partition (0x2440 + 0x14) 4
                                          (vol_readable volume partition (0x2440 + 0x14) 4))
                                    w))) f) eqn:Hopen.
  - apply ExportData_limited_run in Hrun; [| unfold is_u64; lia | | assumption].
    + destruct Hrun as [_ [(_ & Hfiles & _) | (Hfalse & _)]]; [|discriminate].
      exact Hfiles.
    + pose proof (wrap32_range (a + wrap32 (t + 32))). unfold is_u64, is_u32 in *.
      lia.
  - destruct (Hclosed Hopen) as [Hfalse _]. discriminate.
Qed.

Lemma GetBootDOLOffset_fst_range volume partition w dol_offset :
  fst (GetBootDOLOffset volume partition w) = Some dol_offset -> is_u64 dol_offset.
Proof.
  unfold GetBootDOLOffset. destruct (IsDisc (GetVolumeType volume)); cbn [negb];
    [|discriminate].
  rewrite ReadSwapped_u32_eq. cbn [fst].
  destruct (read_u32 volume partition 1056); [|discriminate].
  intros [= <-]. unfold is_u64, wrap64. apply Z.mod_pos_bound. lia.
Qed.

Lemma GetBootDOLOffset_world volume partition w :
  let w' := snd (GetBootDOLOffset volume partition w) in
  host_files w' = host_files w /\ host_dirs w' = host_dirs w /\
  (IsDisc (GetVolumeType volume) = true ->
   trace w' = trace w ++ [EvRead partition 0x420 4
                            (vol_readable volume partition 0x420 4)]).
Proof.
  cbv zeta. unfold GetBootDOLOffset.
  destruct (IsDisc (GetVolumeType volume)); cbn [negb].
  - rewrite ReadSwapped_u32_eq. cbn. auto.
  - cbn. repeat split. discriminate.
Qed.

Lemma GetBootDOLOffset_fst_any volume partition w w0 :
  fst (GetBootDOLOffset volume partition w) = fst (GetBootDOLOffset volume partition w0).
Proof.
  unfold GetBootDOLOffset. destruct (IsDisc (GetVolumeType volume)); cbn [negb];
    [|reflexivity].
  now rewrite !ReadSwapped_u32_eq.
Qed.

Lemma GetBootDOLSize_fst_any volume partition dol_offset w w0 :
  fst (GetBootDOLSize volume partition dol_offset w)
  = fst (GetBootDOLSize volume partition dol_offset w0).
Proof.
  destruct (IsDisc (GetVolumeType volume)) eqn:Hdisc.
  - now rewrite !GetBootDOLSize_fst.
  - unfold GetBootDOLSize. now rewrite Hdisc.
Qed.

Lemma GetBootDOLSize_fst_range volume partition dol_offset w dol_size :
  fst (GetBootDOLSize volume partition dol_offset w) = Some dol_size ->
  is_u32 dol_size.
Proof.
  destruct (IsDisc (GetVolumeType volume)) eqn:Hdisc.
  - rewrite GetBootDOLSize_fst by assumption.
    destruct (read_descriptors volume partition _); [|discriminate].
    intros [= <-]. apply max_extent_add_u32_range.
  - unfold GetBootDOLSize. rewrite Hdisc. discriminate.
Qed.

(** A successful [ExportDOL] leaves the boot executable, located and
    sized by the two queries, in its file, and touches no other file. *)
Lemma ExportDOL_run io volume partition f w r w' :
  ExportDOL io volume partition f w = (r, w') ->
  (forall q, q <> f -> host_files w' !! q = host_files w !! q) /\
  (IsDisc (GetVolumeType volume) = true ->
   exists evs, trace w' = trace w ++ EvRead partition 0x420 4
                                       (vol_readable volume partition 0x420 4)
                                     :: evs) /\
  (r = true ->
   exists dol_offset dol_size,
     fst (GetBootDOLOffset volume partition w) = Some dol_offset /\
     fst (GetBootDOLSize volume partition dol_offset w) = Some dol_size /\
     host_files w'
       = <[f := vol_bytes volume partition dol_offset (Z.to_nat dol_size)]>
           (host_files w)).
Proof.
  unfold ExportDOL. destruct (IsDisc (GetVolumeType volume)) eqn:Hdisc; cbn [negb].
  2:{ intros [= <- <-]. split; [reflexivity|]. split; discriminate. }
  pose proof (GetBootDOLOffset_world volume partition w) as Hw1. cbv zeta in Hw1.
  pose proof (GetBootDOLOffset_fst_range volume partition w) as Hr1.
  destruct (GetBootDOLOffset volume partition w) as [[dol_offset|] w1];
    cbn [fst snd] in *; destruct Hw1 as (Hf1 & Hd1 & Ht1); specialize (Ht1 Hdisc).
  2:{ intros [= <- <-]. split; [now rewrite Hf1|]. split; [|discriminate].
      intros _. exists []. exact Ht1. }
  specialize (Hr1 _ eq_refl).
  pose proof (GetBootDOLSize_world volume partition dol_offset w1) as Hw2.
  cbv zeta in Hw2.
  pose proof (GetBootDOLSize_fst_range volume partition dol_offset w1) as Hr2.
  pose proof (GetBootDOLSize_fst_any volume partition dol_offset w1 w) as Hany.
  destruct (GetBootDOLSize volume partition dol_offset w1) as [[dol_size|] w2];
    cbn [fst snd] in *; destruct Hw2 as (Hf2 & Hd2 & evs2 & Ht2 & _).
  2:{ intros [= <- <-]. split; [now rewrite Hf2, Hf1|]. split; [|discriminate].
      intros _. exists evs2. now rewrite Ht2, Ht1, <- app_assoc. }
  specialize (Hr2 _ eq_refl). intros Hrun. unfold ExportData in Hrun.
  pose proof (ExportData_limited_frame _ _ _ _ _ _ _ _ _ _ Hrun) as Hframe.
  cbv zeta in Hframe. destruct Hframe as (_ & Hother & _ & Hclosed & evs3 & Ht3 & _).
  split; [|split].
  - intros q Hq. now rewrite Hother, Hf2, Hf1.
  - intros _. eexists. rewrite Ht3, Ht2, Ht1, <- !app_assoc. reflexivity.
  - intros ->. exists dol_offset, dol_size. split; [reflexivity|].
    split; [now symmetry|].
    destruct (open_ok io (trace w2) f) eqn:Hopen.
    + apply ExportData_limited_run in Hrun;
        [| assumption | unfold is_u64, is_u32 in *; lia | assumption].
      destruct Hrun as [_ [(_ & Hfiles & _) | (Hfalse & _)]]; [|discriminate].
      now rewrite Hfiles, Hf2, Hf1.
    + destruct (Hclosed eq_refl) as [Hfalse _]. discriminate.
Qed.

Lemma append_inj_r (s t1 t2 : string) : s +:+ t1 = s +:+ t2 -> t1 = t2.
Proof. induction s as [|c s IH]; cbn; [trivial|]. intros [= H]. now apply IH. Qed.

(** C9. [ExportSystemData] runs [ExportApploader] to
    [export_folder/apploader.img] and then, whatever that returned,
    [ExportDOL] to [export_folder/boot.dol] (on a disc the read of the
    boot offset at 0x420 is always among its events); it returns success
    exactly when both did; and when exactly one failed the file of the
    other is on the host with the artifact's bytes. *)
Theorem ExportSystemData_attempts_both io volume partition export_folder w :
  let apploader := ExportApploader io volume partition
                     (export_folder +:+ "/apploader.img") w in
  let dol := ExportDOL io volume partition (export_folder +:+ "/boot.dol")
               (snd apploader) in
  let result := ExportSystemData io volume partition export_folder w in
  result = (fst apploader && fst dol, snd dol) /\
  (fst result = true <-> fst apploader = true /\ fst dol = true) /\
  (IsDisc (GetVolumeType volume) = true ->
   In (EvRead partition 0x420 4 (vol_readable volume partition 0x420 4))
      (new_events (snd apploader) (snd result))) /\
  (fst apploader = true -> fst dol = false ->
   exists a t,
     read_u32 volume partition (0x2440 + 0x14) = Some a /\
     read_u32 volume partition (0x2440 + 0x18) = Some t /\
     host_files (snd result) !! (export_folder +:+ "/apploader.img")
       = Some (vol_bytes volume partition 0x2440
                 (Z.to_nat (apploader_image_size a t)))) /\
  (fst apploader = false -> fst dol = true ->
   exists dol_offset dol_size,
     fst (GetBootDOLOffset volume partition w) = Some dol_offset /\
     fst (GetBootDOLSize volume partition dol_offset w) = Some dol_size /\
     host_files (snd result) !! (export_folder +:+ "/boot.dol")
       = Some (vol_bytes volume partition dol_offset (Z.to_nat dol_size))).
Proof.
  cbv zeta. unfold ExportSystemData.
  destruct (ExportApploader io volume partition (export_folder +:+ "/apploader.img") w)
    as [r1 w1] eqn:Happ.
  cbn [fst snd].
  destruct (ExportDOL io volume partition (export_folder +:+ "/boot.dol") w1)
    as [r2 w2] eqn:Hdol.
  cbn [fst snd andb].
  apply ExportApploader_run in Happ. destruct Happ as [Hother1 Happ].
  apply ExportDOL_run in Hdol. destruct Hdol as (Hother2 & Hread & Hdol).
  split; [reflexivity|]. split; [apply andb_true_iff|]. split; [|split].
  - intros Hdisc. destruct (Hread Hdisc) as [evs Ht].
    rewrite (new_events_spec _ _ _ Ht). now left.
  - intros -> _. destruct (Happ eq_refl) as (a & t & Ha & Ht & Hfiles).
    exists a, t. split; [assumption|]. split; [assumption|].
    rewrite Hother2, Hfiles; [apply lookup_insert_eq|].
    intros Heq. apply append_inj_r in Heq. discriminate.
  - intros _ ->. destruct (Hdol eq_refl) as (dol_offset & dol_size & Ho & Hs & Hfiles).
    exists dol_offset, dol_size.
    split; [erewrite GetBootDOLOffset_fst_any; eassumption|].
    split; [erewrite GetBootDOLSize_fst_any; eassumption|].
    rewrite Hfiles. apply lookup_insert_eq.
Qed.

Lemma ExportSystemData_attempts_both_witness :
  exists dol_offset dol_size,
    fst (GetBootDOLOffset Sample.disc_without_apploader 0 Sample.empty_world)
      = Some dol_offset /\
    fst (GetBootDOLSize Sample.disc_without_apploader 0 dol_offset
           Sample.empty_world) = Some dol_size /\
    host_files (snd (ExportSystemData Sample.friendly_host
                       Sample.disc_without_apploader 0 "out" Sample.empty_world))
      !! "out/boot.dol"
    = Some (vol_bytes Sample.disc_without_apploader 0 dol_offset
              (Z.to_nat dol_size)).
Proof.
  apply (proj2 (proj2 (proj2 (proj2
           (ExportSystemData_attempts_both Sample.friendly_host
              Sample.disc_without_apploader 0 "out" Sample.empty_world)))));
    vm_compute; reflexivity.
Defined.

(** On that disc the apploader export fails and the boot executable is
    still written. *)
Example ExportSystemData_one_fails :
  let result := ExportSystemData Sample.friendly_host
                  Sample.disc_without_apploader 0 "out" Sample.empty_world in
  fst result = false /\
  host_files (snd result) !! "out/apploader.img" = None /\
  host_files (snd result) !! "out/boot.dol"
    = Some (vol_bytes Sample.disc_without_apploader 0 0x100 24).
Proof. vm_compute. repeat split. Qed.

(** *** Directory exporter *)

Lemma FileInfo_tree_ind (P : FileInfo -> Prop) :
  (forall fi, Forall P (children fi) -> P fi) -> forall fi, P fi.
Proof.
  intros step. fix IH 1. intros [name offset size is_dir cs]. apply step. cbn.
  induction cs as [|c cs IHcs]; constructor; [apply IH|exact IHcs].
Qed.

Lemma ExportDirectory_eq io volume partition directory recursive
    filesystem_path export_folder update_progress w :
  ExportDirectory io volume partition directory recursive filesystem_path
    export_folder update_progress w
  = ExportDirectory_entries io volume partition (children directory) recursive
      filesystem_path export_folder update_progress
      (File_CreateFullPath (export_folder +:+ "/") w).
Proof.
  destruct directory as [name offset size is_dir cs]. cbn [ExportDirectory children].
  generalize (File_CreateFullPath (export_folder +:+ "/") w). clear w.
  induction cs as [|c cs IH]; intros w; [reflexivity|].
  cbn [ExportDirectory_entries].
  destruct (call_progress update_progress _ w) as [cancel w1].
  destruct cancel; [reflexivity|]. apply IH.
Qed.

Lemma ExportDirectory_entries_cons io volume partition file_info rest recursive
    filesystem_path export_folder update_progress w :
  let path := filesystem_path +:+ entry_name file_info in
  let export_path := export_folder +:+ "/" +:+ entry_name file_info in
  ExportDirectory_entries io volume partition (file_info :: rest) recursive
    filesystem_path export_folder update_progress w
  = if update_progress (trace w) path then emit (EvProgress path true) w
    else
      ExportDirectory_entries io volume partition rest recursive filesystem_path
        export_folder update_progress
        (export_entry io volume partition file_info recursive export_path
           (ExportDirectory io volume partition file_info recursive path
              export_path update_progress)
           (emit (EvProgress path false) w)).
Proof.
  cbv zeta. cbn [ExportDirectory_entries]. unfold call_progress.
  destruct (update_progress (trace w) _); reflexivity.
Qed.

(** A relation between worlds that holds across each elementary step
    holds across a whole transfer, and one that holds across each step of
    the walk holds across a whole directory export. *)
Section Steps.

Context (io : HostIO) (volume : Volume) (partition : Partition).
Context (P : World -> World -> Prop).
Hypothesis P_refl : forall w, P w w.
Hypothesis P_trans : forall w1 w2 w3, P w1 w2 -> P w2 w3 -> P w1 w3.
Hypothesis P_passive : forall e w, is_passive e = true -> P w (emit e w).

Section Transfer.

Hypothesis P_open : forall path w, P w (snd (IOFile_open io path w)).
Hypothesis P_write :
  forall path data n w, P w (snd (IOFile_WriteBytes io path data n w)).

Lemma ExportData_loop_steps limit f (m : nat) : forall offset size w,
  (Z.to_nat size <= m)%nat ->
  P w (snd (ExportData_loop io limit volume partition f offset size w)).
Proof.
  induction m as [|m IH]; intros offset size w Hm.
  - rewrite ExportData_loop_done by lia. apply P_refl.
  - destruct (Z_lt_le_dec 0 size) as [Hpos|Hle];
      [|rewrite ExportData_loop_done by lia; apply P_refl].
    rewrite ExportData_loop_step by assumption. cbv zeta.
    set (n := Z.min size (Z.pos limit)).
    set (data := vol_bytes volume partition offset (Z.to_nat n)).
    pose proof (P_passive (EvRead partition offset n
                             (vol_readable volume partition offset n)) w eq_refl)
      as Hread.
    pose proof (P_write f data n (emit (EvRead partition offset n true) w))
      as Hwrite.
    unfold IOFile_WriteBytes, emit in Hwrite, Hread.
    cbn [snd trace host_files host_dirs] in Hwrite.
    rewrite take_ge in Hwrite by (subst data; rewrite vol_bytes_length; lia).
    destruct (vol_readable volume partition offset n); [|exact Hread].
    destruct (write_ok io _ f data).
    + eapply P_trans; [exact Hread|]. eapply P_trans; [exact Hwrite|].
      apply IH. unfold wrap64.
      pose proof (Z.mod_le (size - n) (2^64)).
      pose proof (Z.mod_pos_bound (size - n) (2^64)). lia.
    + eapply P_trans; [exact Hread|exact Hwrite].
Qed.

Lemma ExportFile_steps file_info export_filename w :
  P w (snd (ExportFile io volume partition file_info export_filename w)).
Proof.
  unfold ExportFile. destruct file_info as [fi|]; [|apply P_refl].
  destruct (IsDirectory fi); [apply P_refl|].
  unfold ExportData, ExportData_limited.
  pose proof (P_open export_filename w) as Hopen.
  destruct (IOFile_open io export_filename w) as [[|] w1]; cbn [snd] in *;
    [|exact Hopen].
  eapply P_trans; [exact Hopen|]. eapply ExportData_loop_steps. reflexivity.
Qed.

End Transfer.

Section Walk.

Hypothesis P_create : forall path w, P w (File_CreateFullPath path w).
Hypothesis P_export :
  forall fi export_path w,
    path_exists w export_path = false ->
    P w (snd (ExportFile io volume partition (Some fi) export_path w)).

Lemma export_entry_steps file_info recursive export_path recurse w :
  (forall w0, P w0 (recurse w0)) ->
  P w (export_entry io volume partition file_info recursive export_path
         recurse w).
Proof.
  intros Hrec. unfold export_entry, File_Exists.
  destruct (IsDirectory file_info); cbn [negb].
  - destruct recursive; [apply Hrec|apply P_refl].
  - pose proof (P_passive (EvExists export_path (path_exists w export_path)) w
                  eq_refl) as Hexists.
    destruct (path_exists w export_path) eqn:Hfound.
    + eapply P_trans; [exact Hexists|]. now apply P_passive.
    + eapply P_trans; [exact Hexists|].
      pose proof (P_export file_info export_path
                    (emit (EvExists export_path false) w) Hfound) as Hexport.
      destruct (ExportFile io volume partition (Some file_info) export_path _)
        as [[|] w2]; cbn [snd] in Hexport; [exact Hexport|].
      eapply P_trans; [exact Hexport|]. now apply P_passive.
Qed.

Lemma ExportDirectory_steps directory : forall recursive filesystem_path
    export_folder update_progress w,
  P w (ExportDirectory io volume partition directory recursive filesystem_path
         export_folder update_progress w).
Proof.
  induction directory as [directory IH] using FileInfo_tree_ind.
  intros recursive filesystem_path export_folder update_progress w.
  rewrite ExportDirectory_eq.
  eapply P_trans; [apply (P_create (export_folder +:+ "/"))|].
  generalize (File_CreateFullPath (export_folder +:+ "/") w). clear w.
  induction IH as [|c cs IHc _ IHcs]; intros w; [apply P_refl|].
  rewrite ExportDirectory_entries_cons. cbv zeta.
  set (path := filesystem_path +:+ entry_name c).
  destruct (update_progress (trace w) path); [now apply P_passive|].
  eapply P_trans; [apply (P_passive (EvProgress path false)); reflexivity|].
  eapply P_trans; [|apply IHcs].
  apply export_entry_steps. intros w0. apply IHc.
Qed.

End Walk.

End Steps.

Lemma new_events_app w1 w2 w3 :
  (exists evs, trace w2 = trace w1 ++ evs) ->
  (exists evs, trace w3 = trace w2 ++ evs) ->
  new_events w1 w3 = new_events w1 w2 ++ new_events w2 w3.
Proof.
  intros [evs1 H1] [evs2 H2].
  rewrite (new_events_spec _ _ _ H1), (new_events_spec _ _ _ H2).
  apply new_events_spec. now rewrite H2, H1, app_assoc.
Qed.

Lemma new_events_emit e w : new_events w (emit e w) = [e].
Proof. now apply new_events_spec. Qed.

Lemma path_exists_emit e w q : path_exists (emit e w) q = path_exists w q.
Proof. reflexivity. Qed.

Lemma path_exists_files w q :
  path_exists w q = false -> host_files w !! q = None.
Proof.
  unfold path_exists. intros H. apply orb_false_elim in H as [H _].
  apply bool_decide_eq_false in H. destruct (host_files w !! q); [|reflexivity].
  exfalso. apply H. eauto.
Qed.

Lemma path_exists_of_file w q :
  is_Some (host_files w !! q) -> path_exists w q = true.
Proof.
  intros H. unfold path_exists. apply orb_true_intro. left.
  now apply bool_decide_eq_true.
Qed.

(** *** Runs leave existing things alone *)

Lemma preserves_refl w : preserves w w.
Proof. split; [exists []; now rewrite app_nil_r|]. split; [set_solver|auto]. Qed.

Lemma preserves_trans w1 w2 w3 : preserves w1 w2 -> preserves w2 w3 -> preserves w1 w3.
Proof.
  intros ([evs1 H1] & Hd1 & Hf1) ([evs2 H2] & Hd2 & Hf2).
  split; [exists (evs1 ++ evs2); now rewrite H2, H1, app_assoc|].
  split; [set_solver|auto].
Qed.

Lemma preserves_emit e w : preserves w (emit e w).
Proof. split; [now exists [e]|]. split; [set_solver|auto]. Qed.

Lemma preserves_exists w w' q :
  preserves w w' -> path_exists w q = true -> path_exists w' q = true.
Proof.
  intros (_ & Hd & Hf). unfold path_exists. intros H.
  apply orb_true_iff in H as [H|H]; apply orb_true_intro.
  - left. apply bool_decide_eq_true in H as [c Hc]. apply bool_decide_eq_true.
    rewrite (Hf _ _ Hc). eauto.
  - right. apply bool_decide_eq_true in H. apply bool_decide_eq_true. set_solver.
Qed.

(** What exporting a file entry does: a notice if something is at the
    export path already, else one export to that path. *)
Lemma export_entry_file io volume partition file_info recursive export_path
    recurse w :
  IsDirectory file_info = false ->
  let w' := export_entry io volume partition file_info recursive export_path
              recurse w in
  (path_exists w export_path = true /\
   w' = emit (EvNotice export_path) (emit (EvExists export_path true) w))
  \/
  (path_exists w export_path = false /\
   exists evs,
     let ok := open_ok io (trace w ++ [EvExists export_path false]) export_path in
     trace w' = trace w ++ EvExists export_path false :: EvOpen export_path ok :: evs /\
     forallb is_after_open evs = true /\
     (ok = false -> evs = [EvError export_path]) /\
     host_dirs w' = host_dirs w /\
     (forall q, q <> export_path -> host_files w' !! q = host_files w !! q) /\
     (ok = true -> is_Some (host_files w' !! export_path)) /\
     (ok = false -> host_files w' = host_files w)).
Proof.
  intros Hfile. cbv zeta. unfold export_entry, File_Exists, ExportFile.
  rewrite Hfile. cbn [negb].
  destruct (path_exists w export_path) eqn:Hfound; [left; auto|right].
  split; [reflexivity|].
  destruct (ExportData io volume partition (GetOffset file_info) (GetSize file_info)
              export_path (emit (EvExists export_path false) w)) as [r w2] eqn:Hrun.
  unfold ExportData in Hrun.
  destruct (ExportData_limited_frame _ _ _ _ _ _ _ _ _ _ Hrun)
    as (Hdirs & Hother & Hopened & Hclosed & evs & Htrace & Hevs).
  cbn [trace emit host_files host_dirs] in *.
  assert (forallb is_after_open evs = true) as Hevs'.
  { clear -Hevs. induction evs as [|e evs IH]; [reflexivity|].
    cbn [forallb] in *. apply andb_true_iff in Hevs as [He Hevs].
    rewrite (IH Hevs). now destruct e. }
  assert (open_ok io (trace w ++ [EvExists export_path false]) export_path = false ->
          r = false /\ evs = []) as Hfailed.
  { intros Hno. split; [now destruct (Hclosed Hno)|].
    unfold ExportData_limited, IOFile_open in Hrun.
    cbn [trace emit] in Hrun. rewrite Hno in Hrun. injection Hrun as _ <-.
    cbn [trace] in Htrace. rewrite Hno in Htrace.
    apply app_inv_head in Htrace. now injection Htrace as <-. }
  destruct r.
  - exists evs. rewrite Htrace, <- app_assoc.
    split; [reflexivity|]. split; [assumption|].
    split; [intros Hno; now destruct (Hfailed Hno)|].
    split; [assumption|]. split; [assumption|]. split; [assumption|].
    intros Hno. now destruct (Hclosed Hno).
  - exists (evs ++ [EvError export_path]). cbn [trace emit host_files host_dirs].
    rewrite Htrace, <- !app_assoc.
    split; [reflexivity|].
    split; [apply forallb_app_true; [assumption|reflexivity]|].
    split; [intros Hno; now destruct (Hfailed Hno) as [_ ->]|].
    split; [assumption|]. split; [assumption|]. split; [assumption|].
    intros Hno. now destruct (Hclosed Hno).
Qed.

Lemma preserves_create path w : preserves w (File_CreateFullPath path w).
Proof.
  split; [now exists [EvCreateFullPath path]|]. cbn. split; [set_solver|auto].
Qed.

Lemma preserves_export io volume partition file_info export_path w :
  path_exists w export_path = false ->
  preserves w (snd (ExportFile io volume partition (Some file_info) export_path w)).
Proof.
  intros Hfresh. unfold ExportFile.
  destruct (IsDirectory file_info); [apply preserves_refl|].
  destruct (ExportData io volume partition (GetOffset file_info) (GetSize file_info)
              export_path w) as [r w'] eqn:Hrun.
  unfold ExportData in Hrun.
  destruct (ExportData_limited_frame _ _ _ _ _ _ _ _ _ _ Hrun)
    as (Hdirs & Hother & _ & _ & evs & Htrace & _).
  cbn [snd]. split; [eauto|]. split; [now rewrite Hdirs|].
  intros q c Hq. rewrite Hother; [assumption|].
  intros ->. rewrite (path_exists_files _ _ Hfresh) in Hq. discriminate.
Qed.

(** [ExportDirectory] leaves every file that was on the host as it
    was. *)
Lemma ExportDirectory_preserves io volume partition directory recursive
    filesystem_path export_folder update_progress w :
  preserves w (ExportDirectory io volume partition directory recursive
                 filesystem_path export_folder update_progress w).
Proof.
  apply ExportDirectory_steps.
  - apply preserves_refl.
  - apply preserves_trans.
  - intros e w0 _. apply preserves_emit.
  - apply preserves_create.
  - apply preserves_export.
Qed.

Lemma ExportDirectory_entries_preserves io volume partition entries recursive
    filesystem_path export_folder update_progress w :
  preserves w (ExportDirectory_entries io volume partition entries recursive
                 filesystem_path export_folder update_progress w).
Proof.
  revert w. induction entries as [|c cs IH]; intros w; [apply preserves_refl|].
  rewrite ExportDirectory_entries_cons. cbv zeta.
  destruct (update_progress (trace w) _); [apply preserves_emit|].
  eapply preserves_trans; [apply preserves_emit|].
  eapply preserves_trans; [|apply IH].
  apply export_entry_steps.
  - apply preserves_refl.
  - apply preserves_trans.
  - intros e w0 _. apply preserves_emit.
  - apply preserves_export.
  - intros w0. apply ExportDirectory_preserves.
Qed.

Lemma progress_paths_app evs1 evs2 :
  progress_paths (evs1 ++ evs2) = progress_paths evs1 ++ progress_paths evs2.
Proof. apply omap_app. Qed.

Lemma after_open_no_progress evs :
  forallb is_after_open evs = true ->
  progress_paths evs = [] /\ filter (fun e => is_create e = true) evs = []
  /\ forallb (fun e => negb (is_cancel e)) evs = true.
Proof.
  induction evs as [|e evs IH]; [auto|].
  cbn [forallb]. intros H. apply andb_true_iff in H as [He Hevs].
  destruct (IH Hevs) as (IH1 & IH2 & IH3).
  destruct e; try discriminate; cbn; rewrite ?IH1, ?IH3; auto.
Qed.

(** The loop over the children when the export is not recursive. *)
Lemma ExportDirectory_entries_flat io volume partition filesystem_path
    export_folder update_progress entries : forall w,
  let w' := ExportDirectory_entries io volume partition entries false
              filesystem_path export_folder update_progress w in
  host_dirs w' = host_dirs w /\
  filter (fun e => is_create e = true) (new_events w w') = [] /\
  (exists visited,
     visited `prefix_of` entries /\
     progress_paths (new_events w w')
       = map (fun c => filesystem_path +:+ entry_name c) visited) /\
  (forall q, host_files w' !! q <> host_files w !! q ->
     exists c, c ∈ entries /\ IsDirectory c = false /\
               q = export_folder +:+ "/" +:+ entry_name c).
Proof.
  induction entries as [|c cs IH]; intros w; cbv zeta.
  - cbn [ExportDirectory_entries]. unfold new_events. rewrite drop_all.
    split; [reflexivity|]. split; [reflexivity|].
    split; [exists []; split; [apply prefix_nil|reflexivity]|]. congruence.
  - rewrite ExportDirectory_entries_cons. cbv zeta.
    set (path := filesystem_path +:+ entry_name c).
    set (export_path := export_folder +:+ "/" +:+ entry_name c).
    destruct (update_progress (trace w) path).
    { rewrite new_events_emit. split; [reflexivity|]. split; [reflexivity|].
      split; [|cbn; congruence].
      exists [c]. split; [|reflexivity].
      exists cs. reflexivity. }
    set (w1 := emit (EvProgress path false) w).
    set (w2 := export_entry io volume partition c false export_path _ w1).
    specialize (IH w2). cbv zeta in IH.
    set (w' := ExportDirectory_entries io volume partition cs false
                 filesystem_path export_folder update_progress w2) in *.
    destruct IH as (Hdirs & Hcreate & (visited & Hprefix & Hpaths) & Hfiles).
    assert (host_dirs w2 = host_dirs w1 /\
            (exists evs, trace w2 = trace w1 ++ evs
                         /\ filter (fun e => is_create e = true) evs = []
                         /\ progress_paths evs = []) /\
            (forall q, (IsDirectory c = false /\ q = export_path)
                       \/ host_files w2 !! q = host_files w1 !! q))
      as (Hdirs2 & (evs2 & Htrace2 & Hcreate2 & Hpaths2) & Hfiles2).
    { destruct (IsDirectory c) eqn:Hkind.
      - assert (w2 = w1) as -> by (subst w2; unfold export_entry; now rewrite Hkind).
        split; [reflexivity|].
        split; [exists []; now rewrite app_nil_r|]. now right.
      - destruct (export_entry_file io volume partition c false export_path
                    (ExportDirectory io volume partition c false path export_path
                       update_progress) w1 Hkind)
          as [[_ Hskip] | (_ & evs & Htrace & Hevs & _ & Hd & Hother & _)];
          fold w2 in Hskip || (cbv zeta in Htrace; fold w2 in Htrace, Hd, Hother).
        + rewrite Hskip. split; [reflexivity|].
          split; [eexists; split; [cbn; rewrite <- app_assoc; reflexivity|now split]|].
          now right.
        + split; [assumption|].
          destruct (after_open_no_progress _ Hevs) as (Hp & Hc & _).
          split.
          { exists ([EvExists export_path false;
                     EvOpen export_path
                       (open_ok io (trace w1 ++ [EvExists export_path false])
                          export_path)] ++ evs).
            split; [exact Htrace|].
            rewrite filter_app, progress_paths_app, Hp, Hc. split; reflexivity. }
          intros q. destruct (decide (q = export_path)) as [->|Hne]; [now left|].
          right. now apply Hother. }
    assert (exists evs, trace w' = trace w2 ++ evs) as Hgrow
      by apply ExportDirectory_entries_preserves.
    assert (new_events w w' = EvProgress path false :: evs2 ++ new_events w2 w')
      as Hnew.
    { destruct Hgrow as [evs3 Htrace3]. rewrite (new_events_spec _ _ _ Htrace3).
      apply new_events_spec. rewrite Htrace3, Htrace2. subst w1. cbn [emit trace].
      now rewrite <- !app_assoc. }
    rewrite Hnew.
    split; [now rewrite Hdirs, Hdirs2|].
    split.
    { rewrite filter_cons_False by (cbn; discriminate).
      now rewrite filter_app, Hcreate2, Hcreate. }
    split.
    + exists (c :: visited). split; [now apply prefix_cons|].
      change (EvProgress path false :: evs2 ++ new_events w2 w')
        with ([EvProgress path false] ++ evs2 ++ new_events w2 w').
      rewrite !progress_paths_app, Hpaths2, Hpaths. reflexivity.
    + intros q Hq. destruct (Hfiles2 q) as [[Hkind ->] | Heq].
      * exists c. split; [apply list_elem_of_here|]. auto.
      * change (host_files w1) with (host_files w) in Heq. rewrite <- Heq in Hq.
        destruct (Hfiles q Hq) as (c' & Hin & Hkind & ->).
        exists c'. split; [now apply list_elem_of_further|]. auto.
Qed.

(** C7. With [recursive = false] a child directory is skipped entirely:
    the step for it does nothing.  Over the whole call the only
    [CreateFullPath] is that of the top-level folder, so the only
    directories added are those it creates; the callback is called for
    direct children only, in order; and any host file that changed is
    the export path of a direct file child. *)
Theorem ExportDirectory_not_recursive io volume partition directory
    filesystem_path export_folder update_progress w :
  let w' := ExportDirectory io volume partition directory false filesystem_path
              export_folder update_progress w in
  (forall c export_path recurse w0,
     IsDirectory c = true ->
     export_entry io volume partition c false export_path recurse w0 = w0) /\
  host_dirs w' = host_dirs w ∪ list_to_set (dir_prefixes (export_folder +:+ "/")) /\
  filter (fun e => is_create e = true) (new_events w w')
    = [EvCreateFullPath (export_folder +:+ "/")] /\
  (exists visited,
     visited `prefix_of` children directory /\
     progress_paths (new_events w w')
       = map (fun c => filesystem_path +:+ entry_name c) visited) /\
  (forall q, host_files w' !! q <> host_files w !! q ->
     exists c, c ∈ children directory /\ IsDirectory c = false /\
               q = export_folder +:+ "/" +:+ entry_name c).
Proof.
  cbv zeta. split.
  { intros c export_path recurse w0 Hdir. unfold export_entry. now rewrite Hdir. }
  rewrite ExportDirectory_eq.
  set (w0 := File_CreateFullPath (export_folder +:+ "/") w).
  pose proof (ExportDirectory_entries_flat io volume partition filesystem_path
                export_folder update_progress (children directory) w0) as H.
  cbv zeta in H.
  set (w' := ExportDirectory_entries io volume partition (children directory) false
               filesystem_path export_folder update_progress w0) in *.
  destruct H as (Hdirs & Hcreate & (visited & Hprefix & Hpaths) & Hfiles).
  assert (new_events w w' = EvCreateFullPath (export_folder +:+ "/")
                            :: new_events w0 w') as Hnew.
  { change (EvCreateFullPath (export_folder +:+ "/") :: new_events w0 w')
      with ([EvCreateFullPath (export_folder +:+ "/")] ++ new_events w0 w').
    rewrite <- (new_events_spec w w0 [EvCreateFullPath (export_folder +:+ "/")])
      by reflexivity.
    apply new_events_app; [now eexists|].
    apply ExportDirectory_entries_preserves. }
  rewrite Hnew. split; [now rewrite Hdirs|].
  split; [now rewrite filter_cons_True, Hcreate by reflexivity|].
  split; [exists visited; split; [assumption|exact Hpaths]|].
  exact Hfiles.
Qed.

Lemma ExportDirectory_not_recursive_witness :
  export_entry Sample.friendly_host (Sample.ramp WII_DISC) 0 Sample.dir_sub false
    "out/sub/" (fun w => w) Sample.empty_world = Sample.empty_world.
Proof.
  apply (proj1 (ExportDirectory_not_recursive Sample.friendly_host
                  (Sample.ramp WII_DISC) 0 Sample.root "" "out"
                  Sample.never_cancel Sample.empty_world)).
  reflexivity.
Defined.

(** A flat export of the sample tree creates [out/] and [out/a.bin]
    only. *)
Example ExportDirectory_flat_sample :
  let w' := ExportDirectory Sample.friendly_host (Sample.ramp WII_DISC) 0
              Sample.root false "" "out" Sample.never_cancel Sample.empty_world in
  elements (host_dirs w') = ["out/"] /\
  map fst (map_to_list (host_files w')) = ["out/a.bin"] /\
  progress_paths (trace w') = ["sub/"; "a.bin"].
Proof. vm_compute. repeat split. Qed.

(** *** Walking the children: one turn of the loop *)

Lemma ExportDirectory_entries_turn io volume partition file_info rest recursive
    filesystem_path export_folder update_progress w :
  let path := filesystem_path +:+ entry_name file_info in
  let export_path := export_folder +:+ "/" +:+ entry_name file_info in
  let w' := ExportDirectory_entries io volume partition (file_info :: rest)
              recursive filesystem_path export_folder update_progress w in
  (update_progress (trace w) path = true /\ w' = emit (EvProgress path true) w)
  \/
  (update_progress (trace w) path = false /\
   let w1 := emit (EvProgress path false) w in
   let w2 := export_entry io volume partition file_info recursive export_path
               (ExportDirectory io volume partition file_info recursive path
                  export_path update_progress) w1 in
   w' = ExportDirectory_entries io volume partition rest recursive
          filesystem_path export_folder update_progress w2 /\
   preserves w1 w2 /\ preserves w2 w' /\
   new_events w w' = EvProgress path false :: new_events w1 w2 ++ new_events w2 w').
Proof.
  cbv zeta. rewrite ExportDirectory_entries_cons. cbv zeta.
  destruct (update_progress (trace w) _); [left; auto|right].
  split; [reflexivity|]. split; [reflexivity|].
  assert (preserves
            (emit (EvProgress (filesystem_path +:+ entry_name file_info) false) w)
            (export_entry io volume partition file_info recursive
               (export_folder +:+ "/" +:+ entry_name file_info)
               (ExportDirectory io volume partition file_info recursive
                  (filesystem_path +:+ entry_name file_info)
                  (export_folder +:+ "/" +:+ entry_name file_info) update_progress)
               (emit (EvProgress (filesystem_path +:+ entry_name file_info) false) w)))
    as H12.
  { apply export_entry_steps.
    - apply preserves_refl.
    - apply preserves_trans.
    - intros e w0 _. apply preserves_emit.
    - apply preserves_export.
    - intros w0. apply ExportDirectory_preserves. }
  split; [exact H12|].
  pose proof (ExportDirectory_entries_preserves io volume partition rest recursive
                filesystem_path export_folder update_progress
                (export_entry io volume partition file_info recursive
                   (export_folder +:+ "/" +:+ entry_name file_info)
                   (ExportDirectory io volume partition file_info recursive
                      (filesystem_path +:+ entry_name file_info)
                      (export_folder +:+ "/" +:+ entry_name file_info)
                      update_progress)
                   (emit (EvProgress (filesystem_path +:+ entry_name file_info) false)
                      w))) as H23.
  split; [exact H23|].
  destruct H12 as [H12 _], H23 as [H23 _].
  rewrite <- (new_events_app _ _ _ H12 H23).
  change (EvProgress (filesystem_path +:+ entry_name file_info) false :: ?l)
    with ([EvProgress (filesystem_path +:+ entry_name file_info) false] ++ l).
  rewrite <- (new_events_emit
                (EvProgress (filesystem_path +:+ entry_name file_info) false) w).
  apply new_events_app; [now eexists|].
  destruct H12 as [evs1 E1], H23 as [evs2 E2].
  exists (evs1 ++ evs2). now rewrite E2, E1, app_assoc.
Qed.

Lemma ExportDirectory_events io volume partition directory recursive
    filesystem_path export_folder update_progress w :
  let w0 := File_CreateFullPath (export_folder +:+ "/") w in
  let w' := ExportDirectory io volume partition directory recursive
              filesystem_path export_folder update_progress w in
  new_events w w' = EvCreateFullPath (export_folder +:+ "/") :: new_events w0 w'.
Proof.
  cbv zeta. rewrite ExportDirectory_eq.
  change (EvCreateFullPath (export_folder +:+ "/") :: ?l)
    with ([EvCreateFullPath (export_folder +:+ "/")] ++ l).
  rewrite <- (new_events_spec w (File_CreateFullPath (export_folder +:+ "/") w)
                [EvCreateFullPath (export_folder +:+ "/")]) by reflexivity.
  apply new_events_app; [now eexists|].
  apply ExportDirectory_entries_preserves.
Qed.

Lemma covered_eq w recursive export_folder directory :
  covered w recursive export_folder directory
  = covered_entries w recursive export_folder (children directory).
Proof. destruct directory. reflexivity. Qed.

Lemma entry_paths_eq recursive filesystem_path directory :
  entry_paths recursive filesystem_path directory
  = entries_paths recursive filesystem_path (children directory).
Proof. destruct directory. reflexivity. Qed.

Lemma covered_mono directory : forall w w' recursive export_folder,
  preserves w w' ->
  covered w recursive export_folder directory = true ->
  covered w' recursive export_folder directory = true.
Proof.
  induction directory as [directory IH] using FileInfo_tree_ind.
  intros w w' recursive export_folder Hpres.
  rewrite !covered_eq. unfold covered_entries.
  rewrite !forallb_forall. intros H c Hin. specialize (H c Hin).
  pose proof (proj1 (List.Forall_forall _ _) IH c Hin) as IHc.
  cbv beta zeta in *. destruct (IsDirectory c); cbn [negb] in *.
  - destruct recursive; [|reflexivity]. now apply (IHc w).
  - now apply (preserves_exists w).
Qed.

Lemma covered_entries_mono entries w w' recursive export_folder :
  preserves w w' ->
  covered_entries w recursive export_folder entries = true ->
  covered_entries w' recursive export_folder entries = true.
Proof.
  intros Hpres. unfold covered_entries.
  rewrite !forallb_forall. intros H c Hin. specialize (H c Hin).
  cbv beta zeta in *. destruct (IsDirectory c); cbn [negb] in *.
  - destruct recursive; [|reflexivity]. now apply (covered_mono c w).
  - now apply (preserves_exists w).
Qed.

Lemma export_entry_directory io volume partition file_info recursive export_path
    recurse w :
  IsDirectory file_info = true ->
  export_entry io volume partition file_info recursive export_path recurse w
  = if recursive then recurse w else w.
Proof. intros H. unfold export_entry. now rewrite H. Qed.

(** *** Exporting onto a complete prior output *)

Lemma ExportDirectory_covered_quiet io volume partition directory :
  forall recursive filesystem_path export_folder update_progress w,
  covered w recursive export_folder directory = true ->
  let w' := ExportDirectory io volume partition directory recursive
              filesystem_path export_folder update_progress w in
  host_files w' = host_files w /\ forallb is_quiet (new_events w w') = true.
Proof.
  induction directory as [directory IH] using FileInfo_tree_ind.
  intros recursive filesystem_path export_folder update_progress w Hcov. cbv zeta.
  rewrite ExportDirectory_events. rewrite ExportDirectory_eq.
  apply (covered_mono _ _ _ _ _ (preserves_create (export_folder +:+ "/") w)) in Hcov.
  rewrite covered_eq in Hcov.
  change (host_files w)
    with (host_files (File_CreateFullPath (export_folder +:+ "/") w)).
  cbn [forallb is_quiet is_open_or_write negb andb].
  revert Hcov. generalize (File_CreateFullPath (export_folder +:+ "/") w). clear w.
  induction IH as [|c cs IHc _ IHcs]; intros w Hcov.
  - cbn [ExportDirectory_entries]. unfold new_events. rewrite drop_all. auto.
  - destruct (ExportDirectory_entries_turn io volume partition c cs recursive
                filesystem_path export_folder update_progress w)
      as [[_ ->] | (_ & Hw' & H12 & H23 & ->)].
    { rewrite new_events_emit. auto. }
    cbv zeta in *.
    set (path := filesystem_path +:+ entry_name c) in *.
    set (export_path := export_folder +:+ "/" +:+ entry_name c) in *.
    set (w1 := emit (EvProgress path false) w) in *.
    set (w2 := export_entry io volume partition c recursive export_path _ w1) in *.
    rewrite Hw' in *. clear Hw'.
    unfold covered_entries in Hcov. cbn [forallb] in Hcov.
    apply andb_true_iff in Hcov as [Hc Hcs]. fold export_path in Hc.
    assert (host_files w2 = host_files w1
            /\ forallb is_quiet (new_events w1 w2) = true) as [Hfiles2 Hquiet2].
    { destruct (IsDirectory c) eqn:Hkind; cbn [negb] in Hc.
      - subst w2. rewrite export_entry_directory by assumption.
        destruct recursive.
        + apply IHc. apply (covered_mono _ w); [apply preserves_emit|exact Hc].
        + unfold new_events. rewrite drop_all. auto.
      - destruct (export_entry_file io volume partition c recursive export_path
                    (ExportDirectory io volume partition c recursive path export_path
                       update_progress) w1 Hkind)
          as [[_ Hskip] | (Hfresh & _)].
        + fold w2 in Hskip. rewrite Hskip. split; [reflexivity|].
          now rewrite (new_events_spec _ _ [EvExists export_path true;
                                            EvNotice export_path])
            by (cbn; now rewrite <- app_assoc).
        + change (path_exists w1 export_path) with (path_exists w export_path)
            in Hfresh. congruence. }
    destruct (IHcs w2) as [Hfiles3 Hquiet3].
    { apply (covered_entries_mono _ w); [|exact Hcs].
      eapply preserves_trans; [apply (preserves_emit (EvProgress path false))|].
      exact H12. }
    split; [now rewrite Hfiles3, Hfiles2|].
    cbn [forallb is_quiet is_open_or_write negb andb].
    now apply forallb_app_true.
Qed.


(** An uncancelled run in which every open succeeded leaves something at
    the export path of every file entry it walked. *)
Lemma ExportDirectory_complete_covers io volume partition directory :
  forall recursive filesystem_path export_folder update_progress w,
  let w' := ExportDirectory io volume partition directory recursive
              filesystem_path export_folder update_progress w in
  forallb is_complete (new_events w w') = true ->
  covered w' recursive export_folder directory = true.
Proof.
  induction directory as [directory IH] using FileInfo_tree_ind.
  intros recursive filesystem_path export_folder update_progress w. cbv zeta.
  rewrite ExportDirectory_events. rewrite ExportDirectory_eq, covered_eq.
  cbn [forallb is_complete is_cancel is_failed_open negb andb].
  generalize (File_CreateFullPath (export_folder +:+ "/") w). clear w.
  induction IH as [|c cs IHc _ IHcs]; intros w Hclean; [reflexivity|].
  destruct (ExportDirectory_entries_turn io volume partition c cs recursive
              filesystem_path export_folder update_progress w)
    as [[_ Hw'] | (_ & Hw' & H12 & H23 & Hnew)].
  { rewrite Hw', new_events_emit in Hclean. discriminate. }
  cbv zeta in *.
  set (path := filesystem_path +:+ entry_name c) in *.
  set (export_path := export_folder +:+ "/" +:+ entry_name c) in *.
  set (w1 := emit (EvProgress path false) w) in *.
  set (w2 := export_entry io volume partition c recursive export_path _ w1) in *.
  rewrite Hnew in Hclean. rewrite Hw' in *. clear Hw' Hnew.
  cbn [forallb is_complete is_cancel is_failed_open negb andb] in Hclean.
  rewrite forallb_app in Hclean. apply andb_true_iff in Hclean as [Hclean2 Hclean3].
  unfold covered_entries. cbn [forallb]. fold export_path.
  apply andb_true_iff. split; [|apply IHcs; exact Hclean3].
  destruct (IsDirectory c) eqn:Hkind; cbn [negb].
  - destruct recursive; [|reflexivity].
    apply (covered_mono _ w2); [exact H23|].
    subst w2. rewrite export_entry_directory in * by assumption.
    apply IHc. exact Hclean2.
  - apply (preserves_exists w2); [exact H23|].
    destruct (export_entry_file io volume partition c recursive export_path
                (ExportDirectory io volume partition c recursive path export_path
                   update_progress) w1 Hkind)
      as [[Hthere _] | (_ & evs & Htrace & _ & _ & _ & _ & Hopened & _)].
    + apply (preserves_exists w1); assumption.
    + cbv zeta in Htrace, Hopened. fold w2 in Htrace, Hopened.
      rewrite (new_events_spec _ _ _ Htrace) in Hclean2.
      cbn [forallb is_complete is_cancel is_failed_open negb andb] in Hclean2.
      apply path_exists_of_file. apply Hopened.
      destruct (open_ok io _ export_path); [reflexivity|discriminate].
Qed.

(** In a run in which the callback never answered true, it was called
    once for each entry of the walk, in order. *)
Lemma ExportDirectory_reports_all io volume partition directory :
  forall recursive filesystem_path export_folder update_progress w,
  let w' := ExportDirectory io volume partition directory recursive
              filesystem_path export_folder update_progress w in
  forallb is_uncancelled (new_events w w') = true ->
  progress_paths (new_events w w') = entry_paths recursive filesystem_path directory.
Proof.
  induction directory as [directory IH] using FileInfo_tree_ind.
  intros recursive filesystem_path export_folder update_progress w. cbv zeta.
  rewrite ExportDirectory_events. rewrite ExportDirectory_eq, entry_paths_eq.
  cbn [forallb is_uncancelled is_cancel negb andb].
  change (progress_paths (EvCreateFullPath (export_folder +:+ "/") :: ?l))
    with (progress_paths l).
  generalize (File_CreateFullPath (export_folder +:+ "/") w). clear w.
  induction IH as [|c cs IHc _ IHcs]; intros w Hclean.
  { cbn [ExportDirectory_entries]. unfold new_events. now rewrite drop_all. }
  destruct (ExportDirectory_entries_turn io volume partition c cs recursive
              filesystem_path export_folder update_progress w)
    as [[_ Hw'] | (_ & Hw' & H12 & H23 & Hnew)].
  { rewrite Hw', new_events_emit in Hclean. discriminate. }
  cbv zeta in *.
  set (path := filesystem_path +:+ entry_name c) in *.
  set (export_path := export_folder +:+ "/" +:+ entry_name c) in *.
  set (w1 := emit (EvProgress path false) w) in *.
  set (w2 := export_entry io volume partition c recursive export_path _ w1) in *.
  rewrite Hnew in *. rewrite Hw' in *. clear Hw' Hnew.
  cbn [forallb is_uncancelled is_cancel negb andb] in Hclean.
  rewrite forallb_app in Hclean. apply andb_true_iff in Hclean as [Hclean2 Hclean3].
  change (EvProgress path false :: ?l) with ([EvProgress path false] ++ l).
  rewrite !progress_paths_app, (IHcs w2 Hclean3).
  unfold entries_paths. cbn [map concat]. fold path.
  change (progress_paths [EvProgress path false]) with [path].
  cbn [app]. f_equal. f_equal.
  destruct (IsDirectory c) eqn:Hkind; cbn [andb].
  - subst w2. rewrite export_entry_directory in * by assumption.
    destruct recursive.
    + apply IHc. exact Hclean2.
    + unfold new_events. now rewrite drop_all.
  - destruct (export_entry_file io volume partition c recursive export_path
                (ExportDirectory io volume partition c recursive path export_path
                   update_progress) w1 Hkind)
      as [[_ Hskip] | (_ & evs & Htrace & Hevs & _)].
    + fold w2 in Hskip. rewrite Hskip.
      now rewrite (new_events_spec _ _ [EvExists export_path true;
                                        EvNotice export_path])
        by (cbn; now rewrite <- app_assoc).
    + cbv zeta in Htrace. fold w2 in Htrace.
      rewrite (new_events_spec _ _ _ Htrace).
      destruct (after_open_no_progress _ Hevs) as (Hp & _).
      change (EvExists export_path false :: EvOpen export_path ?ok :: evs)
        with ([EvExists export_path false; EvOpen export_path ok] ++ evs).
      now rewrite progress_paths_app, Hp.
Qed.

(** *** Exporting again in the same surroundings *)

Lemma settled_eq io update_progress w recursive filesystem_path export_folder
    directory :
  settled io update_progress w recursive filesystem_path export_folder directory
  = settled_entries io update_progress w recursive filesystem_path export_folder
      (children directory).
Proof.
  destruct directory as [name offset size is_dir cs]. cbn [settled children].
  induction cs as [|c cs IH]; [reflexivity|].
  cbn [settled_entries]. now rewrite <- IH.
Qed.

Lemma settled_mono io update_progress directory :
  forall w w' recursive filesystem_path export_folder,
  preserves w w' ->
  settled io update_progress w recursive filesystem_path export_folder directory
    = true ->
  settled io update_progress w' recursive filesystem_path export_folder directory
    = true.
Proof.
  induction directory as [directory IH] using FileInfo_tree_ind.
  intros w w' recursive filesystem_path export_folder Hpres. rewrite !settled_eq.
  induction IH as [|c cs IHc _ IHcs]; [reflexivity|].
  cbn [settled_entries].
  destruct (update_progress [] (filesystem_path +:+ entry_name c)); [reflexivity|].
  intros H. apply andb_true_iff in H as [Hc Hcs]. apply andb_true_iff.
  split; [|now apply IHcs].
  destruct (IsDirectory c); cbn [negb] in *.
  - destruct recursive; [|reflexivity]. now apply (IHc w).
  - apply orb_true_iff in Hc as [Hc|Hc]; apply orb_true_iff; [left|now right].
    now apply (preserves_exists w).
Qed.

Lemma settled_entries_mono io update_progress entries :
  forall w w' recursive filesystem_path export_folder,
  preserves w w' ->
  settled_entries io update_progress w recursive filesystem_path export_folder
    entries = true ->
  settled_entries io update_progress w' recursive filesystem_path export_folder
    entries = true.
Proof.
  intros w w' recursive filesystem_path export_folder Hpres.
  induction entries as [|c cs IHcs]; [reflexivity|].
  cbn [settled_entries].
  destruct (update_progress [] (filesystem_path +:+ entry_name c)); [reflexivity|].
  intros H. apply andb_true_iff in H as [Hc Hcs]. apply andb_true_iff.
  split; [|now apply IHcs].
  destruct (IsDirectory c); cbn [negb] in *.
  - destruct recursive; [|reflexivity]. now apply (settled_mono _ _ _ w).
  - apply orb_true_iff in Hc as [Hc|Hc]; apply orb_true_iff; [left|now right].
    now apply (preserves_exists w).
Qed.

(** Any run, with a path-determined callback and host, leaves the walk
    settled. *)
Lemma ExportDirectory_settles io volume partition update_progress directory :
  path_determined_callback update_progress ->
  path_determined_open io ->
  forall recursive filesystem_path export_folder w,
  settled io update_progress
    (ExportDirectory io volume partition directory recursive filesystem_path
       export_folder update_progress w)
    recursive filesystem_path export_folder directory = true.
Proof.
  intros Hcb Hopen.
  induction directory as [directory IH] using FileInfo_tree_ind.
  intros recursive filesystem_path export_folder w.
  rewrite ExportDirectory_eq, settled_eq.
  generalize (File_CreateFullPath (export_folder +:+ "/") w). clear w.
  induction IH as [|c cs IHc _ IHcs]; intros w; [reflexivity|].
  destruct (ExportDirectory_entries_turn io volume partition c cs recursive
              filesystem_path export_folder update_progress w)
    as [[Htrue _] | (Hfalse & Hw' & H12 & H23 & _)].
  { cbn [settled_entries]. now rewrite (Hcb [] (trace w)), Htrue. }
  cbv zeta in *.
  set (path := filesystem_path +:+ entry_name c) in *.
  set (export_path := export_folder +:+ "/" +:+ entry_name c) in *.
  set (w1 := emit (EvProgress path false) w) in *.
  set (w2 := export_entry io volume partition c recursive export_path _ w1) in *.
  rewrite Hw' in *. clear Hw'.
  cbn [settled_entries]. fold path export_path.
  rewrite (Hcb [] (trace w)), Hfalse.
  apply andb_true_iff. split; [|apply IHcs].
  destruct (IsDirectory c) eqn:Hkind; cbn [negb].
  - destruct recursive; [|reflexivity].
    apply (settled_mono _ _ _ w2); [exact H23|].
    subst w2. rewrite export_entry_directory by assumption. apply IHc.
  - destruct (export_entry_file io volume partition c recursive export_path
                (ExportDirectory io volume partition c recursive path export_path
                   update_progress) w1 Hkind)
      as [[Hthere _] | (_ & evs & _ & _ & _ & _ & _ & Hopened & _)].
    + apply orb_true_iff. left. apply (preserves_exists w2); [exact H23|].
      apply (preserves_exists w1); assumption.
    + cbv zeta in Hopened. fold w2 in Hopened.
      rewrite (Hopen [] (trace w1 ++ [EvExists export_path false])).
      destruct (open_ok io _ export_path); [|apply orb_true_r].
      apply orb_true_iff. left. apply (preserves_exists w2); [exact H23|].
      apply path_exists_of_file. now apply Hopened.
Qed.

(** A run over a settled walk, with the same callback and host, changes
    no file. *)
Lemma ExportDirectory_settled_idle io volume partition update_progress directory :
  path_determined_callback update_progress ->
  path_determined_open io ->
  forall recursive filesystem_path export_folder w,
  settled io update_progress w recursive filesystem_path export_folder directory
    = true ->
  let w' := ExportDirectory io volume partition directory recursive
              filesystem_path export_folder update_progress w in
  host_files w' = host_files w /\ forallb is_idle (new_events w w') = true.
Proof.
  intros Hcb Hopen.
  induction directory as [directory IH] using FileInfo_tree_ind.
  intros recursive filesystem_path export_folder w Hs. cbv zeta.
  rewrite ExportDirectory_events. rewrite ExportDirectory_eq.
  apply (settled_mono _ _ _ _ _ _ _ _ (preserves_create (export_folder +:+ "/") w))
    in Hs.
  rewrite settled_eq in Hs.
  change (host_files w)
    with (host_files (File_CreateFullPath (export_folder +:+ "/") w)).
  cbn [forallb is_idle andb].
  revert Hs. generalize (File_CreateFullPath (export_folder +:+ "/") w). clear w.
  induction IH as [|c cs IHc _ IHcs]; intros w Hs.
  - cbn [ExportDirectory_entries]. unfold new_events. rewrite drop_all. auto.
  - destruct (ExportDirectory_entries_turn io volume partition c cs recursive
                filesystem_path export_folder update_progress w)
      as [[_ ->] | (Hfalse & Hw' & H12 & H23 & ->)].
    { rewrite new_events_emit. auto. }
    cbv zeta in *.
    set (path := filesystem_path +:+ entry_name c) in *.
    set (export_path := export_folder +:+ "/" +:+ entry_name c) in *.
    set (w1 := emit (EvProgress path false) w) in *.
    set (w2 := export_entry io volume partition c recursive export_path _ w1) in *.
    rewrite Hw' in *. clear Hw'.
    cbn [settled_entries] in Hs. fold path export_path in Hs.
    rewrite (Hcb [] (trace w)), Hfalse in Hs.
    apply andb_true_iff in Hs as [Hc Hcs].
    assert (host_files w2 = host_files w1
            /\ forallb is_idle (new_events w1 w2) = true) as [Hfiles2 Hidle2].
    { destruct (IsDirectory c) eqn:Hkind; cbn [negb] in Hc.
      - subst w2. rewrite export_entry_directory by assumption.
        destruct recursive.
        + apply IHc. apply (settled_mono _ _ _ w); [apply preserves_emit|exact Hc].
        + unfold new_events. rewrite drop_all. auto.
      - destruct (export_entry_file io volume partition c recursive export_path
                    (ExportDirectory io volume partition c recursive path export_path
                       update_progress) w1 Hkind)
          as [[_ Hskip] | (Hfresh & evs & Htrace & _ & Hfailed & _ & _ & _ & Hsame)].
        + fold w2 in Hskip. rewrite Hskip. split; [reflexivity|].
          now rewrite (new_events_spec _ _ [EvExists export_path true;
                                            EvNotice export_path])
            by (cbn; now rewrite <- app_assoc).
        + cbv zeta in Htrace, Hfailed, Hsame. fold w2 in Htrace, Hsame.
          change (path_exists w1 export_path) with (path_exists w export_path)
            in Hfresh.
          rewrite Hfresh in Hc. cbn [orb] in Hc. apply negb_true_iff in Hc.
          rewrite (Hopen _ (trace w1 ++ [EvExists export_path false])) in Hc.
          rewrite Hc in Htrace. rewrite (Hfailed Hc) in Htrace.
          split; [now apply Hsame|].
          now rewrite (new_events_spec _ _ _ Htrace). }
    destruct (IHcs w2) as [Hfiles3 Hidle3].
    { apply (settled_entries_mono _ _ _ w); [|exact Hcs].
      eapply preserves_trans; [apply (preserves_emit (EvProgress path false))|].
      exact H12. }
    split; [now rewrite Hfiles3, Hfiles2|].
    cbn [forallb is_idle andb]. now apply forallb_app_true.
Qed.

(** C6 (as amended). A file child whose export path already holds
    something is skipped with a notice; over a whole [ExportDirectory] every file
    that was on the host keeps its content.  Running the same export
    again onto what a run left opens no file successfully and writes to
    none, so that every file stays as it is: after a run that was not
    cancelled and in which every file could be opened, whatever the
    callback does the second time; and after any run at all when the
    callback and the host answer the second time as they did the first
    (their answers depend on the path only).  In a run that was not
    cancelled the callback was called once for each entry of the walk,
    in walk order. *)
Theorem ExportDirectory_never_overwrites io volume partition directory recursive
    filesystem_path export_folder update_progress w :
  let w' := ExportDirectory io volume partition directory recursive
              filesystem_path export_folder update_progress w in
  (forall c export_path recurse w0,
     IsDirectory c = false -> path_exists w0 export_path = true ->
     export_entry io volume partition c recursive export_path recurse w0
     = emit (EvNotice export_path) (emit (EvExists export_path true) w0)) /\
  (forall q content,
     host_files w !! q = Some content -> host_files w' !! q = Some content) /\
  (forallb is_complete (new_events w w') = true ->
   forall update_progress2,
     let w'' := ExportDirectory io volume partition directory recursive
                  filesystem_path export_folder update_progress2 w' in
     host_files w'' = host_files w' /\
     forallb is_quiet (new_events w' w'') = true) /\
  (path_determined_callback update_progress -> path_determined_open io ->
   let w'' := ExportDirectory io volume partition directory recursive
                filesystem_path export_folder update_progress w' in
   host_files w'' = host_files w' /\
   forallb is_idle (new_events w' w'') = true) /\
  (forallb is_uncancelled (new_events w w') = true ->
   progress_paths (new_events w w')
     = entry_paths recursive filesystem_path directory).
Proof.
  cbv zeta. split; [|split; [|split; [|split]]].
  - intros c export_path recurse w0 Hfile Hthere.
    destruct (export_entry_file io volume partition c recursive export_path
                recurse w0 Hfile) as [[_ H] | [H _]]; [exact H|congruence].
  - apply ExportDirectory_preserves.
  - intros Hcomplete update_progress2.
    apply ExportDirectory_covered_quiet.
    now apply ExportDirectory_complete_covers.
  - intros Hcb Hopen.
    apply ExportDirectory_settled_idle; [assumption|assumption|].
    now apply ExportDirectory_settles.
  - apply ExportDirectory_reports_all.
Qed.

Lemma ExportDirectory_never_overwrites_witness :
  let w' := ExportDirectory Sample.friendly_host (Sample.ramp WII_DISC) 0
              Sample.root true "" "out" Sample.never_cancel Sample.empty_world in
  host_files (ExportDirectory Sample.friendly_host (Sample.ramp WII_DISC) 0
                Sample.root true "" "out" (Sample.cancel_at "a.bin") w')
  = host_files w' /\
  host_files (ExportDirectory Sample.friendly_host (Sample.ramp WII_DISC) 0
                Sample.root true "" "out" Sample.never_cancel w')
  = host_files w' /\
  progress_paths (new_events Sample.empty_world w') = ["sub/"; "sub/b.bin"; "a.bin"].
Proof.
  cbv zeta.
  destruct (ExportDirectory_never_overwrites Sample.friendly_host
              (Sample.ramp WII_DISC) 0 Sample.root true "" "out"
              Sample.never_cancel Sample.empty_world)
    as (_ & _ & Hagain & Hsame & Hall).
  split; [|split].
  - apply Hagain. vm_compute. reflexivity.
  - apply Hsame; intros t t' path; reflexivity.
  - rewrite Hall by (vm_compute; reflexivity). reflexivity.
Defined.

(** After a first export of the sample tree, a second one only looks and
    reports. *)
Example ExportDirectory_again_sample :
  let w' := ExportDirectory Sample.friendly_host (Sample.ramp WII_DISC) 0
              Sample.root true "" "out" Sample.never_cancel Sample.empty_world in
  new_events w'
    (ExportDirectory Sample.friendly_host (Sample.ramp WII_DISC) 0 Sample.root
       true "" "out" Sample.never_cancel w')
  = [EvCreateFullPath "out/"; EvProgress "sub/" false;
     EvCreateFullPath "out/sub//"; EvProgress "sub/b.bin" false;
     EvExists "out/sub//b.bin" true; EvNotice "out/sub//b.bin";
     EvProgress "a.bin" false; EvExists "out/a.bin" true; EvNotice "out/a.bin"].
Proof. vm_compute. reflexivity. Qed.

(** C6, as stated, fails: a second run of the same export onto what the
    first left can write file contents.  With a callback that answers
    true once, for [a.bin], the first run leaves [a.bin] out and the
    second, with the same callback, exports it; on a host where the first
    open fails, the first run leaves [b.bin] out and the second, on the
    same host, exports it. *)
Lemma ExportDirectory_rerun_writes :
  (let w' := ExportDirectory Sample.friendly_host (Sample.ramp WII_DISC) 0
               Sample.root true "" "out" (Sample.cancel_once "a.bin")
               Sample.empty_world in
   let w'' := ExportDirectory Sample.friendly_host (Sample.ramp WII_DISC) 0
                Sample.root true "" "out" (Sample.cancel_once "a.bin") w' in
   host_files w' !! "out/a.bin" = None /\
   host_files w'' !! "out/a.bin"
   = Some [Byte.x10; Byte.x11; Byte.x12; Byte.x13; Byte.x14] /\
   new_events w' w''
   = [EvCreateFullPath "out/"; EvProgress "sub/" false;
      EvCreateFullPath "out/sub//"; EvProgress "sub/b.bin" false;
      EvExists "out/sub//b.bin" true; EvNotice "out/sub//b.bin";
      EvProgress "a.bin" false; EvExists "out/a.bin" false;
      EvOpen "out/a.bin" true; EvRead 0 16 5 true;
      EvWrite "out/a.bin" [Byte.x10; Byte.x11; Byte.x12; Byte.x13; Byte.x14]
        true]) /\
  (let w' := ExportDirectory Sample.slow_start_host (Sample.ramp WII_DISC) 0
               Sample.root true "" "out" Sample.never_cancel
               Sample.empty_world in
   let w'' := ExportDirectory Sample.slow_start_host (Sample.ramp WII_DISC) 0
                Sample.root true "" "out" Sample.never_cancel w' in
   host_files w' !! "out/sub//b.bin" = None /\
   host_files w'' !! "out/sub//b.bin" = Some [Byte.x20; Byte.x21; Byte.x22] /\
   new_events w' w''
   = [EvCreateFullPath "out/"; EvProgress "sub/" false;
      EvCreateFullPath "out/sub//"; EvProgress "sub/b.bin" false;
      EvExists "out/sub//b.bin" false; EvOpen "out/sub//b.bin" true;
      EvRead 0 32 3 true;
      EvWrite "out/sub//b.bin" [Byte.x20; Byte.x21; Byte.x22] true;
      EvProgress "a.bin" false; EvExists "out/a.bin" true;
      EvNotice "out/a.bin"]).
Proof. vm_compute. repeat split; reflexivity. Qed.

(** *** The host is what the events made it *)

Lemma replay_app evs1 evs2 h : replay (evs1 ++ evs2) h = replay evs2 (replay evs1 h).
Proof. apply foldl_app. Qed.

Lemma replayed_refl w : replayed w w.
Proof. exists []. now rewrite app_nil_r. Qed.

Lemma replayed_trans w1 w2 w3 : replayed w1 w2 -> replayed w2 w3 -> replayed w1 w3.
Proof.
  intros (evs1 & T1 & H1) (evs2 & T2 & H2). exists (evs1 ++ evs2).
  split; [now rewrite T2, T1, app_assoc|]. now rewrite replay_app, <- H1.
Qed.

Lemma replayed_passive e w : is_passive e = true -> replayed w (emit e w).
Proof.
  intros He. exists [e]. split; [reflexivity|].
  unfold replay, host_of. cbn. now destruct e.
Qed.

Lemma ExportDirectory_replayed io volume partition directory recursive
    filesystem_path export_folder update_progress w :
  replayed w (ExportDirectory io volume partition directory recursive
                filesystem_path export_folder update_progress w).
Proof.
  apply ExportDirectory_steps.
  - apply replayed_refl.
  - apply replayed_trans.
  - apply replayed_passive.
  - intros path w0. exists [EvCreateFullPath path]. split; reflexivity.
  - intros fi export_path w0 _. apply ExportFile_steps.
    + apply replayed_refl.
    + apply replayed_trans.
    + apply replayed_passive.
    + intros path w1. unfold IOFile_open.
      exists [EvOpen path (open_ok io (trace w1) path)]. split; [reflexivity|].
      unfold replay, host_of. cbn. now destruct (open_ok io (trace w1) path).
    + intros path data n w1. unfold IOFile_WriteBytes.
      eexists [EvWrite path _ _]. split; [reflexivity|].
      unfold replay, host_of. cbn. now destruct (write_ok io (trace w1) path _).
Qed.

Lemma replay_cancels post h : forallb is_cancel post = true -> replay post h = h.
Proof.
  revert h. induction post as [|e post IH]; intros h; [reflexivity|].
  cbn [forallb]. intros H. apply andb_true_iff in H as [He Hpost].
  unfold replay. cbn [foldl]. fold (replay post (apply_event h e)).
  rewrite IH by assumption. destruct e; try discriminate.
  destruct cancel; [reflexivity|discriminate].
Qed.

(** *** Cancellation *)

Lemma cancelled_later update_progress w w' :
  (exists evs, trace w' = trace w ++ evs) ->
  cancelled update_progress w -> cancelled update_progress w'.
Proof.
  intros [evs Ht] Hc t' q. rewrite Ht, <- app_assoc. apply Hc.
Qed.

Lemma latched_cancelled update_progress w path :
  latched update_progress ->
  update_progress (trace w) path = true ->
  cancelled update_progress (emit (EvProgress path true) w).
Proof.
  intros Hl Htrue t' q. cbn [emit trace]. rewrite <- app_assoc. now apply Hl.
Qed.

(** Once the callback answers true for good, the loop returns at its
    next entry. *)
Lemma ExportDirectory_entries_cancelled io volume partition entries recursive
    filesystem_path export_folder update_progress w :
  cancelled update_progress w ->
  ExportDirectory_entries io volume partition entries recursive filesystem_path
    export_folder update_progress w
  = match entries with
    | [] => w
    | c :: _ => emit (EvProgress (filesystem_path +:+ entry_name c) true) w
    end.
Proof.
  intros Hc. destruct entries as [|c cs]; [reflexivity|].
  rewrite ExportDirectory_entries_cons. cbv zeta.
  specialize (Hc [] (filesystem_path +:+ entry_name c)).
  rewrite app_nil_r in Hc. now rewrite Hc.
Qed.

Lemma height_child directory c :
  In c (children directory) -> (height c < height directory)%nat.
Proof.
  destruct directory as [name offset size is_dir cs]. cbn [children height].
  induction cs as [|c' cs IH]; [contradiction|].
  cbn [foldr]. intros [-> | Hin]; [lia|]. specialize (IH Hin). lia.
Qed.

(** *** What is there when the callback is asked stays *)

Lemma steady_refl w : steady w w.
Proof.
  split; [apply preserves_refl|]. split; [apply replayed_refl|].
  intros pre path answer post H. unfold new_events in H. rewrite drop_all in H.
  now destruct pre.
Qed.

Lemma steady_trans w1 w2 w3 : steady w1 w2 -> steady w2 w3 -> steady w1 w3.
Proof.
  intros (P12 & R12 & K12) (P23 & R23 & K23).
  split; [eapply preserves_trans; eassumption|].
  split; [eapply replayed_trans; eassumption|].
  intros pre path answer post Hsplit.
  destruct R12 as (e12 & T12 & H12). destruct R23 as (e23 & T23 & H23).
  rewrite (new_events_spec w1 w3 (e12 ++ e23)) in Hsplit
    by (now rewrite T23, T12, app_assoc).
  destruct P23 as (_ & Hdirs23 & Hfiles23).
  apply app_eq_app in Hsplit as [l [[E1 E2] | [E1 E2]]].
  - destruct l as [|e l].
    + cbn [app] in E2. rewrite app_nil_r in E1. subst e12. rewrite <- H12.
      apply (K23 [] path answer post). rewrite (new_events_spec _ _ _ T23).
      now symmetry.
    + injection E2 as <- ->.
      destruct (K12 pre path answer l) as [Hdirs Hfiles].
      { now rewrite (new_events_spec _ _ _ T12). }
      split; [etrans; eassumption|]. intros q content Hq.
      apply Hfiles23. now apply Hfiles.
  - subst pre. rewrite replay_app, <- H12. apply (K23 l path answer post).
    now rewrite (new_events_spec _ _ _ T23).
Qed.

Lemma steady_passive e w : is_passive e = true -> steady w (emit e w).
Proof.
  intros He. split; [apply preserves_emit|]. split; [now apply replayed_passive|].
  intros pre path answer post H. rewrite new_events_emit in H.
  destruct pre as [|e0 pre]; [|destruct pre; discriminate H].
  cbn [replay foldl host_of fst snd emit host_files host_dirs]. auto.
Qed.

Lemma steady_create path w : steady w (File_CreateFullPath path w).
Proof.
  split; [apply preserves_create|].
  split; [exists [EvCreateFullPath path]; split; reflexivity|].
  intros pre p answer post H.
  rewrite (new_events_spec _ _ [EvCreateFullPath path]) in H by reflexivity.
  destruct pre as [|e0 pre]; [discriminate H|destruct pre; discriminate H].
Qed.

Lemma ExportFile_replayed io volume partition file_info export_path w :
  replayed w (snd (ExportFile io volume partition file_info export_path w)).
Proof.
  apply ExportFile_steps.
  - apply replayed_refl.
  - apply replayed_trans.
  - apply replayed_passive.
  - intros path w1. unfold IOFile_open.
    exists [EvOpen path (open_ok io (trace w1) path)]. split; [reflexivity|].
    unfold replay, host_of. cbn. now destruct (open_ok io (trace w1) path).
  - intros path data n w1. unfold IOFile_WriteBytes.
    eexists [EvWrite path _ _]. split; [reflexivity|].
    unfold replay, host_of. cbn. now destruct (write_ok io (trace w1) path _).
Qed.

(** [ExportFile] does not ask the callback. *)
Lemma ExportFile_asks_nothing io volume partition fi export_path w pre path
    answer post :
  new_events w (snd (ExportFile io volume partition (Some fi) export_path w))
  <> pre ++ EvProgress path answer :: post.
Proof.
  unfold ExportFile. destruct (IsDirectory fi).
  { cbn [snd]. unfold new_events. rewrite drop_all. now destruct pre. }
  destruct (ExportData io volume partition (GetOffset fi) (GetSize fi) export_path w)
    as [r w'] eqn:Hrun.
  unfold ExportData in Hrun.
  destruct (ExportData_limited_frame _ _ _ _ _ _ _ _ _ _ Hrun)
    as (_ & _ & _ & _ & evs & Htrace & Hevs).
  cbn [snd]. rewrite (new_events_spec _ _ _ Htrace). intros H.
  assert (In (EvProgress path answer)
            (EvOpen export_path (open_ok io (trace w) export_path) :: evs)) as Hin
    by (rewrite H; apply in_elt).
  destruct Hin as [Heq | Hin]; [discriminate Heq|].
  pose proof (proj1 (forallb_forall _ _) Hevs _ Hin) as Hk. discriminate Hk.
Qed.

Lemma steady_export io volume partition fi export_path w :
  path_exists w export_path = false ->
  steady w (snd (ExportFile io volume partition (Some fi) export_path w)).
Proof.
  intros Hfresh. split; [now apply preserves_export|].
  split; [apply ExportFile_replayed|].
  intros pre path answer post H. now apply ExportFile_asks_nothing in H.
Qed.

Lemma ExportDirectory_steady io volume partition directory recursive
    filesystem_path export_folder update_progress w :
  steady w (ExportDirectory io volume partition directory recursive
              filesystem_path export_folder update_progress w).
Proof.
  apply ExportDirectory_steps.
  - apply steady_refl.
  - apply steady_trans.
  - apply steady_passive.
  - apply steady_create.
  - apply steady_export.
Qed.

(** *** Unwinding from a true answer *)

Lemma unwinding_cons c0 entries filesystem_path depth tail :
  unwinding entries filesystem_path depth tail ->
  unwinding (c0 :: entries) filesystem_path depth tail.
Proof.
  intros H.
  destruct H as [entries fp before c rest E
                | entries fp before c rest depth tail E Hdir Hsub]; subst entries.
  - now apply (unwinding_here _ _ (c0 :: before) c rest).
  - now apply (unwinding_below _ _ (c0 :: before) c rest).
Qed.

Lemma unwinding_shape entries filesystem_path depth tail :
  unwinding entries filesystem_path depth tail ->
  exists path post,
    tail = EvProgress path true :: post /\
    forallb is_cancel post = true /\ (length post <= depth)%nat.
Proof.
  induction 1 as [entries fp before c rest E
                 | entries fp before c rest depth tail E Hdir Hsub IH].
  - eexists _, []. split; [reflexivity|]. split; [reflexivity|cbn; lia].
  - destruct IH as (path & post & -> & Hpost & Hlen).
    eexists path, (post ++ _). split; [reflexivity|].
    split.
    + apply forallb_app_true; [exact Hpost|]. now destruct rest.
    + rewrite length_app. destruct rest; cbn [length]; lia.
Qed.

Lemma unwinding_depth entries filesystem_path depth tail :
  unwinding entries filesystem_path depth tail ->
  forall h, (forall c, In c entries -> (height c <= h)%nat) -> (depth <= h)%nat.
Proof.
  induction 1 as [entries fp before c rest E
                 | entries fp before c rest depth tail E Hdir Hsub IH];
    intros h Hh; [lia|].
  assert (height c <= h)%nat as Hc by (apply Hh; subst entries; apply in_elt).
  assert (depth <= height c - 1)%nat as Hdepth.
  { apply IH. intros c' Hin. pose proof (height_child _ _ Hin). lia. }
  destruct c as [name offset size is_dir cs]. cbn [height] in *. lia.
Qed.

(** With a latched callback a walk is either never cancelled, or it
    unwinds from the first true answer. *)
Lemma ExportDirectory_unwinds io volume partition update_progress directory :
  latched update_progress ->
  forall recursive filesystem_path export_folder w,
  let w' := ExportDirectory io volume partition directory recursive
              filesystem_path export_folder update_progress w in
  forallb is_uncancelled (new_events w w') = true
  \/ (cancelled update_progress w'
      /\ exists pre depth tail,
           new_events w w' = pre ++ tail /\
           forallb is_uncancelled pre = true /\
           unwinding (children directory) filesystem_path depth tail).
Proof.
  intros Hlatched.
  induction directory as [directory IH] using FileInfo_tree_ind.
  intros recursive filesystem_path export_folder w. cbv zeta.
  rewrite ExportDirectory_events. rewrite ExportDirectory_eq.
  set (w0 := File_CreateFullPath (export_folder +:+ "/") w).
  enough (forallb is_uncancelled
            (new_events w0
               (ExportDirectory_entries io volume partition (children directory)
                  recursive filesystem_path export_folder update_progress w0)) = true
          \/ (cancelled update_progress
                (ExportDirectory_entries io volume partition (children directory)
                   recursive filesystem_path export_folder update_progress w0)
              /\ exists pre depth tail,
                   new_events w0
                     (ExportDirectory_entries io volume partition
                        (children directory) recursive filesystem_path
                        export_folder update_progress w0) = pre ++ tail /\
                   forallb is_uncancelled pre = true /\
                   unwinding (children directory) filesystem_path depth tail))
    as Hloop.
  { destruct Hloop as [Hnone | [Hc (pre & depth & tail & E & Hpre & Hun)]].
    - left. cbn [forallb is_uncancelled is_cancel negb andb]. exact Hnone.
    - right. split; [exact Hc|].
      exists (EvCreateFullPath (export_folder +:+ "/") :: pre), depth, tail.
      split; [now rewrite E|]. split; [exact Hpre|exact Hun]. }
  generalize w0. clear w w0.
  induction IH as [|c cs IHc _ IHcs]; intros w.
  { left. cbn [ExportDirectory_entries]. unfold new_events. now rewrite drop_all. }
  destruct (ExportDirectory_entries_turn io volume partition c cs recursive
              filesystem_path export_folder update_progress w)
    as [[Htrue ->] | (_ & Hw' & H12 & H23 & ->)].
  { right. split; [now apply latched_cancelled|].
    rewrite new_events_emit.
    exists [], 0%nat, [EvProgress (filesystem_path +:+ entry_name c) true].
    split; [reflexivity|]. split; [reflexivity|].
    now apply (unwinding_here _ _ [] c cs). }
  cbv zeta in *.
  set (path := filesystem_path +:+ entry_name c) in *.
  set (export_path := export_folder +:+ "/" +:+ entry_name c) in *.
  set (w1 := emit (EvProgress path false) w) in *.
  set (w2 := export_entry io volume partition c recursive export_path _ w1) in *.
  rewrite Hw' in *. clear Hw'.
  assert (forallb is_uncancelled (new_events w1 w2) = true
          \/ (cancelled update_progress w2 /\ IsDirectory c = true
              /\ exists pre depth tail,
                   new_events w1 w2 = pre ++ tail /\
                   forallb is_uncancelled pre = true /\
                   unwinding (children c) path depth tail))
    as Hentry.
  { destruct (IsDirectory c) eqn:Hkind.
    - subst w2. rewrite export_entry_directory by assumption.
      destruct recursive.
      + destruct (IHc true path export_path w1) as [Hnone | [Hc Hun]];
          [now left|right; auto].
      + left. unfold new_events. now rewrite drop_all.
    - left.
      destruct (export_entry_file io volume partition c recursive export_path
                  (ExportDirectory io volume partition c recursive path export_path
                     update_progress) w1 Hkind)
        as [[_ Hskip] | (_ & evs & Htrace & Hevs & _)].
      + fold w2 in Hskip. rewrite Hskip.
        now rewrite (new_events_spec _ _ [EvExists export_path true;
                                          EvNotice export_path])
          by (cbn; now rewrite <- app_assoc).
      + cbv zeta in Htrace. fold w2 in Htrace.
        rewrite (new_events_spec _ _ _ Htrace).
        destruct (after_open_no_progress _ Hevs) as (_ & _ & Hnone).
        cbn [forallb is_uncancelled is_cancel negb andb]. exact Hnone. }
  change (EvProgress path false :: ?l) with ([EvProgress path false] ++ l).
  destruct Hentry
    as [Hnone2 | (Hcancelled2 & Hdir & pre2 & depth2 & tail2 & E2 & Hpre2 & Hun2)].
  - destruct (IHcs w2)
      as [Hnone3 | [Hcancelled3 (pre3 & depth3 & tail3 & E3 & Hpre3 & Hun3)]].
    + left. now repeat apply forallb_app_true.
    + right. split; [exact Hcancelled3|].
      exists ([EvProgress path false] ++ new_events w1 w2 ++ pre3), depth3, tail3.
      split; [rewrite E3; now rewrite <- !app_assoc|].
      split; [now repeat apply forallb_app_true|].
      now apply unwinding_cons.
  - right. rewrite (ExportDirectory_entries_cancelled _ _ _ cs) in * by assumption.
    pose proof (unwinding_below (c :: cs) filesystem_path [] c cs depth2 tail2
                  eq_refl Hdir Hun2) as Hun.
    destruct cs as [|c' cs'].
    + split; [exact Hcancelled2|].
      exists ([EvProgress path false] ++ pre2), (S depth2), (tail2 ++ []).
      split.
      { unfold new_events at 2. rewrite drop_all, E2.
        now rewrite <- !app_assoc. }
      split; [now apply forallb_app_true|exact Hun].
    + split; [apply (cancelled_later _ w2); [now eexists|exact Hcancelled2]|].
      exists ([EvProgress path false] ++ pre2), (S depth2),
        (tail2 ++ [EvProgress (filesystem_path +:+ entry_name c') true]).
      split; [rewrite new_events_emit, E2; now rewrite <- !app_assoc|].
      split; [now apply forallb_app_true|exact Hun].
Qed.

(** A nested invocation that has returned, for whatever reason, is
    followed by the callback for the next entry of the enclosing loop. *)
Lemma ExportDirectory_entries_goes_on io volume partition c next rest
    filesystem_path export_folder update_progress w :
  IsDirectory c = true ->
  update_progress (trace w) (filesystem_path +:+ entry_name c) = false ->
  let path := filesystem_path +:+ entry_name c in
  let next_path := filesystem_path +:+ entry_name next in
  let w1 := emit (EvProgress path false) w in
  let w2 := ExportDirectory io volume partition c true path
              (export_folder +:+ "/" +:+ entry_name c) update_progress w1 in
  exists post,
    new_events w
      (ExportDirectory_entries io volume partition (c :: next :: rest) true
         filesystem_path export_folder update_progress w)
    = EvProgress path false
      :: new_events w1 w2
         ++ EvProgress next_path (update_progress (trace w2) next_path) :: post.
Proof.
  intros Hdir Hfalse. cbv zeta.
  destruct (ExportDirectory_entries_turn io volume partition c (next :: rest) true
              filesystem_path export_folder update_progress w)
    as [[Htrue _] | (_ & Hw' & _ & _ & Hevs)]; [congruence|].
  cbv zeta in *. rewrite Hevs, Hw'. clear Hevs Hw'.
  rewrite export_entry_directory by assumption.
  set (w2 := ExportDirectory io volume partition c true _ _ update_progress _).
  destruct (ExportDirectory_entries_turn io volume partition next rest true
              filesystem_path export_folder update_progress w2)
    as [[Htrue ->] | (Hfalse2 & _ & _ & _ & ->)].
  - rewrite new_events_emit, Htrue. now exists [].
  - cbv zeta. rewrite Hfalse2. eexists. reflexivity.
Qed.

(** C2 (as amended). A true answer of the callback ends the loop of the
    [ExportDirectory] invocation that asked: nothing more of that
    directory is visited.  The return is not propagated: an invocation is
    the loop over its directory's children, and when the invocation for a
    child directory has returned, for whatever reason, the enclosing loop
    asks the callback for its next entry and goes on from the answer.
    Whatever was on the host when the callback was asked, every exported
    file among it, is there at the end of any run.  When the callback is
    latched (once true, true ever after) a call is either never cancelled,
    or it unwinds from the first true answer: the loop that asked
    returns, and each enclosing loop asks exactly once more, for the
    entry after the directory it had descended into, if there is one, is
    answered true and returns; so after the first true answer come only
    true answers, at most one for each enclosing directory level, and the
    host is left as it was at the first true answer: nothing more is
    exported and what was exported stays. *)
Theorem ExportDirectory_cancellation io volume partition directory recursive
    filesystem_path export_folder update_progress w :
  let w' := ExportDirectory io volume partition directory recursive
              filesystem_path export_folder update_progress w in
  (forall c rest fp ef w0,
     update_progress (trace w0) (fp +:+ entry_name c) = true ->
     ExportDirectory_entries io volume partition (c :: rest) recursive fp ef
       update_progress w0
     = emit (EvProgress (fp +:+ entry_name c) true) w0) /\
  w' = ExportDirectory_entries io volume partition (children directory) recursive
         filesystem_path export_folder update_progress
         (File_CreateFullPath (export_folder +:+ "/") w) /\
  (forall c next rest fp ef w0,
     recursive = true -> IsDirectory c = true ->
     update_progress (trace w0) (fp +:+ entry_name c) = false ->
     let w1 := emit (EvProgress (fp +:+ entry_name c) false) w0 in
     let w2 := ExportDirectory io volume partition c recursive
                 (fp +:+ entry_name c) (ef +:+ "/" +:+ entry_name c)
                 update_progress w1 in
     exists post,
       new_events w0
         (ExportDirectory_entries io volume partition (c :: next :: rest)
            recursive fp ef update_progress w0)
       = EvProgress (fp +:+ entry_name c) false
         :: new_events w1 w2
            ++ EvProgress (fp +:+ entry_name next)
                 (update_progress (trace w2) (fp +:+ entry_name next))
               :: post) /\
  keeps_reported w w' /\
  (latched update_progress ->
   forallb is_uncancelled (new_events w w') = true
   \/ exists pre depth path post,
        new_events w w' = pre ++ EvProgress path true :: post /\
        forallb is_uncancelled pre = true /\
        unwinding (children directory) filesystem_path depth
          (EvProgress path true :: post) /\
        forallb is_cancel post = true /\
        (length post <= depth)%nat /\
        (depth <= height directory - 1)%nat /\
        stopped_walk (height directory - 1) (new_events w w') pre /\
        host_of w' = replay pre (host_of w)).
Proof.
  cbv zeta. split; [|split; [|split; [|split]]].
  - intros c rest fp ef w0 Htrue. rewrite ExportDirectory_entries_cons. cbv zeta.
    now rewrite Htrue.
  - apply ExportDirectory_eq.
  - intros c next rest fp ef w0 -> Hdir Hfalse.
    now apply ExportDirectory_entries_goes_on.
  - apply ExportDirectory_steady.
  - intros Hlatched.
    destruct (ExportDirectory_unwinds io volume partition update_progress directory
                Hlatched recursive filesystem_path export_folder w)
      as [Hnone | [_ (pre & depth & tail & E & Hpre & Hun)]]; [now left|right].
    destruct (unwinding_shape _ _ _ _ Hun) as (path & post & -> & Hpost & Hlen).
    assert (depth <= height directory - 1)%nat as Hdepth.
    { apply (unwinding_depth _ _ _ _ Hun). intros c Hin.
      pose proof (height_child _ _ Hin). lia. }
    exists pre, depth, path, post.
    split; [exact E|]. split; [exact Hpre|]. split; [exact Hun|].
    split; [exact Hpost|]. split; [exact Hlen|]. split; [exact Hdepth|].
    split.
    + exists path, post. repeat split; try assumption. lia.
    + destruct (ExportDirectory_replayed io volume partition directory recursive
                  filesystem_path export_folder update_progress w)
        as (evs & Htrace & Hhost).
      rewrite (new_events_spec _ _ _ Htrace) in E. subst evs.
      rewrite Hhost, replay_app. unfold replay at 1. cbn [foldl apply_event].
      now apply replay_cancels.
Qed.

Lemma ExportDirectory_cancellation_witness :
  let w' := ExportDirectory Sample.friendly_host (Sample.ramp WII_DISC) 0
              Sample.root true "" "out" (Sample.cancel_from "sub/b.bin")
              Sample.empty_world in
  forallb is_uncancelled (new_events Sample.empty_world w') = true
  \/ exists pre depth path post,
       new_events Sample.empty_world w' = pre ++ EvProgress path true :: post /\
       forallb is_uncancelled pre = true /\
       unwinding (children Sample.root) "" depth (EvProgress path true :: post) /\
       forallb is_cancel post = true /\
       (length post <= depth)%nat /\
       (depth <= height Sample.root - 1)%nat /\
       stopped_walk (height Sample.root - 1) (new_events Sample.empty_world w') pre /\
       host_of w' = replay pre (host_of Sample.empty_world).
Proof.
  apply (proj2 (proj2 (proj2 (proj2
           (ExportDirectory_cancellation Sample.friendly_host
              (Sample.ramp WII_DISC) 0 Sample.root true "" "out"
              (Sample.cancel_from "sub/b.bin") Sample.empty_world))))).
  intros t path Htrue t' q. unfold Sample.cancel_from.
  rewrite existsb_app. cbn. now rewrite orb_true_r.
Defined.

(** With the latched callback the sample walk asks once more, for
    [a.bin], and exports nothing. *)
Example ExportDirectory_latched_sample :
  let w' := ExportDirectory Sample.friendly_host (Sample.ramp WII_DISC) 0
              Sample.root true "" "out" (Sample.cancel_from "sub/b.bin")
              Sample.empty_world in
  trace w' = [EvCreateFullPath "out/"; EvProgress "sub/" false;
              EvCreateFullPath "out/sub//"; EvProgress "sub/b.bin" true;
              EvProgress "a.bin" true] /\
  host_files w' = ∅.
Proof. vm_compute. split; reflexivity. Qed.

(** C2, as stated, fails: a true answer inside a subdirectory ends that
    subdirectory's loop only.  With a callback that answers true for
    [sub/b.bin] alone, the callback is called again for [a.bin], and
    [a.bin] is exported. *)
Lemma ExportDirectory_cancel_not_propagated :
  new_events Sample.empty_world
    (ExportDirectory Sample.friendly_host (Sample.ramp WII_DISC) 0 Sample.root
       true "" "out" (Sample.cancel_at "sub/b.bin") Sample.empty_world)
  = [EvCreateFullPath "out/"; EvProgress "sub/" false;
     EvCreateFullPath "out/sub//"; EvProgress "sub/b.bin" true;
     EvProgress "a.bin" false; EvExists "out/a.bin" false;
     EvOpen "out/a.bin" true; EvRead 0 16 5 true;
     EvWrite "out/a.bin" [Byte.x10; Byte.x11; Byte.x12; Byte.x13; Byte.x14] true]
  /\ ~ stops_at_first_cancel
         (new_events Sample.empty_world
            (ExportDirectory Sample.friendly_host (Sample.ramp WII_DISC) 0
               Sample.root true "" "out" (Sample.cancel_at "sub/b.bin")
               Sample.empty_world)).
Proof.
  assert (new_events Sample.empty_world
            (ExportDirectory Sample.friendly_host (Sample.ramp WII_DISC) 0 Sample.root
               true "" "out" (Sample.cancel_at "sub/b.bin") Sample.empty_world)
          = [EvCreateFullPath "out/"; EvProgress "sub/" false;
             EvCreateFullPath "out/sub//"; EvProgress "sub/b.bin" true;
             EvProgress "a.bin" false; EvExists "out/a.bin" false;
             EvOpen "out/a.bin" true; EvRead 0 16 5 true;
             EvWrite "out/a.bin"
               [Byte.x10; Byte.x11; Byte.x12; Byte.x13; Byte.x14] true]) as E
    by (vm_compute; reflexivity).
  split; [exact E|]. rewrite E. intros Hclaim.
  specialize (Hclaim [EvCreateFullPath "out/"; EvProgress "sub/" false;
                      EvCreateFullPath "out/sub//"] "sub/b.bin" _ eq_refl).
  discriminate Hclaim.
Qed.

(** ** Further properties *)

(** *** File exporter *)

Lemma ExportData_limited_done io limit volume partition offset size f w w' :
  is_u64 offset -> is_u64 size ->
  ExportData_limited io limit volume partition offset size f w = (true, w') ->
  host_files w'
    = <[f := vol_bytes volume partition offset (Z.to_nat size)]> (host_files w)
  /\ host_dirs w' = host_dirs w.
Proof.
  intros Hoff Hsize Hrun.
  destruct (open_ok io (trace w) f) eqn:Hopen.
  - apply ExportData_limited_run in Hrun; try assumption.
    destruct Hrun as [Hdirs [(_ & Hfiles & _) | (Hfalse & _)]]; [auto|discriminate].
  - rewrite ExportData_limited_open_failed in Hrun by assumption. discriminate.
Qed.

(** X1. [ExportFile] refuses an absent entry and a directory without
    touching anything: it returns false and neither the host nor the
    trace changes (no file is created).  For a file entry, a true result
    means the host file holds exactly the entry's bytes, those at
    [GetOffset, GetOffset + GetSize), and nothing else on the host
    changed. *)
Theorem ExportFile_exports_entry io volume partition file_info export_filename w :
  (file_info = None ->
     ExportFile io volume partition file_info export_filename w = (false, w)) /\
  (forall fi, file_info = Some fi -> IsDirectory fi = true ->
     ExportFile io volume partition file_info export_filename w = (false, w)) /\
  (forall fi, file_info = Some fi -> IsDirectory fi = false -> file_in_range fi ->
     fst (ExportFile io volume partition file_info export_filename w) = true ->
     host_files (snd (ExportFile io volume partition file_info export_filename w))
       = <[export_filename := file_bytes volume partition fi]> (host_files w) /\
     host_dirs (snd (ExportFile io volume partition file_info export_filename w))
       = host_dirs w).
Proof.
  split; [intros ->; reflexivity|]. split.
  - intros fi -> Hdir. unfold ExportFile. now rewrite Hdir.
  - intros fi -> Hfile [Hoff Hsize]. unfold ExportFile. rewrite Hfile.
    destruct (ExportData io volume partition (GetOffset fi) (GetSize fi)
                export_filename w) as [r w'] eqn:Hrun.
    cbn [fst snd]. intros ->. unfold ExportData in Hrun.
    now apply ExportData_limited_done in Hrun.
Qed.

Lemma ExportFile_exports_entry_witness :
  host_files (snd (ExportFile Sample.friendly_host (Sample.ramp WII_DISC) 0
                     (Some Sample.file_b) "out/b.bin" Sample.empty_world))
  = <["out/b.bin" := [Byte.x20; Byte.x21; Byte.x22]]> ∅.
Proof.
  apply (proj2 (proj2 (ExportFile_exports_entry Sample.friendly_host
                         (Sample.ramp WII_DISC) 0 (Some Sample.file_b) "out/b.bin"
                         Sample.empty_world)) Sample.file_b eq_refl eq_refl).
  - split; unfold is_u64; simpl; lia.
  - reflexivity.
Defined.

(** *** Boot metadata locator *)

Lemma dol_segments_reads volume partition dol_offset offset_table size_table :
  forall count i dol_size w,
  let w' := snd (dol_segments volume partition dol_offset offset_table size_table
                   count i dol_size w) in
  host_of w' = host_of w /\
  exists evs, trace w' = trace w ++ evs /\ forallb is_read4 evs = true
              /\ (length evs <= 2 * count)%nat.
Proof.
  induction count as [|count IH]; intros i dol_size w; cbv zeta.
  - cbn. split; [reflexivity|]. exists []. rewrite app_nil_r. auto.
  - cbn [dol_segments]. rewrite !ReadSwapped_u32_eq.
    set (e2 := EvRead partition _ 4 _). set (e1 := EvRead partition _ 4 _).
    destruct (read_u32 volume partition _) as [o|];
      [destruct (read_u32 volume partition _) as [s|]|].
    + specialize (IH (i + 1) (Z.max (wrap32 (o + s)) dol_size) (emit e2 (emit e1 w))).
      cbv zeta in IH. destruct IH as (Hhost & evs & Htrace & Hreads & Hlen).
      rewrite Hhost, Htrace. split; [reflexivity|].
      exists ([e1; e2] ++ evs). cbn [emit trace]. rewrite <- !app_assoc.
      split; [reflexivity|]. split; [exact Hreads|]. cbn [length app]. lia.
    + cbn [snd]. split; [reflexivity|]. exists [e1; e2]. cbn [emit trace].
      rewrite <- app_assoc. split; [reflexivity|]. split; [reflexivity|cbn; lia].
    + cbn [snd]. split; [reflexivity|]. exists [e1; e2]. cbn [emit trace].
      rewrite <- app_assoc. split; [reflexivity|]. split; [reflexivity|cbn; lia].
Qed.

Lemma GetBootDOLSize_reads volume partition dol_offset w :
  let w' := snd (GetBootDOLSize volume partition dol_offset w) in
  host_of w' = host_of w /\
  exists evs, trace w' = trace w ++ evs /\ forallb is_read4 evs = true
              /\ (length evs <= 36)%nat.
Proof.
  cbv zeta. unfold GetBootDOLSize.
  destruct (IsDisc (GetVolumeType volume)); cbn [negb].
  2:{ cbn. split; [reflexivity|]. exists []. rewrite app_nil_r.
      split; [reflexivity|]. split; [reflexivity|cbn; lia]. }
  pose proof (dol_segments_reads volume partition dol_offset 0 144 7 0 0 w) as H1.
  cbv zeta in H1.
  destruct (dol_segments volume partition dol_offset 0 144 7 0 0 w) as [[ds|] w1];
    cbn [snd] in *.
  - pose proof (dol_segments_reads volume partition dol_offset 28 172 11 0 ds w1)
      as H2.
    cbv zeta in H2.
    destruct H1 as (Hh1 & evs1 & Ht1 & Hr1 & Hl1), H2 as (Hh2 & evs2 & Ht2 & Hr2 & Hl2).
    rewrite Hh2, Hh1, Ht2, Ht1. split; [reflexivity|].
    exists (evs1 ++ evs2). rewrite app_assoc. split; [reflexivity|].
    split; [now apply forallb_app_true|]. rewrite length_app. lia.
  - destruct H1 as (Hh1 & evs1 & Ht1 & Hr1 & Hl1). split; [exact Hh1|].
    exists evs1. split; [exact Ht1|]. split; [exact Hr1|lia].
Qed.

(** X2. The two boot queries only read the volume.  [GetBootDOLOffset]
    leaves the host as it is and makes at most one read, of four bytes;
    whatever it yields is a multiple of four on a Wii disc and below
    2^34.  [GetBootDOLSize] leaves the host as it is and makes at most
    36 reads, each of four bytes; whatever it yields is a [u32]. *)
Theorem boot_queries_only_read volume partition dol_offset w :
  let offset_query := GetBootDOLOffset volume partition w in
  let size_query := GetBootDOLSize volume partition dol_offset w in
  host_of (snd offset_query) = host_of w /\
  forallb is_read4 (new_events w (snd offset_query)) = true /\
  (length (new_events w (snd offset_query)) <= 1)%nat /\
  (forall v, fst offset_query = Some v ->
     0 <= v < 2^34 /\ (GetVolumeType volume = WII_DISC -> v mod 4 = 0)) /\
  host_of (snd size_query) = host_of w /\
  forallb is_read4 (new_events w (snd size_query)) = true /\
  (length (new_events w (snd size_query)) <= 36)%nat /\
  (forall v, fst size_query = Some v -> is_u32 v).
Proof.
  cbv zeta. split; [|split; [|split; [|split]]].
  - unfold GetBootDOLOffset. destruct (IsDisc (GetVolumeType volume)); cbn [negb];
      [rewrite ReadSwapped_u32_eq|]; reflexivity.
  - unfold GetBootDOLOffset. destruct (IsDisc (GetVolumeType volume)); cbn [negb].
    + rewrite ReadSwapped_u32_eq. cbn [snd]. now rewrite new_events_emit.
    + cbn [snd]. unfold new_events. now rewrite drop_all.
  - unfold GetBootDOLOffset. destruct (IsDisc (GetVolumeType volume)); cbn [negb].
    + rewrite ReadSwapped_u32_eq. cbn [snd]. rewrite new_events_emit. cbn. lia.
    + cbn [snd]. unfold new_events. rewrite drop_all. cbn. lia.
  - intros v. unfold GetBootDOLOffset.
    destruct (IsDisc (GetVolumeType volume)); cbn [negb]; [|discriminate].
    rewrite ReadSwapped_u32_eq. cbn [fst].
    destruct (read_u32 volume partition 1056) as [raw|] eqn:Hraw; [|discriminate].
    pose proof (read_u32_range _ _ _ _ Hraw) as Hrange. unfold is_u32 in Hrange.
    intros [= <-].
    destruct (Platform_eqb (GetVolumeType volume) WII_DISC) eqn:Hwii.
    + rewrite Z.shiftl_mul_pow2 by lia. change (2^2) with 4.
      rewrite wrap64_small by (unfold is_u64; lia).
      split; [lia|]. intros _. apply Z.mod_mul. lia.
    + rewrite Z.shiftl_0_r, wrap64_small by (unfold is_u64; lia).
      split; [lia|]. intros Hw. rewrite Hw in Hwii. discriminate.
  - destruct (GetBootDOLSize_reads volume partition dol_offset w)
      as (Hhost & evs & Htrace & Hreads & Hlen).
    rewrite (new_events_spec _ _ _ Htrace).
    split; [exact Hhost|]. split; [exact Hreads|]. split; [exact Hlen|].
    apply GetBootDOLSize_fst_range.
Qed.

Lemma boot_queries_only_read_witness :
  0 <= 0x48d0 < 2^34 /\ (WII_DISC = WII_DISC -> 0x48d0 mod 4 = 0).
Proof.
  apply (proj1 (proj2 (proj2 (proj2 (boot_queries_only_read
           (Sample.disc_with WII_DISC [(0x420, 0x1234)]) 0 0 Sample.empty_world))))
         0x48d0).
  reflexivity.
Defined.

Lemma max_extent_bounds plus segs :
  Forall (fun seg => plus (fst seg) (snd seg) <= max_extent plus segs) segs /\
  (max_extent plus segs = 0
   \/ Exists (fun seg => max_extent plus segs = plus (fst seg) (snd seg)) segs).
Proof.
  induction segs as [|seg segs [IHle IHhit]].
  - split; [constructor|now left].
  - change (max_extent plus (seg :: segs))
      with (Z.max (plus (fst seg) (snd seg)) (max_extent plus segs)).
    split.
    + constructor; [lia|]. eapply Forall_impl; [exact IHle|]. cbn beta. intros; lia.
    + destruct (Z.max_spec (plus (fst seg) (snd seg)) (max_extent plus segs))
        as [[_ ->] | [_ ->]].
      * destruct IHhit as [?|Hex]; [now left|right]. now apply Exists_cons_tl.
      * right. now apply Exists_cons_hd.
Qed.

(** X3. What [GetBootDOLSize] yields covers every segment and is not
    larger than needed: it is at least the offset + size (in 32 bits) of
    each of the 18 descriptors, and it is either 0 or the offset + size
    of one of them. *)
Theorem GetBootDOLSize_is_maximum volume partition dol_offset w segs dol_size :
  read_descriptors volume partition (dol_descriptor_fields dol_offset) = Some segs ->
  fst (GetBootDOLSize volume partition dol_offset w) = Some dol_size ->
  length segs = 18%nat /\
  Forall (fun seg => add_u32 (fst seg) (snd seg) <= dol_size) segs /\
  (dol_size = 0
   \/ Exists (fun seg => dol_size = add_u32 (fst seg) (snd seg)) segs).
Proof.
  intros Hsegs Hsize.
  assert (length segs = 18%nat) as Hlen.
  { assert (forall fields l, read_descriptors volume partition fields = Some l ->
                             length l = length fields) as Hlength.
    { induction fields as [|[a b] fields IH]; intros l; cbn [read_descriptors].
      - now intros [= <-].
      - destruct (read_u32 volume partition (wrap64 a)); [|discriminate].
        destruct (read_u32 volume partition (wrap64 b)); [|discriminate].
        destruct (read_descriptors volume partition fields) as [l'|]; [|discriminate].
        intros [= <-]. cbn. now rewrite (IH l'). }
    now rewrite (Hlength _ _ Hsegs). }
  split; [exact Hlen|].
  destruct (IsDisc (GetVolumeType volume)) eqn:Hdisc.
  - rewrite GetBootDOLSize_fst, Hsegs in Hsize by assumption.
    injection Hsize as <-. apply max_extent_bounds.
  - unfold GetBootDOLSize in Hsize. rewrite Hdisc in Hsize. discriminate.
Qed.

Lemma GetBootDOLSize_is_maximum_witness :
  Forall (fun seg => add_u32 (fst seg) (snd seg) <= 0x150)
    ((0x100, 0x50) :: replicate 17 (0, 0)).
Proof.
  refine (proj1 (proj2 (GetBootDOLSize_is_maximum
            (Sample.disc_with WII_DISC [(0x1000, 0x100); (0x1090, 0x50)])
            0 0x1000 Sample.empty_world _ 0x150 _ _)));
    vm_compute; reflexivity.
Defined.

(** *** Bulk data exporter: what it leaves alone *)

Lemma ExportData_loop_events io limit volume partition f (m : nat) :
  forall offset size w,
  (Z.to_nat size <= m)%nat ->
  exists evs,
    trace (snd (ExportData_loop io limit volume partition f offset size w))
      = trace w ++ evs
    /\ forallb (is_transfer_to f) evs = true.
Proof.
  induction m as [|m IH]; intros offset size w Hm.
  - rewrite ExportData_loop_done by lia. exists []. now rewrite app_nil_r.
  - destruct (Z_lt_le_dec 0 size) as [Hpos|Hle].
    2:{ rewrite ExportData_loop_done by lia. exists []. now rewrite app_nil_r. }
    rewrite ExportData_loop_step by assumption. cbv zeta.
    set (n := Z.min size (Z.pos limit)).
    destruct (vol_readable volume partition offset n).
    + destruct (write_ok io _ f _).
      * match goal with
        | |- context [ExportData_loop io limit volume partition f ?o ?s ?w1] =>
            destruct (IH o s w1) as (evs & Htrace & Hevs)
        end.
        { unfold wrap64. pose proof (Z.mod_le (size - n) (2^64)).
          pose proof (Z.mod_pos_bound (size - n) (2^64)). lia. }
        rewrite Htrace. cbn [trace]. eexists.
        split; [rewrite <- !app_assoc; reflexivity|].
        cbn [app forallb is_transfer_to andb]. rewrite bool_decide_eq_true_2 by reflexivity.
        exact Hevs.
      * cbn [snd trace]. eexists. split; [rewrite <- app_assoc; reflexivity|].
        cbn [app forallb is_transfer_to andb].
        now rewrite bool_decide_eq_true_2 by reflexivity.
    + cbn [snd trace]. eexists. split; reflexivity.
Qed.

Lemma ExportData_limited_events io limit volume partition offset size f w :
  exists evs,
    trace (snd (ExportData_limited io limit volume partition offset size f w))
      = trace w ++ evs
    /\ forallb (is_transfer_to f) evs = true.
Proof.
  unfold ExportData_limited, IOFile_open.
  destruct (open_ok io (trace w) f).
  - match goal with
    | |- context [ExportData_loop io limit volume partition f offset size ?w1] =>
        destruct (ExportData_loop_events io limit volume partition f
                    (Z.to_nat size) offset size w1 (Nat.le_refl _))
          as (evs & Htrace & Hevs)
    end.
    rewrite Htrace. cbn [trace]. eexists.
    split; [rewrite <- app_assoc; reflexivity|].
    cbn [app forallb is_transfer_to]. now rewrite bool_decide_eq_true_2 by reflexivity.
  - cbn [snd trace]. eexists. split; [reflexivity|].
    cbn [forallb is_transfer_to]. now rewrite bool_decide_eq_true_2 by reflexivity.
Qed.

(** X4. Whatever its arguments and whether it succeeds or fails,
    [ExportData] changes no host file other than [export_filename],
    creates no directory, and does nothing to the outside but open
    [export_filename], read the volume and write to [export_filename];
    the open comes first. *)
Theorem ExportData_touches_only_its_file io volume partition offset size
    export_filename w :
  let w' := snd (ExportData io volume partition offset size export_filename w) in
  host_dirs w' = host_dirs w /\
  (forall q, q <> export_filename -> host_files w' !! q = host_files w !! q) /\
  forallb (is_transfer_to export_filename) (new_events w w') = true /\
  (exists evs,
     new_events w w'
     = EvOpen export_filename (open_ok io (trace w) export_filename) :: evs
     /\ forallb is_transfer evs = true).
Proof.
  cbv zeta. unfold ExportData.
  destruct (ExportData_limited io read_limit volume partition offset size
              export_filename w) as [r w'] eqn:Hrun.
  destruct (ExportData_limited_frame _ _ _ _ _ _ _ _ _ _ Hrun)
    as (Hdirs & Hother & _ & _ & evs & Htrace & Hevs).
  destruct (ExportData_limited_events io read_limit volume partition offset size
              export_filename w) as (evs' & Htrace' & Hevs').
  rewrite Hrun in Htrace'. cbn [snd] in *.
  split; [exact Hdirs|]. split; [exact Hother|].
  split; [now rewrite (new_events_spec _ _ _ Htrace')|].
  exists evs. now rewrite (new_events_spec _ _ _ Htrace).
Qed.

Lemma ExportData_touches_only_its_file_witness :
  host_files
    (snd (ExportData Sample.friendly_host (Sample.ramp WII_DISC) 0 16 5
            "out/a.bin" (mkWorld {["keep.bin" := [Byte.x01]]} ∅ [])))
    !! "keep.bin"
  = Some [Byte.x01].
Proof.
  rewrite (proj1 (proj2 (ExportData_touches_only_its_file Sample.friendly_host
                           (Sample.ramp WII_DISC) 0 16 5 "out/a.bin"
                           (mkWorld {["keep.bin" := [Byte.x01]]} ∅ []))))
    by discriminate.
  reflexivity.
Defined.

Lemma chunk_events_within volume partition f offset size sizes : forall base,
  Forall (fun n => 0 <= n) sizes ->
  0 <= base -> base + foldr Z.add 0 sizes <= size ->
  Forall (read_within partition offset size)
    (chunk_events volume partition f (offset + base) sizes).
Proof.
  induction sizes as [|n sizes IH]; intros base Hpos Hbase Hfit; [constructor|].
  inversion Hpos as [|? ? Hn Hrest]; subst. cbn [foldr] in Hfit.
  assert (0 <= foldr Z.add 0 sizes) as Hsum.
  { clear -Hrest. induction Hrest; cbn [foldr]; lia. }
  cbn [chunk_events]. constructor; [|constructor].
  - split; [reflexivity|]. exists base. repeat split; lia.
  - exact I.
  - replace (offset + base + n) with (offset + (base + n)) by lia.
    apply IH; [assumption|lia|lia].
Qed.

(** X5. [ExportData] never reads the volume outside the range it was
    asked to export: every read it makes, in a run that succeeds or
    fails, is of the given partition and covers bytes number [k] to
    [k + n] of the range, with [k + n <= size]. *)
Theorem ExportData_reads_within_range io volume partition offset size
    export_filename w :
  is_u64 offset -> is_u64 size ->
  Forall (read_within partition offset size)
    (new_events w (snd (ExportData io volume partition offset size
                          export_filename w))).
Proof.
  intros Hoff Hsize. unfold ExportData.
  destruct (ExportData_limited io read_limit volume partition offset size
              export_filename w) as [r w'] eqn:Hrun.
  cbn [snd]. destruct (open_ok io (trace w) export_filename) eqn:Hopen.
  - apply ExportData_limited_run in Hrun; try assumption.
    assert (0 <= size) as Hsize0 by (unfold is_u64 in Hsize; lia).
    destruct Hrun as [_ [(_ & _ & Htrace)
                        | (_ & done & failure & Hlt & _ & Htrace & Hfail)]].
    + rewrite (new_events_spec _ _ _ Htrace). constructor; [exact I|].
      rewrite <- (Z.add_0_r offset) at 2. apply chunk_events_within.
      * eapply Forall_impl; [apply chunk_sizes_bounded; lia|]. cbn beta. intros; lia.
      * lia.
      * rewrite chunk_sizes_sum by lia. lia.
    + cbv zeta in *. rewrite <- app_assoc in Htrace.
      rewrite (new_events_spec _ _ _ Htrace). constructor; [exact I|].
      assert (foldr Z.add 0 (replicate done (Z.pos read_limit))
              = Z.of_nat done * Z.pos read_limit) as Hsum.
      { clear. induction done as [|done IH]; cbn [replicate foldr]; [lia|].
        rewrite IH. lia. }
      apply Forall_app. split.
      * rewrite <- (Z.add_0_r offset) at 2. apply chunk_events_within.
        -- apply Forall_replicate. lia.
        -- lia.
        -- rewrite Hsum. lia.
      * assert (read_within partition offset size
                  (EvRead partition
                     (wrap64 (offset + Z.of_nat done * Z.pos read_limit))
                     (Z.min (size - Z.of_nat done * Z.pos read_limit)
                        (Z.pos read_limit)) true)
                /\ read_within partition offset size
                     (EvRead partition
                        (wrap64 (offset + Z.of_nat done * Z.pos read_limit))
                        (Z.min (size - Z.of_nat done * Z.pos read_limit)
                           (Z.pos read_limit)) false)) as [Hok Hko].
        { split; (split; [reflexivity|]);
            exists (Z.of_nat done * Z.pos read_limit); repeat split; lia. }
        destruct Hfail as [[_ ->] | (_ & _ & ->)].
        -- constructor; [exact Hko|constructor].
        -- constructor; [exact Hok|]. constructor; [exact I|constructor].
  - rewrite ExportData_limited_open_failed in Hrun by assumption.
    injection Hrun as _ <-.
    rewrite (new_events_spec _ _ [EvOpen export_filename false]) by reflexivity.
    constructor; [exact I|constructor].
Qed.

Lemma ExportData_reads_within_range_witness :
  Forall (read_within 0 16 5)
    (new_events Sample.empty_world
       (snd (ExportData Sample.friendly_host (Sample.ramp WII_DISC) 0 16 5
               "out/a.bin" Sample.empty_world))).
Proof.
  apply ExportData_reads_within_range; unfold is_u64; lia.
Defined.

(** *** Apploader and boot executable exporters *)

Lemma apploader_image_size_eq a t :
  apploader_image_size a t = (a + t + 0x20) mod 2^32.
Proof.
  unfold apploader_image_size, wrap32. rewrite Zplus_mod_idemp_r.
  f_equal. lia.
Qed.

(** X6. [ExportApploader] does nothing on a volume that is not a disc.
    On a disc it reads both header fields, at 0x2454 and 0x2458, the
    second also when the first could not be read; when either is
    unreadable it returns false having done nothing else (the file is not
    even opened); otherwise all it does next is transfer to
    [export_filename], and a true result means that file holds the
    [(size + trailer + 0x20) mod 2^32] bytes of the volume from 0x2440 on.
    It never creates a directory. *)
Theorem ExportApploader_reads_header io volume partition export_filename w :
  let run := ExportApploader io volume partition export_filename w in
  let w' := snd run in
  let size_field := read_u32 volume partition 0x2454 in
  let trailer_field := read_u32 volume partition 0x2458 in
  host_dirs w' = host_dirs w /\
  (IsDisc (GetVolumeType volume) = false -> run = (false, w)) /\
  (IsDisc (GetVolumeType volume) = true ->
   exists evs,
     new_events w w'
     = field_read volume partition 0x2454 :: field_read volume partition 0x2458
       :: evs /\
     forallb (is_transfer_to export_filename) evs = true /\
     (size_field = None \/ trailer_field = None ->
      fst run = false /\ evs = [] /\ host_files w' = host_files w) /\
     (forall a t, size_field = Some a -> trailer_field = Some t ->
      fst run = true ->
      host_files w'
      = <[export_filename :=
            vol_bytes volume partition 0x2440
              (Z.to_nat ((a + t + 0x20) mod 2^32))]> (host_files w))).
Proof.
  cbv zeta. unfold ExportApploader.
  destruct (IsDisc (GetVolumeType volume)); cbn [negb].
  2:{ split; [reflexivity|]. split; [reflexivity|discriminate]. }
  rewrite !ReadSwapped_u32_eq. change (0x2440 + 0x14) with 0x2454.
  change (0x2440 + 0x18) with 0x2458.
  fold (field_read volume partition 0x2454).
  fold (field_read volume partition 0x2458).
  set (w2 := emit (field_read volume partition 0x2458)
               (emit (field_read volume partition 0x2454) w)).
  assert (forall evs w3, trace w3 = trace w2 ++ evs ->
            new_events w w3
            = field_read volume partition 0x2454
              :: field_read volume partition 0x2458 :: evs) as Hevents.
  { intros evs w3 Ht. apply new_events_spec. rewrite Ht. subst w2. cbn [trace emit].
    now rewrite <- !app_assoc. }
  destruct (read_u32 volume partition 0x2454) as [a|];
    [destruct (read_u32 volume partition 0x2458) as [t|]|].
  - fold (apploader_image_size a t).
    destruct (ExportData io volume partition 0x2440 (apploader_image_size a t)
                export_filename w2) as [r w'] eqn:Hrun.
    cbn [fst snd]. unfold ExportData in Hrun.
    destruct (ExportData_limited_frame _ _ _ _ _ _ _ _ _ _ Hrun) as (Hdirs & _).
    destruct (ExportData_limited_events io read_limit volume partition 0x2440
                (apploader_image_size a t) export_filename w2)
      as (evs & Htrace & Hevs).
    rewrite Hrun in Htrace. cbn [snd] in Htrace.
    split; [exact Hdirs|]. split; [discriminate|]. intros _. exists evs.
    split; [now apply Hevents|]. split; [exact Hevs|].
    split; [intros [?|?]; discriminate|].
    intros a' t' [= <-] [= <-] ->.
    rewrite <- apploader_image_size_eq.
    apply ExportData_limited_done in Hrun; [apply Hrun|unfold is_u64; lia|].
    pose proof (wrap32_range (a + wrap32 (t + 32))).
    unfold apploader_image_size, is_u64, is_u32 in *. lia.
  - cbn [fst snd]. split; [reflexivity|]. split; [discriminate|]. intros _.
    exists []. split; [apply Hevents; now rewrite app_nil_r|].
    split; [reflexivity|]. split; [auto|]. intros a' t' _ [=].
  - cbn [fst snd]. split; [reflexivity|]. split; [discriminate|]. intros _.
    exists []. split; [apply Hevents; now rewrite app_nil_r|].
    split; [reflexivity|]. split; [auto|]. intros a' t' [=].
Qed.

Lemma ExportApploader_reads_header_witness :
  host_files
    (snd (ExportApploader Sample.friendly_host
            (Sample.disc_with GAMECUBE_DISC [(0x2454, 3); (0x2458, 1)]) 0
            "apploader.img" Sample.empty_world))
  = <["apploader.img" :=
        vol_bytes (Sample.disc_with GAMECUBE_DISC [(0x2454, 3); (0x2458, 1)]) 0
          0x2440 36]> ∅.
Proof.
  destruct (ExportApploader_reads_header Sample.friendly_host
              (Sample.disc_with GAMECUBE_DISC [(0x2454, 3); (0x2458, 1)]) 0
              "apploader.img" Sample.empty_world) as (_ & _ & H).
  destruct (H eq_refl) as (evs & _ & _ & _ & Hdone).
  apply (Hdone 3 1); reflexivity.
Defined.

(** X7. [ExportDOL] does nothing on a volume that is not a disc.  On a
    disc it first reads the boot offset field at 0x420.  When that cannot
    be read it returns false having done nothing else; when the size
    query fails it returns false after nothing but four-byte reads, at
    most 36, with the host untouched (the file is not opened).  Otherwise
    it has read the 18 descriptors, all it does next is transfer to
    [export_filename], and a true result means that file holds the
    [dol_size] bytes of the volume from [dol_offset] on.  It never creates
    a directory. *)
Theorem ExportDOL_locates_then_exports io volume partition export_filename w :
  let run := ExportDOL io volume partition export_filename w in
  let w' := snd run in
  let located := fst (GetBootDOLOffset volume partition w) in
  host_dirs w' = host_dirs w /\
  (IsDisc (GetVolumeType volume) = false -> run = (false, w)) /\
  (IsDisc (GetVolumeType volume) = true ->
   exists evs,
     new_events w w' = field_read volume partition 0x420 :: evs /\
     (located = None ->
      fst run = false /\ evs = [] /\ host_files w' = host_files w) /\
     (forall dol_offset, located = Some dol_offset ->
      let sized := fst (GetBootDOLSize volume partition dol_offset w) in
      (sized = None ->
       fst run = false /\ host_files w' = host_files w /\
       forallb is_read4 evs = true /\ (length evs <= 36)%nat) /\
      (forall dol_size, sized = Some dol_size ->
       exists rest,
         evs = descriptor_reads partition (dol_descriptor_fields dol_offset)
               ++ rest /\
         forallb (is_transfer_to export_filename) rest = true /\
         (fst run = true ->
          host_files w'
          = <[export_filename :=
                vol_bytes volume partition dol_offset (Z.to_nat dol_size)]>
              (host_files w))))).
Proof.
  cbv zeta. unfold ExportDOL.
  destruct (IsDisc (GetVolumeType volume)) eqn:Hdisc; cbn [negb].
  2:{ split; [reflexivity|]. split; [reflexivity|discriminate]. }
  pose proof (GetBootDOLOffset_world volume partition w) as Hw1. cbv zeta in Hw1.
  pose proof (GetBootDOLOffset_fst_range volume partition w) as Hr1.
  destruct (GetBootDOLOffset volume partition w) as [[dol_offset|] w1];
    cbn [fst snd] in *; destruct Hw1 as (Hf1 & Hd1 & Ht1); specialize (Ht1 Hdisc).
  2:{ split; [exact Hd1|]. split; [discriminate|]. intros _. exists [].
      split; [now apply new_events_spec|]. split; [auto|]. intros o [=]. }
  specialize (Hr1 _ eq_refl).
  pose proof (GetBootDOLSize_reads volume partition dol_offset w1) as Hw2.
  cbv zeta in Hw2. destruct Hw2 as (Hhost & evs2 & Ht2 & Hread4 & Hlen).
  pose proof (GetBootDOLSize_fst_range volume partition dol_offset w1) as Hr2.
  pose proof (GetBootDOLSize_fst_any volume partition dol_offset w1 w) as Hany.
  pose proof (GetBootDOLSize_trace volume partition dol_offset w1 Hdisc) as Hreads.
  pose proof (GetBootDOLSize_fst volume partition dol_offset w1 Hdisc) as Hfst.
  rewrite (new_events_spec _ _ _ Ht2) in Hreads.
  destruct (GetBootDOLSize volume partition dol_offset w1) as [[dol_size|] w2];
    cbn [fst snd] in *; injection Hhost as Hf2 Hd2.
  2:{ split; [now rewrite Hd2|]. split; [discriminate|]. intros _. exists evs2.
      split; [apply new_events_spec; now rewrite Ht2, Ht1, <- app_assoc|].
      split; [discriminate|]. intros o [= <-]. rewrite <- Hany.
      split; [|discriminate]. intros _. split; [reflexivity|].
      split; [now rewrite Hf2|]. split; assumption. }
  specialize (Hr2 _ eq_refl).
  destruct (ExportData io volume partition dol_offset dol_size export_filename w2)
    as [r w'] eqn:Hrun.
  cbn [fst snd]. unfold ExportData in Hrun.
  destruct (ExportData_limited_frame _ _ _ _ _ _ _ _ _ _ Hrun) as (Hdirs & _).
  destruct (ExportData_limited_events io read_limit volume partition dol_offset
              dol_size export_filename w2) as (evs3 & Ht3 & Hevs3).
  rewrite Hrun in Ht3. cbn [snd] in Ht3.
  split; [now rewrite Hdirs, Hd2|]. split; [discriminate|]. intros _.
  exists (evs2 ++ evs3).
  split; [apply new_events_spec; now rewrite Ht3, Ht2, Ht1, <- !app_assoc|].
  split; [discriminate|]. intros o [= <-]. rewrite <- Hany.
  split; [discriminate|]. intros s [= <-]. exists evs3.
  split.
  { f_equal. apply Hreads.
    destruct (read_descriptors volume partition (dol_descriptor_fields dol_offset));
      [eauto|discriminate]. }
  split; [exact Hevs3|]. intros ->.
  apply ExportData_limited_done in Hrun;
    [|assumption|unfold is_u64, is_u32 in *; lia].
  destruct Hrun as [Hfiles _]. now rewrite Hfiles, Hf2, Hf1.
Qed.

Lemma ExportDOL_locates_then_exports_witness :
  host_files
    (snd (ExportDOL Sample.friendly_host Sample.disc_without_apploader 0
            "boot.dol" Sample.empty_world))
  = <["boot.dol" := vol_bytes Sample.disc_without_apploader 0 0x100 24]> ∅.
Proof.
  destruct (ExportDOL_locates_then_exports Sample.friendly_host
              Sample.disc_without_apploader 0 "boot.dol" Sample.empty_world)
    as (_ & _ & H).
  destruct (H eq_refl) as (evs & _ & _ & Hlocated).
  destruct (Hlocated 0x100 eq_refl) as [_ Hsized].
  destruct (Hsized 24 eq_refl) as (rest & _ & _ & Hdone).
  apply Hdone. reflexivity.
Defined.

Lemma ExportApploader_touches io volume partition f w :
  let w' := snd (ExportApploader io volume partition f w) in
  host_dirs w' = host_dirs w /\
  exists evs, trace w' = trace w ++ evs
              /\ forallb (is_transfer_to f) evs = true.
Proof.
  cbv zeta. unfold ExportApploader.
  destruct (IsDisc (GetVolumeType volume)); cbn [negb].
  2:{ split; [reflexivity|]. exists []. now rewrite app_nil_r. }
  rewrite !ReadSwapped_u32_eq.
  set (w2 := emit _ (emit _ w)).
  assert (host_dirs w2 = host_dirs w /\
          exists evs, trace w2 = trace w ++ evs
                      /\ forallb (is_transfer_to f) evs = true)
    as (Hd & evs & Ht & He).
  { subst w2. cbn. split; [reflexivity|]. eexists.
    split; [rewrite <- app_assoc; reflexivity|reflexivity]. }
  destruct (read_u32 volume partition _) as [a|];
    [destruct (read_u32 volume partition _) as [t|]|]; cbn [snd]; eauto.
  destruct (ExportData io volume partition 9280 (wrap32 (a + wrap32 (t + 32))) f w2)
    as [r w'] eqn:Hrun.
  cbn [snd]. unfold ExportData in Hrun.
  destruct (ExportData_limited_frame _ _ _ _ _ _ _ _ _ _ Hrun) as (Hdirs & _).
  destruct (ExportData_limited_events io read_limit volume partition 9280
              (wrap32 (a + wrap32 (t + 32))) f w2) as (evs' & Ht' & He').
  rewrite Hrun in Ht'. cbn [snd] in Ht'.
  split; [now rewrite Hdirs|]. exists (evs ++ evs').
  split; [now rewrite Ht', Ht, app_assoc|now apply forallb_app_true].
Qed.

Lemma ExportDOL_touches io volume partition f w :
  let w' := snd (ExportDOL io volume partition f w) in
  host_dirs w' = host_dirs w /\
  exists evs, trace w' = trace w ++ evs
              /\ forallb (is_transfer_to f) evs = true.
Proof.
  cbv zeta. unfold ExportDOL.
  destruct (IsDisc (GetVolumeType volume)) eqn:Hdisc; cbn [negb].
  2:{ split; [reflexivity|]. exists []. now rewrite app_nil_r. }
  pose proof (GetBootDOLOffset_world volume partition w) as Hw1. cbv zeta in Hw1.
  destruct (GetBootDOLOffset volume partition w) as [[dol_offset|] w1];
    cbn [fst snd] in *; destruct Hw1 as (_ & Hd1 & Ht1); specialize (Ht1 Hdisc).
  2:{ split; [exact Hd1|]. eexists. split; [exact Ht1|reflexivity]. }
  pose proof (GetBootDOLSize_reads volume partition dol_offset w1) as Hw2.
  cbv zeta in Hw2. destruct Hw2 as (Hhost & evs2 & Ht2 & He2 & _).
  assert (forallb (is_transfer_to f) evs2 = true) as He2'.
  { apply forallb_forall. intros e He.
    pose proof (proj1 (forallb_forall _ _) He2 e He) as Hk.
    destruct e; try discriminate Hk; reflexivity. }
  injection Hhost as _ Hd2.
  destruct (GetBootDOLSize volume partition dol_offset w1) as [[dol_size|] w2];
    cbn [fst snd] in *.
  2:{ split; [now rewrite Hd2|]. exists ([field_read volume partition 0x420] ++ evs2).
      split; [now rewrite Ht2, Ht1, <- app_assoc|].
      now apply forallb_app_true. }
  destruct (ExportData io volume partition dol_offset dol_size f w2)
    as [r w'] eqn:Hrun.
  cbn [snd]. unfold ExportData in Hrun.
  destruct (ExportData_limited_frame _ _ _ _ _ _ _ _ _ _ Hrun) as (Hdirs & _).
  destruct (ExportData_limited_events io read_limit volume partition dol_offset
              dol_size f w2) as (evs3 & Ht3 & He3).
  rewrite Hrun in Ht3. cbn [snd] in Ht3.
  split; [now rewrite Hdirs, Hd2|].
  exists ([field_read volume partition 0x420] ++ evs2 ++ evs3).
  split; [now rewrite Ht3, Ht2, Ht1, <- !app_assoc|].
  apply forallb_app_true; [reflexivity|]. now apply forallb_app_true.
Qed.

(** X8. [ExportSystemData] does nothing on a volume that is not a disc.
    On any volume it creates no directory ([export_folder] is not created
    for the caller), changes no host file other than
    [export_folder/apploader.img] and [export_folder/boot.dol], and does
    nothing to the outside but read the volume and open and write those
    two files. *)
Theorem ExportSystemData_touches_two_files io volume partition export_folder w :
  let run := ExportSystemData io volume partition export_folder w in
  let w' := snd run in
  let apploader := export_folder +:+ "/apploader.img" in
  let dol := export_folder +:+ "/boot.dol" in
  host_dirs w' = host_dirs w /\
  (forall q, q <> apploader -> q <> dol ->
     host_files w' !! q = host_files w !! q) /\
  forallb (fun e => is_transfer_to apploader e || is_transfer_to dol e)
    (new_events w w') = true /\
  (IsDisc (GetVolumeType volume) = false -> run = (false, w)).
Proof.
  cbv zeta. unfold ExportSystemData.
  pose proof (ExportApploader_touches io volume partition
                (export_folder +:+ "/apploader.img") w) as Happ.
  cbv zeta in Happ. destruct Happ as (Hd1 & evs1 & Ht1 & He1).
  destruct (ExportApploader io volume partition
              (export_folder +:+ "/apploader.img") w) as [r1 w1] eqn:Hrun1.
  pose proof (ExportDOL_touches io volume partition
                (export_folder +:+ "/boot.dol") w1) as Hdol.
  cbv zeta in Hdol. destruct Hdol as (Hd2 & evs2 & Ht2 & He2).
  destruct (ExportDOL io volume partition (export_folder +:+ "/boot.dol") w1)
    as [r2 w2] eqn:Hrun2.
  cbn [fst snd] in *.
  pose proof (proj1 (ExportApploader_run _ _ _ _ _ _ _ Hrun1)) as Hother1.
  pose proof (proj1 (ExportDOL_run _ _ _ _ _ _ _ Hrun2)) as Hother2.
  split; [now rewrite Hd2|]. split; [|split].
  - intros q Hq1 Hq2. now rewrite Hother2, Hother1.
  - rewrite (new_events_spec w w2 (evs1 ++ evs2))
      by (now rewrite Ht2, Ht1, app_assoc).
    apply forallb_app_true; apply forallb_forall; intros e He.
    + rewrite (proj1 (forallb_forall _ _) He1 e He). reflexivity.
    + rewrite (proj1 (forallb_forall _ _) He2 e He). apply orb_true_r.
  - intros Hdisc. unfold ExportApploader in Hrun1. unfold ExportDOL in Hrun2.
    rewrite Hdisc in Hrun1, Hrun2. cbn [negb] in Hrun1, Hrun2.
    injection Hrun1 as <- <-. injection Hrun2 as <- <-. reflexivity.
Qed.

Lemma ExportSystemData_touches_two_files_witness :
  ExportSystemData Sample.friendly_host (Sample.ramp ELF_DOL) 0 "out"
    Sample.empty_world
  = (false, Sample.empty_world).
Proof.
  exact (proj2 (proj2 (proj2 (ExportSystemData_touches_two_files
                                Sample.friendly_host (Sample.ramp ELF_DOL) 0 "out"
                                Sample.empty_world))) eq_refl).
Defined.

(** *** File reader: what it touches, and how it agrees with the exporter *)

(** X9. [ReadFile] leaves the host alone and reads the volume at most
    once; with a capacity that is a [u64], what it returns is between 0
    and the capacity, a positive result ends inside the file
    ([offset_in_file + returned <= GetSize]), and the read it makes lies
    inside the file's extent on the volume: it never reads past the end
    of the file, however large the buffer. *)
Theorem ReadFile_reads_inside_file volume partition file_info buffer
    max_buffer_size offset_in_file w :
  is_u64 offset_in_file -> is_u64 max_buffer_size ->
  (forall fi, file_info = Some fi -> is_u64 (GetSize fi)) ->
  let result :=
    ReadFile volume partition file_info buffer max_buffer_size offset_in_file w in
  let returned := fst (fst result) in
  let w' := snd result in
  host_of w' = host_of w /\
  (length (new_events w w') <= 1)%nat /\
  0 <= returned <= max_buffer_size /\
  (forall fi, file_info = Some fi ->
     (0 < returned -> offset_in_file + returned <= GetSize fi) /\
     Forall (read_within partition (GetOffset fi) (GetSize fi))
       (new_events w w')).
Proof.
  intros Ho Hcap Hsize. cbv zeta. unfold ReadFile.
  assert (new_events w w = []) as Hnone
    by (apply new_events_spec; now rewrite app_nil_r).
  destruct file_info as [fi|].
  2:{ cbn [fst snd]. rewrite Hnone. split; [reflexivity|]. split; [cbn; lia|].
      split; [unfold is_u64 in Hcap; lia|]. intros fi [=]. }
  specialize (Hsize fi eq_refl).
  destruct (IsDirectory fi); cbn [orb].
  { cbn [fst snd]. rewrite Hnone. split; [reflexivity|]. split; [cbn; lia|].
    split; [unfold is_u64 in Hcap; lia|]. intros fi' _. split; [lia|constructor]. }
  destruct (Z.leb_spec (GetSize fi) offset_in_file) as [Hle|Hlt].
  { cbn [fst snd]. rewrite Hnone. split; [reflexivity|]. split; [cbn; lia|].
    split; [unfold is_u64 in Hcap; lia|]. intros fi' _. split; [lia|constructor]. }
  rewrite (wrap64_small (GetSize fi - offset_in_file)) by (unfold is_u64 in *; lia).
  unfold Volume_Read.
  set (n := Z.min max_buffer_size (GetSize fi - offset_in_file)).
  assert (0 <= n <= max_buffer_size /\ offset_in_file + n <= GetSize fi) as Hn
    by (unfold is_u64 in *; lia).
  assert (forall ok,
            read_within partition (GetOffset fi) (GetSize fi)
              (EvRead partition (wrap64 (GetOffset fi + offset_in_file)) n ok))
    as Hread.
  { intros ok. split; [reflexivity|]. exists offset_in_file.
    unfold is_u64 in *. repeat split; lia. }
  destruct (vol_readable volume partition _ n); cbn [fst snd];
    rewrite new_events_emit.
  - split; [reflexivity|]. split; [cbn; lia|]. split; [lia|].
    intros fi' [= <-]. split; [lia|]. constructor; [apply Hread|constructor].
  - split; [reflexivity|]. split; [cbn; lia|]. split; [lia|].
    intros fi' [= <-]. split; [lia|]. constructor; [apply Hread|constructor].
Qed.

Lemma ReadFile_reads_inside_file_witness :
  0 <= fst (fst (ReadFile (Sample.ramp GAMECUBE_DISC) 0 (Some Sample.file_a)
                   [Byte.xff; Byte.xff; Byte.xff; Byte.xff] 64 2
                   Sample.empty_world))
    <= 64.
Proof.
  refine (proj1 (proj2 (proj2 (ReadFile_reads_inside_file
                                 (Sample.ramp GAMECUBE_DISC) 0 (Some Sample.file_a)
                                 [Byte.xff; Byte.xff; Byte.xff; Byte.xff] 64 2
                                 Sample.empty_world _ _ _)))).
  - unfold is_u64. lia.
  - unfold is_u64. lia.
  - intros fi [= <-]. unfold is_u64. simpl. lia.
Defined.

Lemma vol_bytes_slice volume partition a (size o n : nat) :
  (o + n <= size)%nat ->
  take n (drop o (vol_bytes volume partition a size))
  = vol_bytes volume partition (a + Z.of_nat o) n.
Proof.
  intros Hfit. replace size with (o + (n + (size - o - n)))%nat by lia.
  rewrite vol_bytes_app.
  rewrite drop_app_length' by (now rewrite vol_bytes_length).
  rewrite vol_bytes_app.
  apply take_app_length'. now rewrite vol_bytes_length.
Qed.

(** X10. [ReadFile] and [ExportFile] agree on what a file is: when
    [ExportFile] has exported an entry, the bytes [ReadFile] returns for
    that entry at [offset_in_file] are the bytes of the exported host file
    from position [offset_in_file] on, and the host file is [GetSize]
    bytes long. *)
Theorem ReadFile_agrees_with_ExportFile io volume partition fi export_filename
    w w' buffer max_buffer_size offset_in_file w0 :
  IsDirectory fi = false -> file_in_range fi -> is_u64 offset_in_file ->
  ExportFile io volume partition (Some fi) export_filename w = (true, w') ->
  let result :=
    ReadFile volume partition (Some fi) buffer max_buffer_size offset_in_file w0 in
  let returned := Z.to_nat (fst (fst result)) in
  exists content,
    host_files w' !! export_filename = Some content /\
    Z.of_nat (length content) = GetSize fi /\
    take returned (snd (fst result))
    = take returned (drop (Z.to_nat offset_in_file) content).
Proof.
  intros Hfile [Hoff Hsize] Ho Hrun. cbv zeta.
  unfold ExportFile in Hrun. rewrite Hfile in Hrun. unfold ExportData in Hrun.
  apply ExportData_limited_done in Hrun; [|assumption..].
  destruct Hrun as [Hfiles _].
  exists (vol_bytes volume partition (GetOffset fi) (Z.to_nat (GetSize fi))).
  split; [rewrite Hfiles; apply lookup_insert_eq|].
  split; [rewrite vol_bytes_length; unfold is_u64 in Hsize; lia|].
  unfold ReadFile. rewrite Hfile. cbn [orb].
  destruct (Z.leb_spec (GetSize fi) offset_in_file) as [Hle|Hlt]; [reflexivity|].
  rewrite (wrap64_small (GetSize fi - offset_in_file)) by (unfold is_u64 in *; lia).
  unfold Volume_Read.
  set (n := Z.min max_buffer_size (GetSize fi - offset_in_file)).
  destruct (vol_readable volume partition _ n); cbn [fst snd]; [|reflexivity].
  rewrite vol_bytes_wrap.
  rewrite take_app_length' by (now rewrite vol_bytes_length).
  rewrite vol_bytes_slice by (unfold is_u64 in *; lia).
  now rewrite Z2Nat.id by (unfold is_u64 in Ho; lia).
Qed.

Lemma ReadFile_agrees_with_ExportFile_witness :
  exists content,
    host_files (snd (ExportFile Sample.friendly_host (Sample.ramp GAMECUBE_DISC) 0
                       (Some Sample.file_a) "a.bin" Sample.empty_world))
      !! "a.bin" = Some content /\
    Z.of_nat (length content) = 5 /\
    take 3 (snd (fst (ReadFile (Sample.ramp GAMECUBE_DISC) 0 (Some Sample.file_a)
                        [Byte.xff; Byte.xff; Byte.xff; Byte.xff] 3 1
                        Sample.empty_world)))
    = take 3 (drop 1 content).
Proof.
  apply (ReadFile_agrees_with_ExportFile Sample.friendly_host
           (Sample.ramp GAMECUBE_DISC) 0 Sample.file_a "a.bin" Sample.empty_world
           (snd (ExportFile Sample.friendly_host (Sample.ramp GAMECUBE_DISC) 0
                   (Some Sample.file_a) "a.bin" Sample.empty_world))
           [Byte.xff; Byte.xff; Byte.xff; Byte.xff] 3 1 Sample.empty_world).
  - reflexivity.
  - split; unfold is_u64; simpl; lia.
  - unfold is_u64. lia.
  - reflexivity.
Defined.

(** *** Directory exporter: the folders it creates *)

Lemma walk_folders_eq recursive export_folder directory :
  walk_folders recursive export_folder directory
  = (export_folder +:+ "/")
    :: walk_folders_entries recursive export_folder (children directory).
Proof. destruct directory. reflexivity. Qed.

Lemma walk_files_eq recursive export_folder directory :
  walk_files recursive export_folder directory
  = walk_files_entries recursive export_folder (children directory).
Proof. destruct directory. reflexivity. Qed.

Lemma created_paths_app evs1 evs2 :
  created_paths (evs1 ++ evs2) = created_paths evs1 ++ created_paths evs2.
Proof. apply omap_app. Qed.

Lemma after_open_creates_nothing evs :
  forallb is_after_open evs = true -> created_paths evs = [].
Proof.
  induction evs as [|e evs IH]; [reflexivity|]. cbn [forallb].
  intros H. apply andb_true_iff in H as [He Hevs].
  destruct e; try discriminate He; exact (IH Hevs).
Qed.

Lemma export_entry_file_creates io volume partition file_info recursive
    export_path recurse w :
  IsDirectory file_info = false ->
  let w' := export_entry io volume partition file_info recursive export_path
              recurse w in
  created_paths (new_events w w') = [] /\
  (forallb is_uncancelled (new_events w w') = true).
Proof.
  intros Hfile. cbv zeta.
  destruct (export_entry_file io volume partition file_info recursive export_path
              recurse w Hfile) as [[_ ->] | (_ & evs & Htrace & Hevs & _)].
  - rewrite (new_events_spec _ _ [EvExists export_path true; EvNotice export_path]).
    + split; reflexivity.
    + cbn [trace emit]. now rewrite <- app_assoc.
  - cbv zeta in Htrace. rewrite (new_events_spec _ _ _ Htrace).
    split.
    + exact (after_open_creates_nothing evs Hevs).
    + cbn [forallb]. apply forallb_forall. intros e He.
      pose proof (proj1 (forallb_forall _ _) Hevs e He) as Hk.
      destruct e; try discriminate Hk; reflexivity.
Qed.

Lemma replay_dirs evs : forall h,
  snd (replay evs h) = snd h ∪ created_dirs evs.
Proof.
  unfold created_dirs.
  induction evs as [|e evs IH]; intros h.
  - cbn. now rewrite union_empty_r_L.
  - change (replay (e :: evs) h) with (replay evs (apply_event h e)).
    rewrite IH.
    destruct e as [? ? ? ?|? ok|? ? ok|path|? ?|? ?|?|?];
      try destruct ok; try reflexivity.
    cbn [apply_event snd].
    change (created_paths (EvCreateFullPath path :: evs))
      with (path :: created_paths evs).
    cbn [map concat].
    now rewrite list_to_set_app_L, (assoc_L (∪)).
Qed.

Lemma new_events_refl w : new_events w w = [].
Proof. apply new_events_spec. now rewrite app_nil_r. Qed.

Lemma ExportDirectory_entries_folders io volume partition recursive
    update_progress entries :
  Forall (fun c => forall filesystem_path export_folder w,
            let w' := ExportDirectory io volume partition c recursive
                        filesystem_path export_folder update_progress w in
            created_paths (new_events w w')
              `sublist_of` walk_folders recursive export_folder c /\
            (forallb is_uncancelled (new_events w w') = true ->
             created_paths (new_events w w')
             = walk_folders recursive export_folder c))
         entries ->
  forall filesystem_path export_folder w,
    let w' := ExportDirectory_entries io volume partition entries recursive
                filesystem_path export_folder update_progress w in
    created_paths (new_events w w')
      `sublist_of` walk_folders_entries recursive export_folder entries /\
    (forallb is_uncancelled (new_events w w') = true ->
     created_paths (new_events w w')
     = walk_folders_entries recursive export_folder entries).
Proof.
  induction 1 as [|c cs IHc _ IHcs]; intros filesystem_path export_folder w;
    cbv zeta.
  - cbn [ExportDirectory_entries]. rewrite new_events_refl. split; reflexivity.
  - destruct (ExportDirectory_entries_turn io volume partition c cs recursive
                filesystem_path export_folder update_progress w)
      as [[_ ->] | (_ & Hw' & _ & _ & Hevs)]; cbv zeta in *.
    + rewrite new_events_emit. split; [apply sublist_nil_l|discriminate].
    + rewrite Hevs, Hw'. clear Hevs Hw'.
      set (path := filesystem_path +:+ entry_name c).
      set (export_path := export_folder +:+ "/" +:+ entry_name c).
      set (w1 := emit (EvProgress path false) w).
      set (w2 := export_entry _ _ _ _ _ _ _ w1).
      change (created_paths (EvProgress path false :: ?l)) with (created_paths l).
      rewrite created_paths_app.
      change (forallb is_uncancelled (EvProgress path false :: ?l))
        with (forallb is_uncancelled l).
      rewrite forallb_app.
      change (walk_folders_entries recursive export_folder (c :: cs))
        with ((if IsDirectory c && recursive
               then walk_folders recursive export_path c else [])
              ++ walk_folders_entries recursive export_folder cs).
      destruct (IHcs filesystem_path export_folder w2) as [Hsub2 Heq2].
      assert (created_paths (new_events w1 w2)
                `sublist_of` (if IsDirectory c && recursive
                              then walk_folders recursive export_path c else [])
              /\ (forallb is_uncancelled (new_events w1 w2) = true ->
                  created_paths (new_events w1 w2)
                  = if IsDirectory c && recursive
                    then walk_folders recursive export_path c else []))
        as [Hsub1 Heq1].
      { subst w2. destruct (IsDirectory c) eqn:Hdir; cbn [andb].
        - rewrite export_entry_directory by assumption.
          destruct recursive; [apply IHc|].
          rewrite new_events_refl. split; reflexivity.
        - destruct (export_entry_file_creates io volume partition c recursive
                      export_path
                      (ExportDirectory io volume partition c recursive path
                         export_path update_progress) w1 Hdir) as [-> _].
          split; reflexivity. }
      split; [now apply sublist_app|].
      intros Hun. apply andb_true_iff in Hun as [Hun1 Hun2].
      now rewrite Heq1, Heq2.
Qed.

Lemma ExportDirectory_folders io volume partition recursive update_progress
    directory :
  forall filesystem_path export_folder w,
    let w' := ExportDirectory io volume partition directory recursive
                filesystem_path export_folder update_progress w in
    created_paths (new_events w w')
      `sublist_of` walk_folders recursive export_folder directory /\
    (forallb is_uncancelled (new_events w w') = true ->
     created_paths (new_events w w')
     = walk_folders recursive export_folder directory).
Proof.
  induction directory as [directory IH] using FileInfo_tree_ind.
  intros filesystem_path export_folder w. cbv zeta.
  pose proof (ExportDirectory_entries_folders io volume partition recursive
                update_progress (children directory) IH filesystem_path
                export_folder (File_CreateFullPath (export_folder +:+ "/") w))
    as H.
  cbv zeta in H. rewrite ExportDirectory_events, ExportDirectory_eq.
  rewrite walk_folders_eq.
  change (created_paths (EvCreateFullPath ?p :: ?l)) with (p :: created_paths l).
  change (forallb is_uncancelled (EvCreateFullPath ?p :: ?l))
    with (forallb is_uncancelled l).
  destruct H as [Hsub Heq]. split; [now apply sublist_skip|].
  intros Hun. f_equal. now apply Heq.
Qed.

(** X11. The directories [ExportDirectory] creates.  It starts by
    creating [export_folder/], before the callback is asked anything; the
    paths it hands to [File::CreateFullPath] are, in walk order, among
    those of the folder itself and of the child directories a recursive
    export descends into, and in a run that was not cancelled they are
    exactly those, so that a directory without any file in it is created
    too; the host's directories afterwards are those it had and the ones
    these calls made. *)
Theorem ExportDirectory_creates_folders io volume partition directory recursive
    filesystem_path export_folder update_progress w :
  let w' := ExportDirectory io volume partition directory recursive
              filesystem_path export_folder update_progress w in
  let evs := new_events w w' in
  (exists rest, evs = EvCreateFullPath (export_folder +:+ "/") :: rest) /\
  created_paths evs `sublist_of` walk_folders recursive export_folder directory /\
  (forallb is_uncancelled evs = true ->
   created_paths evs = walk_folders recursive export_folder directory) /\
  host_dirs w' = host_dirs w ∪ created_dirs evs.
Proof.
  cbv zeta. split; [|split; [|split]].
  - eexists. apply ExportDirectory_events.
  - apply ExportDirectory_folders.
  - apply ExportDirectory_folders.
  - destruct (ExportDirectory_replayed io volume partition directory recursive
                filesystem_path export_folder update_progress w)
      as (evs & Htrace & Hhost).
    rewrite (new_events_spec _ _ _ Htrace).
    change (host_dirs ?x) with (snd (host_of x)). rewrite Hhost.
    apply replay_dirs.
Qed.

Lemma ExportDirectory_creates_folders_witness :
  created_paths
    (new_events Sample.empty_world
       (ExportDirectory Sample.friendly_host (Sample.ramp GAMECUBE_DISC) 0
          Sample.root true "" "out" Sample.never_cancel Sample.empty_world))
  = ["out/"; "out/sub//"].
Proof.
  apply (proj1 (proj2 (proj2 (ExportDirectory_creates_folders
                                Sample.friendly_host (Sample.ramp GAMECUBE_DISC) 0
                                Sample.root true "" "out" Sample.never_cancel
                                Sample.empty_world)))).
  reflexivity.
Defined.

(** *** Directory exporter: the files it writes *)

Lemma walk_files_entries_cons recursive export_folder c cs :
  walk_files_entries recursive export_folder (c :: cs)
  = (if negb (IsDirectory c)
     then [(export_folder +:+ "/" +:+ entry_name c, c)]
     else if recursive
          then walk_files recursive (export_folder +:+ "/" +:+ entry_name c) c
          else [])
    ++ walk_files_entries recursive export_folder cs.
Proof. reflexivity. Qed.

Lemma append_empty_r (s : string) : s +:+ "" = s.
Proof.
  induction s as [|c s IH]; [reflexivity|].
  change (String c (s +:+ "") = String c s). now rewrite IH.
Qed.

Lemma writes_within_mono paths paths' e :
  (forall q, q ∈ paths -> q ∈ paths') ->
  writes_within paths e -> writes_within paths' e.
Proof. intros Hsub. destruct e; cbn; auto. Qed.

Lemma transfer_to_within f paths evs :
  f ∈ paths -> forallb (is_transfer_to f) evs = true ->
  Forall (writes_within paths) evs.
Proof.
  intros Hf Hevs. apply List.Forall_forall. intros e He.
  pose proof (proj1 (forallb_forall _ _) Hevs e He) as Hk.
  destruct e; cbn in *; try exact I; try discriminate Hk;
    apply bool_decide_eq_true in Hk; now subst.
Qed.

Lemma export_entry_file_touches io volume partition c recursive export_path
    recurse w :
  IsDirectory c = false ->
  let w' := export_entry io volume partition c recursive export_path recurse w in
  (forall q, q <> export_path -> host_files w' !! q = host_files w !! q) /\
  Forall (writes_within [export_path]) (new_events w w').
Proof.
  intros Hfile. cbv zeta. unfold export_entry, File_Exists, ExportFile.
  rewrite Hfile. cbn [negb].
  destruct (path_exists w export_path).
  { rewrite (new_events_spec _ _ [EvExists export_path true; EvNotice export_path])
      by (cbn [trace emit]; now rewrite <- app_assoc).
    split; [reflexivity|]. repeat constructor. }
  set (w1 := emit (EvExists export_path false) w).
  destruct (ExportData_limited_events io read_limit volume partition (GetOffset c)
              (GetSize c) export_path w1) as (evs & Htrace & Hevs).
  destruct (ExportData io volume partition (GetOffset c) (GetSize c) export_path w1)
    as [r w2] eqn:Hrun.
  unfold ExportData in Hrun. rewrite Hrun in Htrace. cbn [snd] in Htrace.
  destruct (ExportData_limited_frame _ _ _ _ _ _ _ _ _ _ Hrun) as (_ & Hother & _).
  apply (transfer_to_within export_path [export_path]) in Hevs;
    [|apply list_elem_of_here].
  destruct r.
  - split; [exact Hother|].
    rewrite (new_events_spec _ _ (EvExists export_path false :: evs))
      by (rewrite Htrace; subst w1; cbn [trace emit]; now rewrite <- app_assoc).
    constructor; [exact I|exact Hevs].
  - split; [exact Hother|].
    rewrite (new_events_spec _ _ (EvExists export_path false
                                  :: evs ++ [EvError export_path]))
      by (cbn [trace emit]; rewrite Htrace; subst w1; cbn [trace emit];
          now rewrite <- !app_assoc).
    constructor; [exact I|]. apply Forall_app. split; [exact Hevs|].
    repeat constructor.
Qed.

Lemma ExportDirectory_entries_touches io volume partition recursive
    update_progress entries :
  Forall (fun c => forall filesystem_path export_folder w,
            let w' := ExportDirectory io volume partition c recursive
                        filesystem_path export_folder update_progress w in
            let paths := map fst (walk_files recursive export_folder c) in
            (forall q, q ∉ paths -> host_files w' !! q = host_files w !! q) /\
            Forall (writes_within paths) (new_events w w'))
         entries ->
  forall filesystem_path export_folder w,
    let w' := ExportDirectory_entries io volume partition entries recursive
                filesystem_path export_folder update_progress w in
    let paths := map fst (walk_files_entries recursive export_folder entries) in
    (forall q, q ∉ paths -> host_files w' !! q = host_files w !! q) /\
    Forall (writes_within paths) (new_events w w').
Proof.
  induction 1 as [|c cs IHc _ IHcs]; intros filesystem_path export_folder w;
    cbv zeta.
  - cbn [ExportDirectory_entries]. rewrite new_events_refl.
    split; [reflexivity|constructor].
  - destruct (ExportDirectory_entries_turn io volume partition c cs recursive
                filesystem_path export_folder update_progress w)
      as [[_ ->] | (_ & Hw' & _ & _ & Hevs)]; cbv zeta in *.
    + rewrite new_events_emit. split; [reflexivity|repeat constructor].
    + rewrite Hevs, Hw'. clear Hevs Hw'.
      set (path := filesystem_path +:+ entry_name c).
      set (export_path := export_folder +:+ "/" +:+ entry_name c).
      set (w1 := emit (EvProgress path false) w).
      set (w2 := export_entry _ _ _ _ _ _ _ w1).
      rewrite walk_files_entries_cons. fold export_path. rewrite map_app.
      set (here := map fst (if negb (IsDirectory c) then [(export_path, c)]
                            else if recursive
                                 then walk_files recursive export_path c else [])).
      set (later := map fst (walk_files_entries recursive export_folder cs)).
      destruct (IHcs filesystem_path export_folder w2) as [Hfiles2 Hevs2].
      fold later in Hfiles2, Hevs2.
      assert ((forall q, q ∉ here -> host_files w2 !! q = host_files w !! q) /\
              Forall (writes_within here) (new_events w1 w2)) as [Hfiles1 Hevs1].
      { subst w2 here. destruct (IsDirectory c) eqn:Hdir; cbn [negb].
        - rewrite export_entry_directory by assumption.
          destruct recursive; [exact (IHc path export_path w1)|].
          rewrite new_events_refl. split; [reflexivity|constructor].
        - destruct (export_entry_file_touches io volume partition c recursive
                      export_path
                      (ExportDirectory io volume partition c recursive path
                         export_path update_progress) w1 Hdir) as [Hf He].
          split; [|exact He]. intros q Hq. apply Hf. intros ->. apply Hq.
          apply list_elem_of_here. }
      split.
      * intros q Hq. apply not_elem_of_app in Hq as [Hq1 Hq2].
        now rewrite Hfiles2, Hfiles1.
      * constructor; [exact I|]. apply Forall_app. split.
        -- eapply Forall_impl; [exact Hevs1|]. intros e. apply writes_within_mono.
           intros q Hq. apply elem_of_app. now left.
        -- eapply Forall_impl; [exact Hevs2|]. intros e. apply writes_within_mono.
           intros q Hq. apply elem_of_app. now right.
Qed.

Lemma ExportDirectory_touches io volume partition recursive update_progress
    directory :
  forall filesystem_path export_folder w,
    let w' := ExportDirectory io volume partition directory recursive
                filesystem_path export_folder update_progress w in
    let paths := map fst (walk_files recursive export_folder directory) in
    (forall q, q ∉ paths -> host_files w' !! q = host_files w !! q) /\
    Forall (writes_within paths) (new_events w w').
Proof.
  induction directory as [directory IH] using FileInfo_tree_ind.
  intros filesystem_path export_folder w. cbv zeta.
  pose proof (ExportDirectory_entries_touches io volume partition recursive
                update_progress (children directory) IH filesystem_path
                export_folder (File_CreateFullPath (export_folder +:+ "/") w))
    as H.
  cbv zeta in H. rewrite ExportDirectory_events, ExportDirectory_eq.
  rewrite walk_files_eq. destruct H as [Hfiles Hevs].
  split; [exact Hfiles|]. constructor; [exact I|exact Hevs].
Qed.

(** X12. [ExportDirectory] opens and writes only files at the export
    paths of the file entries it walks: every open and every write goes
    to such a path, and every other host file is as it was.  Without
    [recursive] these are the paths of the directory's own files. *)
Theorem ExportDirectory_writes_only_walked_files io volume partition directory
    recursive filesystem_path export_folder update_progress w :
  let w' := ExportDirectory io volume partition directory recursive
              filesystem_path export_folder update_progress w in
  let paths := map fst (walk_files recursive export_folder directory) in
  (forall q, q ∉ paths -> host_files w' !! q = host_files w !! q) /\
  Forall (writes_within paths) (new_events w w') /\
  (recursive = false ->
   paths = map (fun c => export_folder +:+ "/" +:+ GetName c)
             (filter (fun c => IsDirectory c = false) (children directory))).
Proof.
  cbv zeta.
  destruct (ExportDirectory_touches io volume partition recursive update_progress
              directory filesystem_path export_folder w) as [Hfiles Hevs].
  split; [exact Hfiles|]. split; [exact Hevs|].
  intros ->. rewrite walk_files_eq. unfold walk_files_entries.
  induction (children directory) as [|c cs IH]; [reflexivity|].
  cbn [map concat]. rewrite map_app, IH. unfold entry_name.
  destruct (IsDirectory c) eqn:Hdir; cbn [negb map app].
  - rewrite filter_cons_False by (rewrite Hdir; discriminate). reflexivity.
  - rewrite filter_cons_True by assumption. cbn [map fst].
    now rewrite append_empty_r.
Qed.

Lemma ExportDirectory_writes_only_walked_files_witness :
  map fst (walk_files false "out" Sample.root) = ["out/a.bin"].
Proof.
  exact (proj2 (proj2 (ExportDirectory_writes_only_walked_files
                         Sample.friendly_host (Sample.ramp GAMECUBE_DISC) 0
                         Sample.root false "" "out" Sample.never_cancel
                         Sample.empty_world)) eq_refl).
Defined.

Lemma file_outcome_later volume partition evs evs' w2 w' entry :
  file_outcome volume partition evs w2 entry ->
  (forall q c, host_files w2 !! q = Some c -> host_files w' !! q = Some c) ->
  (forall e, In e evs -> In e evs') ->
  file_outcome volume partition evs' w' entry.
Proof.
  intros [Hdone | [Hnotice | Herror]] Hkeep Hin.
  - left. now apply Hkeep.
  - right. left. now apply Hin.
  - right. right. now apply Hin.
Qed.

Lemma export_entry_file_outcome io volume partition c recursive export_path
    recurse w :
  IsDirectory c = false -> file_in_range c ->
  let w' := export_entry io volume partition c recursive export_path recurse w in
  file_outcome volume partition (new_events w w') w' (export_path, c).
Proof.
  intros Hfile [Hoff Hsize]. cbv zeta. unfold export_entry, File_Exists, ExportFile.
  rewrite Hfile. cbn [negb].
  destruct (path_exists w export_path).
  { rewrite (new_events_spec _ _ [EvExists export_path true; EvNotice export_path])
      by (cbn [trace emit]; now rewrite <- app_assoc).
    right. left. cbn. auto. }
  set (w1 := emit (EvExists export_path false) w).
  destruct (ExportData_limited_events io read_limit volume partition (GetOffset c)
              (GetSize c) export_path w1) as (evs & Htrace & _).
  destruct (ExportData io volume partition (GetOffset c) (GetSize c) export_path w1)
    as [r w2] eqn:Hrun.
  unfold ExportData in Hrun. rewrite Hrun in Htrace. cbn [snd] in Htrace.
  destruct r.
  - left. apply ExportData_limited_done in Hrun; [|assumption..].
    destruct Hrun as [-> _]. apply lookup_insert_eq.
  - right. right.
    rewrite (new_events_spec _ _ (EvExists export_path false
                                  :: evs ++ [EvError export_path]))
      by (cbn [trace emit]; rewrite Htrace; subst w1; cbn [trace emit];
          now rewrite <- !app_assoc).
    cbn [fst]. right. apply in_or_app. right. now left.
Qed.

Lemma ExportDirectory_entries_outcomes io volume partition recursive
    update_progress entries :
  Forall (fun c => forall filesystem_path export_folder w,
            let w' := ExportDirectory io volume partition c recursive
                        filesystem_path export_folder update_progress w in
            forallb is_uncancelled (new_events w w') = true ->
            Forall (fun entry =>
                      file_in_range (snd entry) ->
                      file_outcome volume partition (new_events w w') w' entry)
                   (walk_files recursive export_folder c))
         entries ->
  forall filesystem_path export_folder w,
    let w' := ExportDirectory_entries io volume partition entries recursive
                filesystem_path export_folder update_progress w in
    forallb is_uncancelled (new_events w w') = true ->
    Forall (fun entry =>
              file_in_range (snd entry) ->
              file_outcome volume partition (new_events w w') w' entry)
           (walk_files_entries recursive export_folder entries).
Proof.
  induction 1 as [|c cs IHc _ IHcs]; intros filesystem_path export_folder w;
    cbv zeta.
  - intros _. constructor.
  - destruct (ExportDirectory_entries_turn io volume partition c cs recursive
                filesystem_path export_folder update_progress w)
      as [[_ ->] | (_ & Hw' & _ & H23 & Hevs)]; cbv zeta in *.
    + rewrite new_events_emit. discriminate.
    + rewrite Hevs. rewrite Hw' in *. clear Hevs Hw'.
      set (path := filesystem_path +:+ entry_name c) in *.
      set (export_path := export_folder +:+ "/" +:+ entry_name c) in *.
      set (w1 := emit (EvProgress path false) w) in *.
      set (w2 := export_entry _ _ _ _ _ _ _ w1) in *.
      set (w' := ExportDirectory_entries _ _ _ _ _ _ _ _ w2) in *.
      change (forallb is_uncancelled (EvProgress path false :: ?l))
        with (forallb is_uncancelled l).
      rewrite forallb_app. intros Hun. apply andb_true_iff in Hun as [Hun1 Hun2].
      rewrite walk_files_entries_cons. fold export_path.
      apply Forall_app. split.
      * assert (Forall (fun entry =>
                          file_in_range (snd entry) ->
                          file_outcome volume partition (new_events w1 w2) w2 entry)
                  (if negb (IsDirectory c) then [(export_path, c)]
                   else if recursive then walk_files recursive export_path c
                        else [])) as Hhere.
        { subst w2. destruct (IsDirectory c) eqn:Hdir; cbn [negb].
          - rewrite export_entry_directory in * by assumption.
            destruct recursive; [|constructor].
            exact (IHc path export_path w1 Hun1).
          - constructor; [|constructor]. intros Hrange.
            now apply export_entry_file_outcome. }
        eapply Forall_impl; [exact Hhere|]. cbn beta. intros entry Hentry Hrange.
        eapply file_outcome_later; [exact (Hentry Hrange)|apply H23|].
        intros e He. right. apply in_or_app. now left.
      * eapply Forall_impl; [exact (IHcs filesystem_path export_folder w2 Hun2)|].
        cbn beta. intros entry Hentry Hrange.
        eapply file_outcome_later; [exact (Hentry Hrange)|auto|].
        intros e He. right. apply in_or_app. now right.
Qed.

Lemma ExportDirectory_outcomes io volume partition recursive update_progress
    directory :
  forall filesystem_path export_folder w,
    let w' := ExportDirectory io volume partition directory recursive
                filesystem_path export_folder update_progress w in
    forallb is_uncancelled (new_events w w') = true ->
    Forall (fun entry =>
              file_in_range (snd entry) ->
              file_outcome volume partition (new_events w w') w' entry)
           (walk_files recursive export_folder directory).
Proof.
  induction directory as [directory IH] using FileInfo_tree_ind.
  intros filesystem_path export_folder w. cbv zeta.
  pose proof (ExportDirectory_entries_outcomes io volume partition recursive
                update_progress (children directory) IH filesystem_path
                export_folder (File_CreateFullPath (export_folder +:+ "/") w))
    as H.
  cbv zeta in H. rewrite ExportDirectory_events, ExportDirectory_eq.
  rewrite walk_files_eq.
  change (forallb is_uncancelled (EvCreateFullPath ?p :: ?l))
    with (forallb is_uncancelled l).
  intros Hun. eapply Forall_impl; [exact (H Hun)|].
  cbn beta. intros entry Hentry Hrange.
  eapply file_outcome_later; [exact (Hentry Hrange)|auto|].
  intros e He. now right.
Qed.

(** X13. In a run of [ExportDirectory] that was not cancelled no walked
    file is passed over silently: for every file entry of the walk, at
    the end the host file at its export path holds the entry's bytes, or
    the entry was skipped with the notice that the path already exists,
    or an error line was logged for it (a failed export does not stop the
    walk).  So a run with no cancellation, notice or error line leaves
    every walked file on the host with its bytes. *)
Theorem ExportDirectory_accounts_for_every_file io volume partition directory
    recursive filesystem_path export_folder update_progress w :
  let w' := ExportDirectory io volume partition directory recursive
              filesystem_path export_folder update_progress w in
  let evs := new_events w w' in
  let files := walk_files recursive export_folder directory in
  Forall (fun entry => file_in_range (snd entry)) files ->
  (forallb is_uncancelled evs = true ->
   Forall (file_outcome volume partition evs w') files) /\
  (forallb is_clean evs = true ->
   Forall (fun entry =>
             host_files w' !! fst entry
             = Some (file_bytes volume partition (snd entry)))
          files).
Proof.
  cbv zeta. intros Hrange.
  assert (forallb is_uncancelled
            (new_events w
               (ExportDirectory io volume partition directory recursive
                  filesystem_path export_folder update_progress w)) = true ->
          Forall (file_outcome volume partition
                    (new_events w
                       (ExportDirectory io volume partition directory recursive
                          filesystem_path export_folder update_progress w))
                    (ExportDirectory io volume partition directory recursive
                       filesystem_path export_folder update_progress w))
                 (walk_files recursive export_folder directory)) as Hall.
  { intros Hun.
    pose proof (ExportDirectory_outcomes io volume partition recursive
                  update_progress directory filesystem_path export_folder w Hun)
      as Hout.
    cbv zeta in Hout. rewrite List.Forall_forall in *.
    intros entry Hentry. apply Hout; [assumption|]. now apply Hrange. }
  split; [exact Hall|]. intros Hclean.
  assert (forall e,
            In e (new_events w
                    (ExportDirectory io volume partition directory recursive
                       filesystem_path export_folder update_progress w)) ->
            is_clean e = true) as Hevery
    by (now apply forallb_forall).
  assert (forallb is_uncancelled
            (new_events w
               (ExportDirectory io volume partition directory recursive
                  filesystem_path export_folder update_progress w)) = true)
    as Hun.
  { apply forallb_forall. intros e He. specialize (Hevery e He).
    destruct e as [| | | | |? []| |]; try reflexivity. discriminate Hevery. }
  eapply Forall_impl; [exact (Hall Hun)|]. cbn beta.
  intros entry [Hdone | [Hnotice | Herror]].
  - exact Hdone.
  - apply Hevery in Hnotice. discriminate Hnotice.
  - apply Hevery in Herror. discriminate Herror.
Qed.

Lemma ExportDirectory_accounts_for_every_file_witness :
  Forall (fun entry =>
            host_files
              (ExportDirectory Sample.friendly_host (Sample.ramp GAMECUBE_DISC) 0
                 Sample.root true "" "out" Sample.never_cancel Sample.empty_world)
              !! fst entry
            = Some (file_bytes (Sample.ramp GAMECUBE_DISC) 0 (snd entry)))
         [("out/sub//b.bin", Sample.file_b); ("out/a.bin", Sample.file_a)].
Proof.
  apply (ExportDirectory_accounts_for_every_file Sample.friendly_host
           (Sample.ramp GAMECUBE_DISC) 0 Sample.root true "" "out"
           Sample.never_cancel Sample.empty_world).
  - repeat constructor; unfold is_u64; simpl; lia.
  - reflexivity.
Defined.

(** *** Boot executable size: where the reading stops *)

Lemma visited_descriptors_all volume partition fields :
  forallb (descriptor_readable volume partition) fields = true ->
  visited_descriptors volume partition fields = fields.
Proof.
  induction fields as [|field fields IH]; [reflexivity|]. cbn [forallb].
  intros H. apply andb_true_iff in H as [Hfield Hrest].
  cbn [visited_descriptors]. rewrite Hfield. now rewrite IH.
Qed.

Lemma visited_descriptors_app volume partition fields1 fields2 :
  visited_descriptors volume partition (fields1 ++ fields2)
  = if forallb (descriptor_readable volume partition) fields1
    then fields1 ++ visited_descriptors volume partition fields2
    else visited_descriptors volume partition fields1.
Proof.
  induction fields1 as [|field fields1 IH]; [reflexivity|].
  cbn [app visited_descriptors forallb]. rewrite IH.
  destruct (descriptor_readable volume partition field); cbn [andb]; [|reflexivity].
  now destruct (forallb (descriptor_readable volume partition) fields1).
Qed.

Lemma field_reads_app volume partition fields1 fields2 :
  field_reads volume partition (fields1 ++ fields2)
  = field_reads volume partition fields1 ++ field_reads volume partition fields2.
Proof. unfold field_reads. now rewrite map_app, concat_app. Qed.

(** One loop of [GetBootDOLSize] reads both fields of each descriptor in
    turn and stops after the first descriptor that cannot be read. *)
Lemma dol_segments_visits volume partition dol_offset offset_table size_table :
  forall count i dol_size w,
  let fields := map (fun j => (dol_offset + offset_table + 4 * j,
                               dol_offset + size_table + 4 * j))
                    (seqZ i (Z.of_nat count)) in
  let run := dol_segments volume partition dol_offset offset_table size_table
               count i dol_size w in
  trace (snd run)
  = trace w ++ field_reads volume partition
                 (visited_descriptors volume partition fields) /\
  (fst run = None <->
   forallb (descriptor_readable volume partition) fields = false).
Proof.
  induction count as [|count IH]; intros i dol_size w; cbv zeta.
  - cbn. rewrite app_nil_r. split; [reflexivity|]. split; discriminate.
  - rewrite seqZ_cons by lia. cbn [dol_segments map visited_descriptors forallb].
    rewrite !ReadSwapped_u32_eq.
    replace (Z.pred (Z.of_nat (S count))) with (Z.of_nat count) by lia.
    replace (4 * i) with (i * 4) by lia.
    change (descriptor_readable volume partition (?a, ?b))
      with (vol_readable volume partition (wrap64 a) 4
            && vol_readable volume partition (wrap64 b) 4).
    unfold read_u32.
    fold (field_read volume partition
            (wrap64 (dol_offset + offset_table + i * 4))).
    fold (field_read volume partition (wrap64 (dol_offset + size_table + i * 4))).
    rewrite !wrap64_idemp.
    assert (forall w2 rest,
              trace w2
              = trace (emit (field_read volume partition
                               (wrap64 (dol_offset + size_table + i * 4)))
                         (emit (field_read volume partition
                                  (wrap64 (dol_offset + offset_table + i * 4))) w))
                ++ field_reads volume partition rest ->
              trace w2
              = trace w
                ++ field_reads volume partition
                     ((dol_offset + offset_table + i * 4,
                       dol_offset + size_table + i * 4) :: rest)) as Hjoin.
    { intros w2 rest ->. unfold field_reads. cbn [map concat fst snd emit trace].
      now rewrite <- !app_assoc. }
    destruct (vol_readable volume partition
                (wrap64 (dol_offset + offset_table + i * 4)) 4);
      [destruct (vol_readable volume partition
                   (wrap64 (dol_offset + size_table + i * 4)) 4)|];
      cbn [andb fst snd].
    + replace (Z.succ i) with (i + 1) by lia.
      match goal with
      | |- context [dol_segments _ _ _ _ _ count (i + 1) ?ds ?w2] =>
          destruct (IH (i + 1) ds w2) as [Ht Hn]
      end.
      split; [apply Hjoin; exact Ht|exact Hn].
    + split; [apply Hjoin; now rewrite app_nil_r|]. split; reflexivity.
    + split; [apply Hjoin; now rewrite app_nil_r|]. split; reflexivity.
Qed.

(** X14. On a disc [GetBootDOLSize] reads the descriptors in order, both
    fields of each (the size field also when the offset field could not
    be read), and stops after the first descriptor with a field that
    cannot be read: its reads are exactly those of the descriptors up to
    and including that one, and it yields nothing exactly when there is
    such a descriptor. *)
Theorem GetBootDOLSize_stops_at_unreadable volume partition dol_offset w :
  IsDisc (GetVolumeType volume) = true ->
  let fields := dol_descriptor_fields dol_offset in
  let query := GetBootDOLSize volume partition dol_offset w in
  new_events w (snd query)
  = field_reads volume partition (visited_descriptors volume partition fields) /\
  (fst query = None <->
   forallb (descriptor_readable volume partition) fields = false).
Proof.
  intros Hdisc. cbv zeta. unfold GetBootDOLSize, dol_descriptor_fields.
  rewrite Hdisc. cbn [negb].
  pose proof (dol_segments_visits volume partition dol_offset 0 144 7 0 0 w) as H1.
  cbv zeta in H1. change (Z.of_nat 7) with 7 in H1.
  rewrite visited_descriptors_app, forallb_app.
  destruct H1 as [Ht1 Hn1].
  destruct (dol_segments volume partition dol_offset 0 144 7 0 0 w) as [[ds|] w1];
    cbn [fst snd] in *.
  - destruct (forallb (descriptor_readable volume partition)
                (map (fun i => (dol_offset + 0 + 4 * i, dol_offset + 144 + 4 * i))
                     (seqZ 0 7))) eqn:Hall1.
    2:{ destruct Hn1 as [_ Hn1]. now specialize (Hn1 eq_refl). }
    pose proof (dol_segments_visits volume partition dol_offset 28 172 11 0 ds w1)
      as H2.
    cbv zeta in H2. change (Z.of_nat 11) with 11 in H2. destruct H2 as [Ht2 Hn2].
    rewrite visited_descriptors_all in Ht1 by assumption.
    cbn [andb]. split; [|exact Hn2].
    apply new_events_spec. rewrite Ht2, Ht1, field_reads_app.
    now rewrite app_assoc.
  - destruct Hn1 as [Hn1 _]. rewrite (Hn1 eq_refl). cbn [andb].
    split; [now apply new_events_spec|]. split; reflexivity.
Qed.

Lemma GetBootDOLSize_stops_at_unreadable_witness :
  new_events Sample.empty_world
    (snd (GetBootDOLSize Sample.disc_without_apploader 0 0x2450
            Sample.empty_world))
  = [EvRead 0 0x2450 4 true; EvRead 0 0x24e0 4 true;
     EvRead 0 0x2454 4 false; EvRead 0 0x24e4 4 true].
Proof.
  exact (proj1 (GetBootDOLSize_stops_at_unreadable Sample.disc_without_apploader
                  0 0x2450 Sample.empty_world eq_refl)).
Defined.
